(** * Resilient price acquisition and in-process runtime

    A shallow embedding of the circuit breaker, the HTTP client wrapper, the
    two price clients, the dependency-injection container and the event bus,
    followed by the properties established about them.

    Conventions of the embedding.
    - A JavaScript [number] used as a counter or as a millisecond timestamp
      is a [Z]; a price or a rate is a [Q].
    - A [Date] is its millisecond value; [Date.now()] reads the clock of the
      [World].
    - An [async] function is run to completion: it maps the world before the
      call to the world after it together with its completion, a returned
      value or a thrown one.
    - [Map] objects are finite maps; objects with identity live in a store
      and are named by their location.
    - A function of the runtime whose result the code only passes on,
      [String.prototype.toLowerCase], is a parameter of the model. *)

From Stdlib Require Import ZArith QArith Bool List Ascii String Lia.
From stdpp Require Import gmap strings list fin_maps.
Import ListNotations.

Local Open Scope string_scope.
Local Open Scope Z_scope.

(** ** Thrown values and completions *)

(** The body of an error response, as far as the code reads it:
    [data?.message] and [data?.code]. *)
Record ErrBody := {
  body_message : option string;
  body_code : option string
}.

(** The [response] property of an error raised by the HTTP library. *)
Record ErrResponse := {
  resp_data : option ErrBody;
  resp_status : Z;
  resp_statusText : string
}.

(** Values that are thrown in the modelled code. The HTTP library rejects
    with an object carrying [message], [code], [request] and [response];
    [transformError] builds the normalized [{message, status, code, details}];
    [new Error(msg)] and the runtime's own [TypeError] and [RangeError]
    complete the list. *)
Inductive Thrown : Type :=
| AxiosError (message : string) (code : option string) (request : bool)
             (response : option ErrResponse)
| ApiError (message : string) (status : option Z) (code : option string)
           (details : Details)
| JsError (message : string)
| TypeError (message : string)
| RangeError (message : string)
with Details : Type :=
| DetailsData (d : option ErrBody)
| DetailsRequest
| DetailsThrown (t : Thrown).

(** Property reads on a thrown value of unknown shape ([error: any]). *)
Definition prop_response (e : Thrown) : option ErrResponse :=
  match e with AxiosError _ _ _ r => r | _ => None end.

Definition prop_request (e : Thrown) : bool :=
  match e with AxiosError _ _ rq _ => rq | _ => false end.

Definition prop_code (e : Thrown) : option string :=
  match e with
  | AxiosError _ c _ _ => c
  | ApiError _ _ c _ => c
  | _ => None
  end.

Definition prop_status (e : Thrown) : option Z :=
  match e with ApiError _ s _ _ => s | _ => None end.

Definition prop_message (e : Thrown) : string :=
  match e with
  | AxiosError m _ _ _ | ApiError m _ _ _ | JsError m | TypeError m
  | RangeError m => m
  end.

(** How a call completes. *)
Inductive Completion (A : Type) : Type :=
| Return (a : A)
| Throw (e : Thrown).
Arguments Return {A} a.
Arguments Throw {A} e.

(** ** The world outside the program *)

(** What the server sends for a successful request of each client. *)
Record MetalPriceApiResponse := {
  mp_metal : string;
  price_usd : Q;
  mp_currency : string;
  mp_timestamp : string;
  unit_oz : bool            (* unit: 'oz' (true) | 'g' (false) *)
}.

Record ExchangeRateApiResponse := {
  er_base : string;
  er_date : string;
  rates : gmap string Q
}.

Inductive Payload :=
| MetalPayload (p : MetalPriceApiResponse)
| RatesPayload (p : ExchangeRateApiResponse)
| OtherPayload (raw : string).

Record AxiosResponse := {
  data : Payload;
  status : Z;
  statusText : string;
  headers : list (string * string)
}.

(** One exchange on the wire: how long it took and how it ended. *)
Record NetReply := {
  latency : Z;
  outcome : AxiosResponse + Thrown
}.

(** The world: the clock read by [Date.now()], the requests put on the wire
    so far (oldest first) and the behaviour of the network, which answers a
    request from the history of earlier requests. *)
Record World := {
  clock : Z;
  wire : list string;
  network : list string -> string -> NetReply
}.

(** [setTimeout(resolve, ms)]: the clock advances by [ms], not at all when
    [ms] is negative. *)
Definition delay (ms : Z) (w : World) : World :=
  {| clock := clock w + Z.max 0 ms; wire := wire w; network := network w |}.

(** A request is sent, the reply arrives [latency] later. *)
Definition send (url : string) (w : World) : World * (AxiosResponse + Thrown) :=
  let r := network w (wire w) url in
  ({| clock := clock w + Z.max 0 (latency r);
      wire := wire w ++ [url];
      network := network w |},
   outcome r).

(** ** CircuitBreaker *)

Module CircuitBreaker.

Inductive CircuitBreakerState := closed | open | half_open.

Record CircuitBreakerConfig := {
  failureThreshold : Z;
  resetTimeout : Z;
  monitoringPeriod : Z
}.

Record WindowEntry := {
  success : bool;
  timestamp : Z
}.

Record t := {
  config : CircuitBreakerConfig;
  state : CircuitBreakerState;
  failureCount : Z;
  successCount : Z;
  totalRequests : Z;
  lastFailureTime : option Z;
  nextRetryTime : option Z;
  monitoringWindow : list WindowEntry
}.

(** [new CircuitBreaker(config)] *)
Definition new (cfg : CircuitBreakerConfig) : t :=
  {| config := cfg; state := closed; failureCount := 0; successCount := 0;
     totalRequests := 0; lastFailureTime := None; nextRetryTime := None;
     monitoringWindow := [] |}.

Record CircuitBreakerStats := {
  stats_state : CircuitBreakerState;
  stats_failureCount : Z;
  stats_successCount : Z;
  stats_totalRequests : Z;
  stats_lastFailureTime : option Z;
  stats_nextRetryTime : option Z
}.

Definition getStats (cb : t) : CircuitBreakerStats :=
  {| stats_state := state cb;
     stats_failureCount := failureCount cb;
     stats_successCount := successCount cb;
     stats_totalRequests := totalRequests cb;
     stats_lastFailureTime := lastFailureTime cb;
     stats_nextRetryTime := nextRetryTime cb |}.

Definition reset (cb : t) : t := new (config cb).

Definition forceOpen (now : Z) (cb : t) : t :=
  {| config := config cb; state := open; failureCount := failureCount cb;
     successCount := successCount cb; totalRequests := totalRequests cb;
     lastFailureTime := Some now;
     nextRetryTime := Some (now + resetTimeout (config cb));
     monitoringWindow := monitoringWindow cb |}.

Definition forceClosed (cb : t) : t :=
  {| config := config cb; state := closed; failureCount := 0;
     successCount := successCount cb; totalRequests := totalRequests cb;
     lastFailureTime := lastFailureTime cb;
     nextRetryTime := None;
     monitoringWindow := monitoringWindow cb |}.

Definition set_window (win : list WindowEntry) (cb : t) : t :=
  {| config := config cb; state := state cb; failureCount := failureCount cb;
     successCount := successCount cb; totalRequests := totalRequests cb;
     lastFailureTime := lastFailureTime cb;
     nextRetryTime := nextRetryTime cb;
     monitoringWindow := win |}.

Definition set_state (s : CircuitBreakerState) (cb : t) : t :=
  {| config := config cb; state := s; failureCount := failureCount cb;
     successCount := successCount cb; totalRequests := totalRequests cb;
     lastFailureTime := lastFailureTime cb;
     nextRetryTime := nextRetryTime cb;
     monitoringWindow := monitoringWindow cb |}.

(** [entry.timestamp > cutoff] with [cutoff = now - monitoringPeriod] *)
Definition cleanupOldEntries (now : Z) (cb : t) : t :=
  let cutoff := now - monitoringPeriod (config cb) in
  set_window
    (List.filter (fun entry => timestamp entry >? cutoff) (monitoringWindow cb))
    cb.

Definition addToMonitoringWindow (now : Z) (ok : bool) (cb : t) : t :=
  cleanupOldEntries now
    (set_window (monitoringWindow cb ++ [{| success := ok; timestamp := now |}])
       cb).

(** [getFailureRate] prunes the window, then divides. *)
Definition getFailureRate (now : Z) (cb : t) : t * Q :=
  let cb' := cleanupOldEntries now cb in
  let win := monitoringWindow cb' in
  match win with
  | [] => (cb', 0%Q)
  | _ :: _ =>
      let failures :=
        List.length (List.filter (fun entry => negb (success entry)) win) in
      (cb', Qmake (Z.of_nat failures) (Pos.of_nat (List.length win)))
  end.

Definition shouldOpenCircuit (now : Z) (cb : t) : t * bool :=
  if failureCount cb >=? failureThreshold (config cb) then (cb, true)
  else
    let '(cb', failureRate) := getFailureRate now cb in
    (cb',
     Qle_bool (1 # 2) failureRate
     && (Z.of_nat (List.length (monitoringWindow cb')) >=? 10)).

Definition shouldAttemptReset (now : Z) (cb : t) : bool :=
  match nextRetryTime cb with
  | Some retryAt => now >=? retryAt
  | None => false
  end.

Definition onSuccess (now : Z) (cb : t) : t :=
  let cb1 :=
    {| config := config cb; state := state cb; failureCount := failureCount cb;
       successCount := successCount cb + 1;
       totalRequests := totalRequests cb;
       lastFailureTime := lastFailureTime cb;
       nextRetryTime := nextRetryTime cb;
       monitoringWindow := monitoringWindow cb |} in
  let cb2 := addToMonitoringWindow now true cb1 in
  match state cb2 with
  | half_open =>
      {| config := config cb2; state := closed; failureCount := 0;
         successCount := successCount cb2;
         totalRequests := totalRequests cb2;
         lastFailureTime := lastFailureTime cb2;
         nextRetryTime := None;
         monitoringWindow := monitoringWindow cb2 |}
  | _ => cb2
  end.

Definition onFailure (now : Z) (cb : t) : t :=
  let cb1 :=
    {| config := config cb; state := state cb;
       failureCount := failureCount cb + 1;
       successCount := successCount cb;
       totalRequests := totalRequests cb;
       lastFailureTime := Some now;
       nextRetryTime := nextRetryTime cb;
       monitoringWindow := monitoringWindow cb |} in
  let cb2 := addToMonitoringWindow now false cb1 in
  let '(cb3, trip) := shouldOpenCircuit now cb2 in
  if trip then
    {| config := config cb3; state := open; failureCount := failureCount cb3;
       successCount := successCount cb3;
       totalRequests := totalRequests cb3;
       lastFailureTime := lastFailureTime cb3;
       nextRetryTime := Some (now + resetTimeout (config cb3));
       monitoringWindow := monitoringWindow cb3 |}
  else cb3.

(** The gate at the head of [execute]: [None] is the rejection, [Some cb']
    the breaker with which the call goes on. *)
Definition enter (now : Z) (cb : t) : option t :=
  match state cb with
  | open =>
      if shouldAttemptReset now cb then Some (set_state half_open cb) else None
  | _ => Some cb
  end.

Definition incrTotalRequests (cb : t) : t :=
  {| config := config cb; state := state cb; failureCount := failureCount cb;
     successCount := successCount cb;
     totalRequests := totalRequests cb + 1;
     lastFailureTime := lastFailureTime cb;
     nextRetryTime := nextRetryTime cb;
     monitoringWindow := monitoringWindow cb |}.

Definition openMessage : string := "Circuit breaker is open - request rejected".

(** [execute(fn)]. The inner function acts on a state [S] that holds the
    world (and whatever else [fn] mutates); the breaker reads the clock when
    the call starts and again when [fn] has settled. *)
Definition execute {S T : Type} (now : S -> Z) (fn : S -> S * Completion T)
    (cb : t) (s : S) : t * S * Completion T :=
  match enter (now s) cb with
  | None => (cb, s, Throw (JsError openMessage))
  | Some cb1 =>
      let cb2 := incrTotalRequests cb1 in
      let '(s', result) := fn s in
      match result with
      | Return v => (onSuccess (now s') cb2, s', Return v)
      | Throw error => (onFailure (now s') cb2, s', Throw error)
      end
  end.

(** The inner function of this call is reached, and it throws. *)
Definition fnThrows {S T : Type} (now : S -> Z) (fn : S -> S * Completion T)
    (cb : t) (s : S) : Prop :=
  is_Some (enter (now s) cb) /\ exists e, (fn s).2 = Throw e.

(** The breakers a program can come to hold: a new one, and what the public
    methods make of one. A call of [execute] may run as a whole, or, other
    calls running while it awaits its function, as its head, the gate and
    the count of the request, and later its tail, [onSuccess] or
    [onFailure]. *)
Inductive reachable (cfg : CircuitBreakerConfig) : t -> Prop :=
| reach_new : reachable cfg (new cfg)
| reach_execute (S T : Type) (now : S -> Z) (fn : S -> S * Completion T) cb s :
    reachable cfg cb -> reachable cfg (execute now fn cb s).1.1
| reach_reset cb : reachable cfg cb -> reachable cfg (reset cb)
| reach_forceOpen now cb : reachable cfg cb -> reachable cfg (forceOpen now cb)
| reach_forceClosed cb : reachable cfg cb -> reachable cfg (forceClosed cb)
| reach_getFailureRate now cb :
    reachable cfg cb -> reachable cfg (getFailureRate now cb).1
| reach_letIn now cb cb1 :
    reachable cfg cb -> enter now cb = Some cb1 ->
    reachable cfg (incrTotalRequests cb1)
| reach_onSuccess now cb : reachable cfg cb -> reachable cfg (onSuccess now cb)
| reach_onFailure now cb : reachable cfg cb -> reachable cfg (onFailure now cb).

(** The failures among the entries of a window. *)
Definition failuresIn (win : list WindowEntry) : nat :=
  List.length (List.filter (fun entry => negb (success entry)) win).

(** Every entry of the window is newer than [now - monitoringPeriod]. *)
Definition windowWithin (now : Z) (cb : t) : Prop :=
  Forall (fun entry => now - monitoringPeriod (config cb) < timestamp entry)
    (monitoringWindow cb).

(** Calls that overlap. [execute] runs without interruption up to its
    [await]: the gate, and the count of the request when the call is let
    in. What follows the [await], [onSuccess] or [onFailure], runs when the
    function of the call has settled, and anything may have run on the
    breaker in between: the head of another call, the tail of one that was
    in flight, or one of the other public methods. *)
Inductive Step :=
| LetIn (now : Z)
| Settled (now : Z) (ok : bool)
| DoReset
| DoForceOpen (now : Z)
| DoForceClosed
| DoGetFailureRate (now : Z).

(** The breaker with the number of calls in flight, which were let in and
    have not settled, and the number that were in flight when the breaker
    was last reset. *)
Record Running := {
  breaker : t;
  inFlight : nat;
  carried : nat
}.

Definition started (cfg : CircuitBreakerConfig) : Running :=
  {| breaker := new cfg; inFlight := 0; carried := 0 |}.

(** A call can settle only while it is in flight. *)
Definition step (s : Step) (r : Running) : Running :=
  match s with
  | LetIn now =>
      match enter now (breaker r) with
      | Some cb1 =>
          {| breaker := incrTotalRequests cb1; inFlight := S (inFlight r);
             carried := carried r |}
      | None => r
      end
  | Settled now ok =>
      match inFlight r with
      | O => r
      | S others =>
          {| breaker := if ok then onSuccess now (breaker r)
                        else onFailure now (breaker r);
             inFlight := others; carried := carried r |}
      end
  | DoReset =>
      {| breaker := reset (breaker r); inFlight := inFlight r;
         carried := inFlight r |}
  | DoForceOpen now =>
      {| breaker := forceOpen now (breaker r); inFlight := inFlight r;
         carried := carried r |}
  | DoForceClosed =>
      {| breaker := forceClosed (breaker r); inFlight := inFlight r;
         carried := carried r |}
  | DoGetFailureRate now =>
      {| breaker := (getFailureRate now (breaker r)).1; inFlight := inFlight r;
         carried := carried r |}
  end.

Definition steps (trace : list Step) (r : Running) : Running :=
  fold_left (fun r s => step s r) trace r.

End CircuitBreaker.

(** ** CircuitBreakerFactory *)

Module CircuitBreakerFactory.
Import CircuitBreaker.

(** Breakers are objects: the store gives each a location, and the factory
    maps a name to the location of its breaker. *)
Record Store := {
  cells : gmap nat CircuitBreaker.t;
  next : nat
}.

Record t := {
  instances : gmap string nat
}.

Definition defaultConfig : CircuitBreakerConfig :=
  {| failureThreshold := 5; resetTimeout := 60000; monitoringPeriod := 300000 |}.

Definition alloc (cb : CircuitBreaker.t) (st : Store) : Store * nat :=
  ({| cells := <[next st := cb]> (cells st); next := S (next st) |}, next st).

(** [getInstance(name, config = defaults)]; [None] is the omitted argument.
    The result is the location of the breaker, [instances.get(name)!]. *)
Definition getInstance (name : string) (cfg : option CircuitBreakerConfig)
    (f : t) (st : Store) : t * Store * nat :=
  let cfg := default defaultConfig cfg in
  match instances f !! name with
  | Some l => (f, st, l)
  | None =>
      let '(st', l) := alloc (CircuitBreaker.new cfg) st in
      ({| instances := <[name := l]> (instances f) |}, st', l)
  end.

Definition removeInstance (name : string) (f : t) : t * bool :=
  ({| instances := delete name (instances f) |},
   bool_decide (is_Some (instances f !! name))).

(** [getAllStats()]: the properties of the object it returns. The object is
    filled by [result[name] = ...], which for the name [__proto__] sets the
    prototype and makes no property. *)
Definition getAllStats (f : t) (st : Store) : gmap string CircuitBreakerStats :=
  omap (fun l => getStats <$> cells st !! l) (delete "__proto__" (instances f)).

(** [getAllInstances()]: the breakers by name, as references. *)
Definition getAllInstances (f : t) : gmap string nat :=
  delete "__proto__" (instances f).

(** The factory and the store fit together: every breaker the factory
    names has been allocated, and no two names share a breaker. *)
Definition wellFormed (f : t) (st : Store) : Prop :=
  (forall name l, instances f !! name = Some l ->
                  (l < next st)%nat /\ is_Some (cells st !! l))
  /\ (forall n1 n2 l, instances f !! n1 = Some l ->
                      instances f !! n2 = Some l -> n1 = n2).

End CircuitBreakerFactory.

(** ** BaseApiClient *)

Module BaseApiClient.

Record RetryConfig := {
  retries : Z;
  retryDelay : Z;
  retryCondition : option (Thrown -> bool)
}.

Record ApiClientConfig := {
  baseURL : string;
  timeout : option Z;
  cfg_retries : option Z;
  cfg_retryDelay : option Z;
  cfg_headers : list (string * string)
}.

(** The normalized response [{data, status, statusText, headers}]. Of the
    library's response only these four fields are ever read, so the model
    keeps one record for both shapes. *)
Definition ApiResponse := AxiosResponse.

(** [x || d] on an optional number: [undefined] and [0] are falsy. *)
Definition orZ (x : option Z) (d : Z) : Z :=
  match x with
  | Some v => if v =? 0 then d else v
  | None => d
  end.

(** [a || b] on an optional string: [undefined] and the empty string are
    falsy. *)
Definition orStr (a : option string) (b : string) : string :=
  match a with
  | Some s => if String.eqb s "" then b else s
  | None => b
  end.

Definition status5xx (r : ErrResponse) : bool :=
  (resp_status r >=? 500) && (resp_status r <? 600).

(** The retry condition installed by the constructor:
    [!error.response || 5xx || error.code === 'ECONNABORTED']. *)
Definition defaultRetryCondition (error : Thrown) : bool :=
  match prop_response error with
  | None => true
  | Some r => status5xx r
  end
  || bool_decide (prop_code error = Some "ECONNABORTED").

Definition newRetryConfig (config : ApiClientConfig) : RetryConfig :=
  {| retries := orZ (cfg_retries config) 3;
     retryDelay := orZ (cfg_retryDelay config) 1000;
     retryCondition := Some defaultRetryCondition |}.

Definition transformResponse (response : AxiosResponse) : ApiResponse :=
  {| data := data response; status := status response;
     statusText := statusText response; headers := headers response |}.

Definition transformError (error : Thrown) : Thrown :=
  match prop_response error with
  | Some r =>
      ApiError
        (orStr (resp_data r ≫= body_message)
           (orStr (Some (resp_statusText r)) "Request failed"))
        (Some (resp_status r))
        (resp_data r ≫= body_code)
        (DetailsData (resp_data r))
  | None =>
      if prop_request error then
        ApiError "Network error - no response received" None
          (Some "NETWORK_ERROR") DetailsRequest
      else
        ApiError (orStr (Some (prop_message error)) "Unknown error occurred")
          None (Some "UNKNOWN_ERROR") (DetailsThrown error)
  end.

(** [this.transformResponse] is an ordinary method, looked up on the
    instance at each call: a subclass that declares a method of that name
    replaces it in the interceptor and in [executeWithRetry] alike. The two
    call sites hand it different things, the library's response and the
    value the request resolved to. *)
Record Dispatch (R : Type) := {
  onResponse : AxiosResponse -> Completion R;
  onResult : R -> Completion R
}.
Arguments onResponse {R} _ _.
Arguments onResult {R} _ _.

(** The methods of a plain [BaseApiClient]. *)
Definition base : Dispatch ApiResponse :=
  {| onResponse := fun response => Return (transformResponse response);
     onResult := fun response => Return (transformResponse response) |}.

(** [throw this.transformError(lastError)] after the loop; reading
    [.response] of an unset [lastError] is the runtime's TypeError. *)
Definition throwLast {A : Type} (lastError : option Thrown) : Completion A :=
  match lastError with
  | Some error => Throw (transformError error)
  | None => Throw (TypeError "Cannot read properties of undefined")
  end.

Definition mayRetry (rc : RetryConfig) (error : Thrown) : bool :=
  match retryCondition rc with
  | Some cond => cond error
  | None => false
  end.

Section Client.
Context {R : Type} (self : Dispatch R).

(** A call of the underlying HTTP client, [this.client.get(url)] and its
    siblings: the request goes on the wire and the reply runs through the
    response interceptor installed by [setupInterceptors], which hands a
    response to [this.transformResponse] and rejects an error with
    [this.transformError(error)]. *)
Definition clientRequest (url : string) (w : World) : World * Completion R :=
  let '(w', reply) := send url w in
  match reply with
  | inl response => (w', onResponse self response)
  | inr error => (w', Throw (transformError error))
  end.

(** The loop [for (attempt = 0; attempt <= retries; attempt++)]; [budget]
    is the number of iterations left. The [try] block covers the operation
    and the [transformResponse] of its result. *)
Fixpoint retryLoop (budget : nat) (attempt : Z) (rc : RetryConfig)
    (operation : World -> World * Completion R)
    (lastError : option Thrown) (w : World) : World * Completion R :=
  match budget with
  | O => (w, throwLast lastError)
  | S budget' =>
      let '(w1, settled) := operation w in
      let tried :=
        match settled with
        | Return response => onResult self response
        | Throw error => Throw error
        end in
      match tried with
      | Return result => (w1, Return result)
      | Throw error =>
          if (attempt =? retries rc) || negb (mayRetry rc error) then
            (w1, throwLast (Some error))
          else
            retryLoop budget' (attempt + 1) rc operation (Some error)
              (delay (retryDelay rc * (attempt + 1)) w1)
      end
  end.

Definition executeWithRetry (rc : RetryConfig)
    (operation : World -> World * Completion R) (w : World)
    : World * Completion R :=
  retryLoop (Z.to_nat (retries rc + 1)) 0 rc operation None w.

(** [get], [post], [put], [patch] and [delete] differ in the verb only. *)
Definition get (rc : RetryConfig) (url : string) (w : World)
    : World * Completion R :=
  executeWithRetry rc (clientRequest url) w.

Definition post := get.
Definition put := get.
Definition patch := get.
Definition delete := get.

End Client.

(** The argument of [setRetryConfig]: a key that is missing is [None]. *)
Record PartialRetryConfig := {
  p_retries : option Z;
  p_retryDelay : option Z;
  p_retryCondition : option (option (Thrown -> bool))
}.

(** [{ ...this.retryConfig, ...config }] *)
Definition setRetryConfig (config : PartialRetryConfig) (rc : RetryConfig)
    : RetryConfig :=
  {| retries := default (retries rc) (p_retries config);
     retryDelay := default (retryDelay rc) (p_retryDelay config);
     retryCondition := default (retryCondition rc) (p_retryCondition config) |}.

(** The network never delivers a response. *)
Definition alwaysFails (w : World) : Prop :=
  forall history url, exists error, outcome (network w history url) = inr error.

End BaseApiClient.

(** ** MetalPriceApiClient *)

(** [String.prototype.toLowerCase] is the runtime's. The client is modelled
    over whatever function it is, and what is proved of the client for every
    metal is proved for every such function. *)
Class ToLowerCase := toLowerCase : string -> string.

(** On a string of ASCII characters [toLowerCase] turns the letters A to Z
    into a to z and leaves the rest. This is the function the scenarios run
    with; their metal names are ASCII. *)
Definition lowerAscii (c : ascii) : ascii :=
  let n := nat_of_ascii c in
  if ((65 <=? n) && (n <=? 90))%nat then ascii_of_nat (n + 32) else c.

Fixpoint asciiToLowerCase (s : string) : string :=
  match s with
  | EmptyString => EmptyString
  | String c rest => String (lowerAscii c) (asciiToLowerCase rest)
  end.

#[global] Instance ascii_toLowerCase : ToLowerCase := asciiToLowerCase.

Module MetalPriceApiClient.

Section Runtime.
Context `{ToLowerCase}.

(** A price is a number when the arithmetic that made it had numbers to
    work on; [None] is the NaN that a missing property yields. *)
Record MetalPrice := {
  metal : string;
  pricePerOunce : option Q;
  pricePerGram : option Q;
  currency : option string;
  lastUpdated : option string
}.

(** What [transformResponse] reads from its argument, whatever object that
    is: a property it does not have reads as [None]. *)
Record MetalFields := {
  f_metal : option string;
  f_price_usd : option Q;
  f_currency : option string;
  f_timestamp : option string;
  f_unit_oz : option bool
}.

Definition noFields : MetalFields :=
  {| f_metal := None; f_price_usd := None; f_currency := None;
     f_timestamp := None; f_unit_oz := None |}.

(** A payload of the metal API has all five properties; the other payloads
    share none of them. *)
Definition fieldsOfPayload (p : Payload) : MetalFields :=
  match p with
  | MetalPayload m =>
      {| f_metal := Some (mp_metal m); f_price_usd := Some (price_usd m);
         f_currency := Some (mp_currency m);
         f_timestamp := Some (mp_timestamp m);
         f_unit_oz := Some (unit_oz m) |}
  | _ => noFields
  end.

(** A response object has [data], [status], [statusText], [headers]: none of
    the five. *)
Definition fieldsOfResponse (_ : AxiosResponse) : MetalFields := noFields.

(** A [MetalPrice] has [metal] and [currency] of the five. *)
Definition fieldsOfPrice (m : MetalPrice) : MetalFields :=
  {| f_metal := Some (metal m); f_price_usd := None;
     f_currency := currency m; f_timestamp := None; f_unit_oz := None |}.

Definition gramsPerOunce : Q := 311035 # 10000.

(** [transformResponse(data)] of the metal client. The argument [None] is
    [undefined]. The prices are computed first; [data.metal.toLowerCase()]
    then throws when [data] has no [metal]. *)
Definition transformResponse (data : option MetalFields) : Completion MetalPrice :=
  match data with
  | None => Throw (TypeError "Cannot read properties of undefined (reading 'unit')")
  | Some data =>
      let pricePerOunce :=
        if bool_decide (f_unit_oz data = Some true) then f_price_usd data
        else (fun p => Qmult p gramsPerOunce) <$> f_price_usd data in
      let pricePerGram :=
        if bool_decide (f_unit_oz data = Some false) then f_price_usd data
        else (fun p => Qdiv p gramsPerOunce) <$> f_price_usd data in
      match f_metal data with
      | None =>
          Throw (TypeError
                   "Cannot read properties of undefined (reading 'toLowerCase')")
      | Some m =>
          Return {| metal := toLowerCase m;
                    pricePerOunce := pricePerOunce;
                    pricePerGram := pricePerGram;
                    currency := f_currency data;
                    lastUpdated := f_timestamp data |}
      end
  end.

(** The class declares [transformResponse] anew, so this is the method the
    inherited interceptor and the inherited [executeWithRetry] call. *)
Definition self : BaseApiClient.Dispatch MetalPrice :=
  {| BaseApiClient.onResponse :=
       fun response => transformResponse (Some (fieldsOfResponse response));
     BaseApiClient.onResult :=
       fun result => transformResponse (Some (fieldsOfPrice result)) |}.

Record CacheEntry := {
  entry_data : MetalPrice;
  entry_timestamp : Z
}.

Record t := {
  retryConfig : BaseApiClient.RetryConfig;
  circuitBreaker : CircuitBreaker.t;
  lastRequestTime : Z;
  rateLimit : Z;
  cache : gmap string CacheEntry
}.

Definition cacheTimeout : Z := 60 * 60 * 1000.

Record MetalPriceProviderConfig := {
  apiKey : option string;
  baseUrl : string;
  cfg_rateLimit : option Z
}.

Definition defaultProviderConfig : MetalPriceProviderConfig :=
  {| apiKey := None; baseUrl := "https://api.metals.live/v1/spot";
     cfg_rateLimit := Some 1000 |}.

Definition breakerName : string := "metal-prices".

Definition breakerConfig : CircuitBreaker.CircuitBreakerConfig :=
  {| CircuitBreaker.failureThreshold := 3;
     CircuitBreaker.resetTimeout := 120000;
     CircuitBreaker.monitoringPeriod := 600000 |}.

(** The constructor; [breaker] is what
    [circuitBreakerFactory.getInstance('metal-prices', ...)] returned. *)
Definition new (breaker : CircuitBreaker.t) (config : MetalPriceProviderConfig) : t :=
  {| retryConfig :=
       BaseApiClient.newRetryConfig
         {| BaseApiClient.baseURL := baseUrl config;
            BaseApiClient.timeout := Some 15000;
            BaseApiClient.cfg_retries := None;
            BaseApiClient.cfg_retryDelay := None;
            BaseApiClient.cfg_headers :=
              match apiKey config with
              | Some k => if String.eqb k "" then [] else [("X-API-Key", k)]
              | None => []
              end |};
     circuitBreaker := breaker;
     lastRequestTime := 0;
     rateLimit := BaseApiClient.orZ (cfg_rateLimit config) 1000;
     cache := ∅ |}.

Definition set_cache (m : gmap string CacheEntry) (c : t) : t :=
  {| retryConfig := retryConfig c; circuitBreaker := circuitBreaker c;
     lastRequestTime := lastRequestTime c; rateLimit := rateLimit c;
     cache := m |}.

Definition set_circuitBreaker (cb : CircuitBreaker.t) (c : t) : t :=
  {| retryConfig := retryConfig c; circuitBreaker := cb;
     lastRequestTime := lastRequestTime c; rateLimit := rateLimit c;
     cache := cache c |}.

Definition set_lastRequestTime (time : Z) (c : t) : t :=
  {| retryConfig := retryConfig c; circuitBreaker := circuitBreaker c;
     lastRequestTime := time; rateLimit := rateLimit c;
     cache := cache c |}.

Definition getCachedPrice (metal : string) (includeExpired : bool) (now : Z)
    (c : t) : option MetalPrice :=
  match cache c !! metal with
  | None => None
  | Some cached =>
      let isExpired := now - entry_timestamp cached >? cacheTimeout in
      if isExpired && negb includeExpired then None
      else Some (entry_data cached)
  end.

Definition cachePrice (metal : string) (price : MetalPrice) (now : Z) (c : t) : t :=
  set_cache
    (<[metal := {| entry_data := price; entry_timestamp := now |}]> (cache c)) c.

Definition enforceRateLimit (c : t) (w : World) : t * World :=
  let now := clock w in
  let timeSinceLastRequest := now - lastRequestTime c in
  let w' :=
    if timeSinceLastRequest <? rateLimit c
    then delay (rateLimit c - timeSinceLastRequest) w
    else w in
  (set_lastRequestTime (clock w') c, w').

(** [response.data] of what [this.get] resolved to: a [MetalPrice] has no
    [data] property. *)
Definition dataOf (_ : MetalPrice) : option MetalFields := None.

Definition getAndTransform (url : string) (c : t) (w : World)
    : World * Completion MetalPrice :=
  let '(w1, got) := BaseApiClient.get self (retryConfig c) url w in
  match got with
  | Return response => (w1, transformResponse (dataOf response))
  | Throw error => (w1, Throw error)
  end.

Definition fetchMetalPrice (metal : string) (c : t) (w : World)
    : World * Completion (option MetalPrice) :=
  let '(w1, first) := getAndTransform ("/" +:+ metal) c w in
  match first with
  | Return price => (w1, Return (Some price))
  | Throw error =>
      if bool_decide (prop_status error = Some 404) then
        let '(w2, second) := getAndTransform ("/spot/" +:+ metal) c w1 in
        match second with
        | Return price => (w2, Return (Some price))
        | Throw _ => (w2, Return None)
        end
      else (w1, Throw error)
  end.

(** The function handed to the breaker by [getCurrentPrice]. *)
Definition fetchAndCache (normalizedMetal : string) (s : t * World)
    : (t * World) * Completion (option MetalPrice) :=
  let '(c, w) := s in
  let '(w', fetched) := fetchMetalPrice normalizedMetal c w in
  match fetched with
  | Return (Some price) =>
      ((cachePrice normalizedMetal price (clock w') c, w'), Return (Some price))
  | Return None => ((c, w'), Return None)
  | Throw error => ((c, w'), Throw error)
  end.

(** The breaker-protected fetch of [getCurrentPrice]. *)
Definition protectedFetch (normalizedMetal : string) (c : t) (w : World)
    : t * World * Completion (option MetalPrice) :=
  let '(cb, (c', w'), result) :=
    CircuitBreaker.execute (fun s => clock (snd s))
      (fetchAndCache normalizedMetal) (circuitBreaker c) (c, w) in
  (set_circuitBreaker cb c', w', result).

Definition getCurrentPrice (metal : string) (c : t) (w : World)
    : t * World * Completion (option MetalPrice) :=
  let normalizedMetal := toLowerCase metal in
  match getCachedPrice normalizedMetal false (clock w) c with
  | Some cached => (c, w, Return (Some cached))
  | None =>
      let '(c1, w1) := enforceRateLimit c w in
      let '(c2, w2, result) := protectedFetch normalizedMetal c1 w1 in
      match result with
      | Return price => (c2, w2, Return price)
      | Throw _ =>
          (c2, w2, Return (getCachedPrice normalizedMetal true (clock w2) c2))
      end
  end.

(** The function handed to the breaker by [getHistoricalPrice]. *)
Definition fetchHistorical (normalizedMetal dateString : string) (s : t * World)
    : (t * World) * Completion MetalPrice :=
  let '(c, w) := s in
  let '(w', fetched) :=
    getAndTransform
      ("/historical/" +:+ normalizedMetal +:+ "?date=" +:+ dateString) c w in
  ((c, w'), fetched).

(** A [Date] as [getHistoricalPrice] uses it: a valid date, known by the
    string its [toISOString()] returns, or an invalid one. *)
Inductive Date :=
| DateWithISO (iso : string)
| InvalidDate.

(** [date.toISOString()] throws on an invalid date. *)
Definition toISOString (date : Date) : Completion string :=
  match date with
  | DateWithISO iso => Return iso
  | InvalidDate => Throw (RangeError "Invalid time value")
  end.

(** [s.split(separator)[0]]: the part of [s] before the first occurrence of
    the character [separator], the whole of [s] when there is none. *)
Fixpoint splitFirst (separator : ascii) (s : string) : string :=
  match s with
  | EmptyString => EmptyString
  | String ch rest =>
      if Ascii.eqb ch separator then EmptyString
      else String ch (splitFirst separator rest)
  end.

(** [getHistoricalPrice(metal, date)]. The date string is computed before
    the [try] is entered. *)
Definition getHistoricalPrice (metal : string) (date : Date) (c : t) (w : World)
    : t * World * Completion (option MetalPrice) :=
  let normalizedMetal := toLowerCase metal in
  match toISOString date with
  | Throw error => (c, w, Throw error)
  | Return iso =>
      let dateString := splitFirst "T" iso in
      let '(cb, (c', w'), result) :=
        CircuitBreaker.execute (fun s => clock (snd s))
          (fetchHistorical normalizedMetal dateString) (circuitBreaker c) (c, w) in
      match result with
      | Return price => (set_circuitBreaker cb c', w', Return (Some price))
      | Throw _ => (set_circuitBreaker cb c', w', Return None)
      end
  end.

(** [clearCache()] *)
Definition clearCache (c : t) : t := set_cache ∅ c.

End Runtime.

End MetalPriceApiClient.

(** ** ExchangeRateApiClient *)

Module ExchangeRateApiClient.

(** [new Date(response.data.date)] or [new Date()]. *)
Inductive DateValue :=
| DateOfString (s : string)
| DateOfClock (ms : Z).

Record ExchangeRate := {
  fromCurrency : string;
  toCurrency : string;
  rate : Q;
  lastUpdated : DateValue;
  provider : string
}.

Record CacheEntry := {
  entry_data : ExchangeRate;
  entry_timestamp : Z
}.

Record t := {
  retryConfig : BaseApiClient.RetryConfig;
  circuitBreaker : CircuitBreaker.t;
  cache : gmap string CacheEntry;
  baseCurrency : string
}.

Definition cacheTimeout : Z := 60 * 60 * 1000.

Definition breakerName : string := "exchange-rates".

Definition breakerConfig : CircuitBreaker.CircuitBreakerConfig :=
  {| CircuitBreaker.failureThreshold := 3;
     CircuitBreaker.resetTimeout := 300000;
     CircuitBreaker.monitoringPeriod := 900000 |}.

Definition set_cache (m : gmap string CacheEntry) (c : t) : t :=
  {| retryConfig := retryConfig c; circuitBreaker := circuitBreaker c;
     cache := m; baseCurrency := baseCurrency c |}.

Definition set_circuitBreaker (cb : CircuitBreaker.t) (c : t) : t :=
  {| retryConfig := retryConfig c; circuitBreaker := cb;
     cache := cache c; baseCurrency := baseCurrency c |}.

Definition getCachedRate (cacheKey : string) (includeExpired : bool) (now : Z)
    (c : t) : option ExchangeRate :=
  match cache c !! cacheKey with
  | None => None
  | Some cached =>
      let isExpired := now - entry_timestamp cached >? cacheTimeout in
      if isExpired && negb includeExpired then None
      else Some (entry_data cached)
  end.

Definition cacheRate (cacheKey : string) (r : ExchangeRate) (now : Z) (c : t) : t :=
  set_cache
    (<[cacheKey := {| entry_data := r; entry_timestamp := now |}]> (cache c)) c.

(** [response.data.rates[currency]]: a payload without [rates] makes the
    index a TypeError; the result is [None] for a missing entry. The map
    holds the properties the object of the server has itself; the names
    that every object inherits, [constructor] and the like, are read here
    as missing. *)
Definition rateIn (response : BaseApiClient.ApiResponse) (currency : string)
    : Completion (option Q) :=
  match data response with
  | RatesPayload p => Return (rates p !! currency)
  | _ => Throw (TypeError "Cannot read properties of undefined")
  end.

Definition dateIn (response : BaseApiClient.ApiResponse) : DateValue :=
  match data response with
  | RatesPayload p => DateOfString (er_date p)
  | _ => DateOfString ""
  end.

(** A number is truthy when it is not zero. *)
Definition truthy (q : option Q) : option Q :=
  match q with
  | Some v => if Qeq_bool v 0 then None else Some v
  | None => None
  end.

Definition getBaseRate (currency : string) (c : t) (w : World)
    : World * option Q :=
  if String.eqb currency (baseCurrency c) then (w, Some 1%Q)
  else
    let '(w1, got) :=
      BaseApiClient.get BaseApiClient.base (retryConfig c)
        ("/" +:+ baseCurrency c +:+ "?symbols=" +:+ currency) w in
    match got with
    | Return response =>
        match rateIn response currency with
        | Return r => (w1, truthy r)
        | Throw _ => (w1, None)
        end
    | Throw _ => (w1, None)
    end.

(** [Promise.all] of the two base-rate lookups, run one after the other. *)
Definition fetchRateViaBase (from to : string) (c : t) (w : World)
    : World * Completion (option ExchangeRate) :=
  let '(w1, fromRate) := getBaseRate from c w in
  let '(w2, toRate) := getBaseRate to c w1 in
  match truthy fromRate, truthy toRate with
  | Some fromRate, Some toRate =>
      (w2, Return (Some {| fromCurrency := from; toCurrency := to;
                           rate := Qdiv toRate fromRate;
                           lastUpdated := DateOfClock (clock w2);
                           provider := "calculated-via-base" |}))
  | _, _ => (w2, Return None)
  end.

Definition fetchExchangeRate (from to : string) (c : t) (w : World)
    : World * Completion (option ExchangeRate) :=
  let '(w1, got) :=
    BaseApiClient.get BaseApiClient.base (retryConfig c)
      ("/" +:+ from +:+ "?symbols=" +:+ to) w in
  let tried :=
    match got with
    | Return response =>
        match rateIn response to with
        | Return r =>
            match truthy r with
            | None => Return None
            | Some r =>
                Return (Some {| fromCurrency := from; toCurrency := to;
                                rate := r;
                                lastUpdated := dateIn response;
                                provider := "exchange-rate-api" |})
            end
        | Throw e => Throw e
        end
    | Throw e => Throw e
    end in
  match tried with
  | Return r => (w1, Return r)
  | Throw error =>
      if bool_decide (prop_status error = Some 400)
         || bool_decide (prop_status error = Some 422)
      then fetchRateViaBase from to c w1
      else (w1, Throw error)
  end.

Definition fetchAndCache (from to cacheKey : string) (s : t * World)
    : (t * World) * Completion (option ExchangeRate) :=
  let '(c, w) := s in
  let '(w', fetched) := fetchExchangeRate from to c w in
  match fetched with
  | Return (Some r) => ((cacheRate cacheKey r (clock w') c, w'), Return (Some r))
  | Return None => ((c, w'), Return None)
  | Throw error => ((c, w'), Throw error)
  end.

Definition getExchangeRate (from to : string) (c : t) (w : World)
    : t * World * Completion (option ExchangeRate) :=
  let cacheKey := from +:+ "-" +:+ to in
  match getCachedRate cacheKey false (clock w) c with
  | Some cached => (c, w, Return (Some cached))
  | None =>
      let '(cb, (c1, w1), result) :=
        CircuitBreaker.execute (fun s => clock (snd s))
          (fetchAndCache from to cacheKey) (circuitBreaker c) (c, w) in
      let c2 := set_circuitBreaker cb c1 in
      match result with
      | Return r => (c2, w1, Return r)
      | Throw _ => (c2, w1, Return (getCachedRate cacheKey true (clock w1) c2))
      end
  end.

Record Conversion := {
  convertedAmount : Q;
  conv_rate : ExchangeRate
}.

Definition convertCurrency (amount : Q) (from to : string) (c : t) (w : World)
    : t * World * Completion (option Conversion) :=
  if String.eqb from to then
    let sameRate :=
      {| fromCurrency := from; toCurrency := to; rate := 1;
         lastUpdated := DateOfClock (clock w); provider := "same-currency" |} in
    (c, w, Return (Some {| convertedAmount := amount; conv_rate := sameRate |}))
  else
    let '(c1, w1, got) := getExchangeRate from to c w in
    match got with
    | Return None => (c1, w1, Return None)
    | Return (Some r) =>
        (c1, w1,
         Return (Some {| convertedAmount := Qmult amount (rate r);
                         conv_rate := r |}))
    | Throw e => (c1, w1, Throw e)
    end.

(** A plain object whose values are objects or null ([None]): the
    properties it has itself, and whether its prototype chain ends in
    [Object.prototype], as that of [{}] does. *)
Record PlainObject (A : Type) := {
  own : gmap string (option A);
  inheritsObjectPrototype : bool
}.
Arguments own {A} _.
Arguments inheritsObjectPrototype {A} _.

(** [{}] *)
Definition emptyObject {A : Type} : PlainObject A :=
  {| own := ∅; inheritsObjectPrototype := true |}.

(** [object[name] = value]. The object gets the property [name]; but for
    the name [__proto__], while the object inherits the setter of that
    name from [Object.prototype], the assignment sets the prototype and the
    object gets no property: a value that is an object, itself an object
    literal here, keeps the chain, and null cuts it. *)
Definition assign {A : Type} (name : string) (value : option A)
    (object : PlainObject A) : PlainObject A :=
  if String.eqb name "__proto__" && inheritsObjectPrototype object
  then {| own := own object;
          inheritsObjectPrototype := bool_decide (is_Some value) |}
  else {| own := <[name := value]> (own object);
          inheritsObjectPrototype := inheritsObjectPrototype object |}.

(** The loop of [getMultipleRates] over the currencies asked for. It fills
    [results], the object that the [catch] of [getMultipleRates] goes on
    with, and the cache. *)
Fixpoint collectRates (from : string) (response : BaseApiClient.ApiResponse)
    (toCurrencies : list string)
    (s : t * World * PlainObject ExchangeRate)
    : (t * World * PlainObject ExchangeRate) * Completion unit :=
  match toCurrencies with
  | [] => (s, Return tt)
  | toCurrency :: rest =>
      let '(c, w, results) := s in
      match rateIn response toCurrency with
      | Throw e => (s, Throw e)
      | Return found =>
          match truthy found with
          | Some r =>
              let exchangeRate :=
                {| fromCurrency := from; toCurrency := toCurrency; rate := r;
                   lastUpdated := dateIn response;
                   provider := "exchange-rate-api" |} in
              collectRates from response rest
                (cacheRate (from +:+ "-" +:+ toCurrency) exchangeRate (clock w) c,
                 w, assign toCurrency (Some exchangeRate) results)
          | None =>
              collectRates from response rest
                (c, w, assign toCurrency None results)
          end
      end
  end.

(** The function handed to the breaker by [getMultipleRates]. *)
Definition fetchMultiple (from : string) (toCurrencies : list string)
    (s : t * World * PlainObject ExchangeRate)
    : (t * World * PlainObject ExchangeRate) * Completion unit :=
  let '(c, w, results) := s in
  let '(w', got) :=
    BaseApiClient.get BaseApiClient.base (retryConfig c) ("/" +:+ from) w in
  match got with
  | Return response => collectRates from response toCurrencies (c, w', results)
  | Throw e => ((c, w', results), Throw e)
  end.

(** The [catch] of [getMultipleRates]: every currency asked for gets what
    the cache has for it, however old, or null. *)
Definition ratesFromCache (from : string) (toCurrencies : list string) (now : Z)
    (c : t) (results : PlainObject ExchangeRate)
    : PlainObject ExchangeRate :=
  fold_left
    (fun results toCurrency =>
       assign toCurrency
         (getCachedRate (from +:+ "-" +:+ toCurrency) true now c) results)
    toCurrencies results.

Definition getMultipleRates (from : string) (toCurrencies : list string)
    (c : t) (w : World)
    : t * World * Completion (PlainObject ExchangeRate) :=
  let '(cb, (c1, w1, results), outcome) :=
    CircuitBreaker.execute (fun s => clock (snd (fst s)))
      (fetchMultiple from toCurrencies) (circuitBreaker c)
      (c, w, emptyObject) in
  let c2 := set_circuitBreaker cb c1 in
  match outcome with
  | Return _ => (c2, w1, Return results)
  | Throw _ =>
      (c2, w1, Return (ratesFromCache from toCurrencies (clock w1) c2 results))
  end.

(** [clearCache()] *)
Definition clearCache (c : t) : t := set_cache ∅ c.

Record ExchangeRateConfig := {
  apiKey : option string;
  baseUrl : string;
  cfg_baseCurrency : option string
}.

Definition defaultConfig : ExchangeRateConfig :=
  {| apiKey := None; baseUrl := "https://api.exchangerate-api.com/v4/latest";
     cfg_baseCurrency := Some "USD" |}.

(** The constructor; [breaker] is what
    [circuitBreakerFactory.getInstance('exchange-rates', ...)] returned. *)
Definition new (breaker : CircuitBreaker.t) (config : ExchangeRateConfig) : t :=
  {| retryConfig :=
       BaseApiClient.newRetryConfig
         {| BaseApiClient.baseURL := baseUrl config;
            BaseApiClient.timeout := Some 10000;
            BaseApiClient.cfg_retries := None;
            BaseApiClient.cfg_retryDelay := None;
            BaseApiClient.cfg_headers :=
              match apiKey config with
              | Some k =>
                  if String.eqb k "" then []
                  else [("Authorization", "Bearer " +:+ k)]
              | None => []
              end |};
     circuitBreaker := breaker;
     cache := ∅;
     baseCurrency := BaseApiClient.orStr (cfg_baseCurrency config) "USD" |}.

End ExchangeRateApiClient.

(** ** DIContainer *)

Module DIContainer.

Inductive ServiceLifecycle := singleton | transient | scoped.

(** A token is a string, a symbol or a constructor. A symbol is known by
    its identity and carries a description; a constructor is named by its
    class. *)
Inductive Token :=
| TString (s : string)
| TSymbol (n : nat) (description : string)
| TClass (name : string).

#[global] Instance Token_eq_dec : EqDecision Token.
Proof. solve_decision. Defined.

#[global] Instance Token_countable : Countable Token.
Proof.
  refine (inj_countable'
            (fun t => match t with
                      | TString s => inl s
                      | TSymbol n d => inr (inl (n, d))
                      | TClass c => inr (inr c)
                      end)
            (fun x => match x with
                      | inl s => TString s
                      | inr (inl (n, d)) => TSymbol n d
                      | inr (inr c) => TClass c
                      end) _).
  intros []; reflexivity.
Defined.

(** A resolved value: an object, known by its address, or a primitive. *)
Inductive Instance :=
| Object (addr : nat)
| Primitive (v : Z).

Definition truthy (i : Instance) : bool :=
  match i with
  | Object _ => true
  | Primitive v => negb (v =? 0)
  end.

(** How a call of a factory ends: with a new object, with a value that
    exists already, or by throwing. *)
Inductive Made :=
| Fresh
| Existing (i : Instance)
| Fails (e : Thrown).

(** A factory, by the calls it makes to [container.resolve]: it ends, or it
    resolves a token and goes on with what came back, the instance or what
    [resolve] threw. A factory that does not catch goes on by throwing the
    same, [Finish (Fails e)]. *)
Inductive FactoryBody :=
| Finish (m : Made)
| CallResolve (tok : Token) (next : Completion Instance -> FactoryBody).

(** [descriptor.factory(...dependencies)] *)
Definition Factory := list Instance -> FactoryBody.

(** How [new C(...args)] ends: the constructor makes the new object, or it
    returns an object that exists already, which then is the value of the
    [new] expression, or it throws. *)
Inductive Constructed :=
| Builds
| Hands (addr : nat)
| Throws (e : Thrown).

(** What the runtime knows of a class: its source text, which is what
    [String] makes of the constructor; the metadata written by the
    decorators ([Injectable] stores the lifecycle, [Inject] the tokens by
    parameter index, the compiler the parameter types); and what its
    constructor does on given arguments. *)
Record ClassInfo := {
  sourceText : string;
  injectable : option ServiceLifecycle;
  paramtypes : option (list (option Token));
  injectTokens : option (list (option Token));
  body : list Instance -> Constructed
}.

(** [Object], the constructor that every object literal inherits:
    [new Object(value)] is [value] itself when that is an object, and a new
    object otherwise. It carries no metadata. *)
Definition objectClass : ClassInfo :=
  {| sourceText := "function Object() { [native code] }";
     injectable := None; paramtypes := None; injectTokens := None;
     body := fun args =>
       match args with
       | Object a :: _ => Hands a
       | _ => Builds
       end |}.

(** The class of a name, among the classes of the program and [Object]. *)
Definition classOf (classes : string -> ClassInfo) (name : string) : ClassInfo :=
  if String.eqb name "Object" then objectClass else classes name.

Record ServiceDescriptor := {
  token : Token;
  lifecycle : ServiceLifecycle;
  factory : option Factory;
  constructor : option string;
  instance : option Instance;
  dependencies : option (list Token)
}.

(** The argument of [register]: every key may be missing. For
    [constructor], [None] is the missing key and [Some None] the key set to
    [undefined]. *)
Record PartialDescriptor := {
  p_token : option Token;
  p_lifecycle : option ServiceLifecycle;
  p_factory : option Factory;
  p_constructor : option (option string);
  p_instance : option Instance;
  p_dependencies : option (list Token)
}.

Record ServiceScope := {
  id : string;
  instances : gmap Token Instance
}.

(** The container. Scope objects live in [scopeObjects]; [scopes] and
    [currentScope] hold their addresses. [nextObject] is the next free
    address. *)
Record t := {
  services : gmap Token ServiceDescriptor;
  singletons : gmap Token Instance;
  scopes : gmap string nat;
  currentScope : option nat;
  scopeObjects : gmap nat ServiceScope;
  nextObject : nat
}.

Definition empty : t :=
  {| services := ∅; singletons := ∅; scopes := ∅; currentScope := None;
     scopeObjects := ∅; nextObject := 0 |}.

Definition set_services (m : gmap Token ServiceDescriptor) (c : t) : t :=
  {| services := m; singletons := singletons c; scopes := scopes c;
     currentScope := currentScope c; scopeObjects := scopeObjects c;
     nextObject := nextObject c |}.

Definition set_singletons (m : gmap Token Instance) (c : t) : t :=
  {| services := services c; singletons := m; scopes := scopes c;
     currentScope := currentScope c; scopeObjects := scopeObjects c;
     nextObject := nextObject c |}.

Definition set_currentScope (s : option nat) (c : t) : t :=
  {| services := services c; singletons := singletons c; scopes := scopes c;
     currentScope := s; scopeObjects := scopeObjects c;
     nextObject := nextObject c |}.

Definition set_scopeObjects (m : gmap nat ServiceScope) (c : t) : t :=
  {| services := services c; singletons := singletons c; scopes := scopes c;
     currentScope := currentScope c; scopeObjects := m;
     nextObject := nextObject c |}.

(** [new ...]: the object gets the next free address. *)
Definition allocate (c : t) : t * nat :=
  ({| services := services c; singletons := singletons c; scopes := scopes c;
      currentScope := currentScope c; scopeObjects := scopeObjects c;
      nextObject := S (nextObject c) |},
   nextObject c).

(** [{ token, lifecycle: 'transient', ...descriptor }]. A descriptor without
    a [constructor] key of its own reads the one every object inherits,
    [Object]. *)
Definition register (tok : Token) (descriptor : PartialDescriptor) (c : t) : t :=
  let fullDescriptor :=
    {| token := default tok (p_token descriptor);
       lifecycle := default transient (p_lifecycle descriptor);
       factory := p_factory descriptor;
       constructor := default (Some "Object") (p_constructor descriptor);
       instance := p_instance descriptor;
       dependencies := p_dependencies descriptor |} in
  set_services (<[tok := fullDescriptor]> (services c)) c.

Definition withLifecycle (lc : ServiceLifecycle) (f : option Factory)
    (k : option string) : PartialDescriptor :=
  {| p_token := None; p_lifecycle := Some lc; p_factory := f;
     p_constructor := Some k; p_instance := None; p_dependencies := None |}.

Definition registerSingleton (tok : Token) (f : option Factory)
    (k : option string) : t -> t :=
  register tok (withLifecycle singleton f k).

Definition registerTransient (tok : Token) (f : option Factory)
    (k : option string) : t -> t :=
  register tok (withLifecycle transient f k).

Definition registerScoped (tok : Token) (f : option Factory)
    (k : option string) : t -> t :=
  register tok (withLifecycle scoped f k).

Definition registerInstance (tok : Token) (i : Instance) : t -> t :=
  register tok
    {| p_token := None; p_lifecycle := Some singleton; p_factory := None;
       p_constructor := None; p_instance := Some i; p_dependencies := None |}.

Definition has (tok : Token) (c : t) : bool :=
  bool_decide (is_Some (services c !! tok)).

(** [String(token)] *)
Definition tokenString (classes : string -> ClassInfo) (tok : Token) : string :=
  match tok with
  | TString s => s
  | TSymbol _ description => "Symbol(" +:+ description +:+ ")"
  | TClass name => sourceText (classOf classes name)
  end.

Definition scopeInstances (a : nat) (c : t) : gmap Token Instance :=
  match scopeObjects c !! a with
  | Some s => instances s
  | None => ∅
  end.

(** The two early returns of [createInstance]. *)
Definition cachedInstance (d : ServiceDescriptor) (c : t) : option Instance :=
  match lifecycle d with
  | singleton => singletons c !! token d
  | scoped =>
      match currentScope c with
      | Some a => scopeInstances a c !! token d
      | None => None
      end
  | transient => None
  end.

(** "Store based on lifecycle". *)
Definition store (d : ServiceDescriptor) (i : Instance) (c : t) : t :=
  match lifecycle d with
  | singleton => set_singletons (<[token d := i]> (singletons c)) c
  | scoped =>
      match currentScope c with
      | Some a =>
          set_scopeObjects
            (alter (fun s => {| id := id s;
                                instances := <[token d := i]> (instances s) |})
               a (scopeObjects c)) c
      | None => c
      end
  | transient => c
  end.

(** [if (descriptor.instance)]: the registered instance counts when it is
    truthy. *)
Definition registeredInstance (d : ServiceDescriptor) : option Instance :=
  match instance d with
  | Some i => if truthy i then Some i else None
  | None => None
  end.

(** A token is falsy when it is the empty string. *)
Definition tokenTruthy (tok : Token) : bool :=
  match tok with
  | TString s => negb (String.eqb s "")
  | _ => true
  end.

Definition truthyToken (tok : option Token) : option Token :=
  match tok with
  | Some tok => if tokenTruthy tok then Some tok else None
  | None => None
  end.

(** The tokens taken from the metadata of a constructor: for each declared
    parameter [injectTokens[i] || paramTypes[i]], when that is truthy. *)
Fixpoint reflectedTokens (paramTypes injected : list (option Token)) : list Token :=
  match paramTypes with
  | [] => []
  | p :: ps =>
      let chosen :=
        match truthyToken (mjoin (head injected)) with
        | Some tok => Some tok
        | None => truthyToken p
        end in
      match chosen with
      | Some tok => tok :: reflectedTokens ps (tail injected)
      | None => reflectedTokens ps (tail injected)
      end
  end.

Section Resolution.

(** The classes of the program. *)
Variable classes : string -> ClassInfo.

(** The recursive calls go through [resolveToken], the resolver one level
    further down; [None] is a recursion that has not returned within the
    depth at hand. *)
Variable resolveToken : Token -> t -> option (t * Completion Instance).

Fixpoint resolveAll (toks : list Token) (c : t)
    : option (t * Completion (list Instance)) :=
  match toks with
  | [] => Some (c, Return [])
  | tok :: rest =>
      match resolveToken tok c with
      | None => None
      | Some (c1, Throw e) => Some (c1, Throw e)
      | Some (c1, Return i) =>
          match resolveAll rest c1 with
          | None => None
          | Some (c2, Throw e) => Some (c2, Throw e)
          | Some (c2, Return more) => Some (c2, Return (i :: more))
          end
      end
  end.

Definition resolveDependencies (d : ServiceDescriptor) (c : t)
    : option (t * Completion (list Instance)) :=
  match dependencies d with
  | Some deps => resolveAll deps c
  | None =>
      match constructor d with
      | Some k =>
          resolveAll
            (reflectedTokens (default [] (paramtypes (classOf classes k)))
               (default [] (injectTokens (classOf classes k)))) c
      | None => Some (c, Return [])
      end
  end.

(** The run of a factory: its calls to [container.resolve] are calls of
    [resolveToken]. *)
Fixpoint runFactory (b : FactoryBody) (c : t) : option (t * Made) :=
  match b with
  | Finish m => Some (c, m)
  | CallResolve tok next =>
      match resolveToken tok c with
      | None => None
      | Some (c1, result) => runFactory (next result) c1
      end
  end.

(** "Create new instance": the registered instance when it is truthy, else
    the factory, else the constructor. *)
Definition construct (d : ServiceDescriptor) (c : t)
    : option (t * Completion Instance) :=
  match registeredInstance d with
  | Some i => Some (c, Return i)
  | None =>
      match factory d, constructor d with
      | Some f, _ =>
          match resolveDependencies d c with
          | None => None
          | Some (c1, Throw e) => Some (c1, Throw e)
          | Some (c1, Return deps) =>
              match runFactory (f deps) c1 with
              | None => None
              | Some (c2, Fresh) =>
                  let '(c3, a) := allocate c2 in Some (c3, Return (Object a))
              | Some (c2, Existing i) => Some (c2, Return i)
              | Some (c2, Fails e) => Some (c2, Throw e)
              end
          end
      | None, Some k =>
          match resolveDependencies d c with
          | None => None
          | Some (c1, Throw e) => Some (c1, Throw e)
          | Some (c1, Return deps) =>
              match body (classOf classes k) deps with
              | Throws e => Some (c1, Throw e)
              | Hands a => Some (c1, Return (Object a))
              | Builds =>
                  let '(c2, a) := allocate c1 in Some (c2, Return (Object a))
              end
          end
      | None, None =>
          Some (c, Throw (JsError
                            ("No factory, constructor, or instance provided for "
                             +:+ tokenString classes (token d))))
      end
  end.

Definition createInstance (d : ServiceDescriptor) (c : t)
    : option (t * Completion Instance) :=
  match cachedInstance d c with
  | Some i => Some (c, Return i)
  | None =>
      match construct d c with
      | None => None
      | Some (c1, Throw e) => Some (c1, Throw e)
      | Some (c1, Return i) => Some (store d i c1, Return i)
      end
  end.

End Resolution.

(** [resolve(token)], to recursion depth [depth]. A token without a
    descriptor is registered on the spot when it is a class that carries the
    injectable metadata. *)
Fixpoint resolve (classes : string -> ClassInfo) (depth : nat) (tok : Token)
    (c : t) : option (t * Completion Instance) :=
  match depth with
  | O => None
  | S depth' =>
      match services c !! tok with
      | Some descriptor =>
          createInstance classes (resolve classes depth') descriptor c
      | None =>
          let notRegistered :=
            Some (c, Throw (JsError ("Service not registered: "
                                     +:+ tokenString classes tok))) in
          match tok with
          | TClass name =>
              match injectable (classOf classes name) with
              | Some lc =>
                  resolve classes depth' tok
                    (register tok
                       {| p_token := None; p_lifecycle := Some lc;
                          p_factory := None; p_constructor := Some (Some name);
                          p_instance := None; p_dependencies := None |} c)
              | None => notRegistered
              end
          | _ => notRegistered
          end
      end
  end.

(** [createScope(id)]: a new scope object, entered under [id]. *)
Definition createScope (scopeId : string) (c : t) : t * nat :=
  let '(c1, a) := allocate c in
  ({| services := services c1; singletons := singletons c1;
      scopes := <[scopeId := a]> (scopes c1);
      currentScope := currentScope c1;
      scopeObjects := <[a := {| id := scopeId; instances := ∅ |}]> (scopeObjects c1);
      nextObject := nextObject c1 |}, a).

(** [withScope(scopeId, fn)] *)
Definition withScope {T : Type} (scopeId : string)
    (fn : t -> t * Completion T) (c : t) : t * Completion T :=
  let '(c1, scope) :=
    match scopes c !! scopeId with
    | Some a => (c, a)
    | None => createScope scopeId c
    end in
  let previousScope := currentScope c1 in
  let '(c2, result) := fn (set_currentScope (Some scope) c1) in
  (set_currentScope previousScope c2, result).

(** [dispose()]: every scope is emptied and forgotten, then the three
    registries are cleared. The teardown hooks of the instances are theirs. *)
Definition dispose (c : t) : t :=
  {| services := ∅; singletons := ∅; scopes := ∅;
     currentScope := currentScope c;
     scopeObjects :=
       map_fold
         (fun _ a objs =>
            alter (fun s => {| id := id s; instances := ∅ |}) a objs)
         (scopeObjects c) (scopes c);
     nextObject := nextObject c |}.

(** What the users of a container do to it in its lifetime, up to its
    disposal: register, resolve, create a scope, and enter or leave one
    (the two assignments to [currentScope] in [withScope]). *)
Inductive Op :=
| OpRegister (tok : Token) (descriptor : PartialDescriptor)
| OpResolve (depth : nat) (tok : Token)
| OpCreateScope (scopeId : string)
| OpSetCurrentScope (scope : option nat).

Definition run (classes : string -> ClassInfo) (op : Op) (c : t) : option t :=
  match op with
  | OpRegister tok descriptor => Some (register tok descriptor c)
  | OpResolve depth tok => fst <$> resolve classes depth tok c
  | OpCreateScope scopeId => Some (createScope scopeId c).1
  | OpSetCurrentScope scope => Some (set_currentScope scope c)
  end.

(** A sequence of completed operations; [None] when a [resolve] among them
    does not return. *)
Fixpoint runAll (classes : string -> ClassInfo) (ops : list Op) (c : t)
    : option t :=
  match ops with
  | [] => Some c
  | op :: rest =>
      match run classes op c with
      | Some c' => runAll classes rest c'
      | None => None
      end
  end.

(** [c'] knows every singleton of [c], and no address of [c] is free
    again in [c']. *)
Definition extends (c c' : t) : Prop :=
  (forall k v, singletons c !! k = Some v -> singletons c' !! k = Some v)
  /\ (nextObject c <= nextObject c')%nat.

(** The descriptor of [tok] is built from a factory or a constructor, has
    nothing cached, and names [next] as its first dependency. *)
Definition feedsInto (c : t) (tok next : Token) : Prop :=
  exists d rest,
    services c !! tok = Some d
    /\ cachedInstance d c = None
    /\ registeredInstance d = None
    /\ (is_Some (factory d) \/ is_Some (constructor d))
    /\ dependencies d = Some (next :: rest).

(** Every token of [P] feeds into a token of [P]: the tokens of a cycle of
    first dependencies, for one. *)
Definition closedUnder (c : t) (P : Token -> Prop) : Prop :=
  forall tok, P tok -> exists next, P next /\ feedsInto c tok next.

(** Every way the factory can go ends as [P] says. *)
Fixpoint endsIn (P : Made -> Prop) (b : FactoryBody) : Prop :=
  match b with
  | Finish m => P m
  | CallResolve _ next => forall result, endsIn P (next result)
  end.

(** The descriptor makes its value at each resolve: it carries no instance;
    its factory, if it has one, hands out no value that exists already; and
    its constructor, if that is what builds the value, returns no object
    that exists already. *)
Definition buildsAnew (classes : string -> ClassInfo) (d : ServiceDescriptor)
    : Prop :=
  registeredInstance d = None
  /\ (forall f deps,
        factory d = Some f ->
        endsIn (fun m => forall i, m <> Existing i) (f deps))
  /\ (forall k deps a,
        factory d = None -> constructor d = Some k ->
        body (classOf classes k) deps <> Hands a).

(** What a [resolve] leaves in place: the descriptors that were registered,
    the current scope, the scope objects and what they hold, and the
    addresses taken. *)
Definition grows (c c' : t) : Prop :=
  (forall tok d, services c !! tok = Some d -> services c' !! tok = Some d)
  /\ currentScope c' = currentScope c
  /\ (nextObject c <= nextObject c')%nat
  /\ (forall a, is_Some (scopeObjects c !! a) -> is_Some (scopeObjects c' !! a))
  /\ (forall a k v, scopeInstances a c !! k = Some v ->
                    scopeInstances a c' !! k = Some v).

(** The tokens [resolveDependencies] asks for on behalf of a descriptor. *)
Definition dependencyTokens (classes : string -> ClassInfo)
    (d : ServiceDescriptor) : list Token :=
  match dependencies d with
  | Some deps => deps
  | None =>
      match constructor d with
      | Some k =>
          reflectedTokens (default [] (paramtypes (classOf classes k)))
            (default [] (injectTokens (classOf classes k)))
      | None => []
      end
  end.

(** The factory can come to call [container.resolve(tok)]. *)
Fixpoint asks (b : FactoryBody) (tok : Token) : Prop :=
  match b with
  | Finish _ => False
  | CallResolve asked next => asked = tok \/ exists result, asks (next result) tok
  end.

(** The tokens that building from a descriptor resolves: the dependencies
    and what the factory asks for. *)
Definition requests (classes : string -> ClassInfo) (d : ServiceDescriptor)
    (tok : Token) : Prop :=
  tok ∈ dependencyTokens classes d
  \/ exists f deps, factory d = Some f /\ asks (f deps) tok.

(** The descriptor under which [resolve] registers a class that carries the
    injectable metadata. *)
Definition autoDescriptor (name : string) (lc : ServiceLifecycle)
    : ServiceDescriptor :=
  {| token := TClass name; lifecycle := lc; factory := None;
     constructor := Some name; instance := None; dependencies := None |}.

(** [rank] goes down along every token that building resolves, for the
    descriptors of [c] and for the classes that [resolve] would register by
    itself: the graph of the dependencies and of the calls the factories
    make has no cycle. *)
Definition ranked (classes : string -> ClassInfo) (rank : Token -> nat)
    (c : t) : Prop :=
  (forall tok d dep,
      services c !! tok = Some d -> requests classes d dep ->
      (rank dep < rank tok)%nat)
  /\ (forall name lc dep,
        injectable (classOf classes name) = Some lc ->
        requests classes (autoDescriptor name lc) dep ->
        (rank dep < rank (TClass name))%nat).

(** No address of [c] is free again in [c'], and the scope objects of [c]
    hold in [c'] what they hold in [c]. *)
Definition keepsScopes (c c' : t) : Prop :=
  (nextObject c <= nextObject c')%nat
  /\ (forall a k v, (a < nextObject c)%nat ->
                    scopeInstances a c !! k = Some v ->
                    scopeInstances a c' !! k = Some v).

(** The container as [fn] finds it in [withScope(scopeId, fn)]. *)
Definition enterScope (scopeId : string) (c : t) : t :=
  let '(c1, scope) :=
    match scopes c !! scopeId with
    | Some a => (c, a)
    | None => createScope scopeId c
    end in
  set_currentScope (Some scope) c1.

End DIContainer.

(** ** EventBus *)

Module EventBus.

Record DomainEvent := {
  id : string;
  type : string;
  occurredAt : Z;
  aggregateId : string;
  version : Z
}.

Section Bus.

(** The handlers act on a world [W] of their own; [sleep ms] is what waiting
    [ms] milliseconds does to it. A handler runs to completion when it is
    called and does not call back into the bus. *)
Context {W : Type} (sleep : Z -> W -> W).

Definition EventHandler := DomainEvent -> W -> W * Completion unit.

Record EventSubscription := {
  sub_id : nat;
  sub_eventType : string;
  handler : EventHandler
}.

Record EventBusOptions := {
  maxRetries : Z;
  retryDelay : Z;
  enableLogging : bool;
  errorHandler : Thrown -> DomainEvent -> W -> W
}.

Record QueueItem := {
  event : DomainEvent;
  retryCount : Z
}.

(** The bus. The inner maps keep their entries in insertion order, which is
    the order in which the handlers are called; subscription ids are fresh,
    drawn from [nextId]. *)
Record t := {
  subscriptions : gmap string (list EventSubscription);
  eventQueue : list QueueItem;
  processing : bool;
  options : EventBusOptions;
  nextId : nat
}.

(** The options a bus gets when none are given; [log] is the default
    [errorHandler], the console. *)
Definition defaultOptions (log : Thrown -> DomainEvent -> W -> W) : EventBusOptions :=
  {| maxRetries := 3; retryDelay := 1000; enableLogging := false;
     errorHandler := log |}.

Definition new (opts : EventBusOptions) : t :=
  {| subscriptions := ∅; eventQueue := []; processing := false;
     options := opts; nextId := 0 |}.

Definition set_subscriptions (m : gmap string (list EventSubscription)) (b : t) : t :=
  {| subscriptions := m; eventQueue := eventQueue b;
     processing := processing b; options := options b; nextId := nextId b |}.

Definition set_eventQueue (q : list QueueItem) (b : t) : t :=
  {| subscriptions := subscriptions b; eventQueue := q;
     processing := processing b; options := options b; nextId := nextId b |}.

Definition set_processing (p : bool) (b : t) : t :=
  {| subscriptions := subscriptions b; eventQueue := eventQueue b;
     processing := p; options := options b; nextId := nextId b |}.

Definition subscribe (eventType : string) (h : EventHandler) (b : t)
    : t * EventSubscription :=
  let subscription :=
    {| sub_id := nextId b; sub_eventType := eventType; handler := h |} in
  ({| subscriptions :=
        <[eventType :=
            (default [] (subscriptions b !! eventType) ++ [subscription])%list]>
          (subscriptions b);
      eventQueue := eventQueue b; processing := processing b;
      options := options b; nextId := S (nextId b) |},
   subscription).

Definition unsubscribe (eventType : string) (subscriptionId : nat) (b : t) : t :=
  match subscriptions b !! eventType with
  | None => b
  | Some typeSubscriptions =>
      let remaining :=
        List.filter (fun s => negb (Nat.eqb (sub_id s) subscriptionId))
          typeSubscriptions in
      match remaining with
      | [] => set_subscriptions (delete eventType (subscriptions b)) b
      | _ :: _ => set_subscriptions (<[eventType := remaining]> (subscriptions b)) b
      end
  end.

Definition getSubscribers (eventType : string) (b : t) : list EventSubscription :=
  default [] (subscriptions b !! eventType).

Definition executeHandler (b : t) (h : EventHandler) (e : DomainEvent) (w : W)
    : W * Completion unit :=
  match h e w with
  | (w', Return _) => (w', Return tt)
  | (w', Throw error) => (errorHandler (options b) error e w', Throw error)
  end.

(** The handlers of one event, called in turn; each promise settles. *)
Fixpoint executeAll (b : t) (subs : list EventSubscription) (e : DomainEvent)
    (w : W) : W * list (Completion unit) :=
  match subs with
  | [] => (w, [])
  | s :: rest =>
      let '(w1, r) := executeHandler b (handler s) e w in
      let '(w2, rs) := executeAll b rest e w1 in
      (w2, r :: rs)
  end.

(** [Promise.allSettled]: fulfilled with the outcomes, whatever they are. *)
Definition allSettled {A : Type} (promises : list (Completion A))
    : Completion (list (Completion A)) :=
  Return promises.

Definition publishSync (e : DomainEvent) (b : t) (w : W) : W * Completion unit :=
  match subscriptions b !! type e with
  | None => (w, Return tt)
  | Some [] => (w, Return tt)
  | Some subs =>
      let '(w', promises) := executeAll b subs e w in
      match allSettled promises with
      | Return _ => (w', Return tt)
      | Throw error => (w', Throw error)
      end
  end.

Definition handleEventError (error : Thrown) (item : QueueItem) (b : t) (w : W)
    : t * W :=
  if retryCount item <? maxRetries (options b) then
    let item' := {| event := event item; retryCount := retryCount item + 1 |} in
    let w' := sleep (retryDelay (options b) * retryCount item') w in
    (set_eventQueue (item' :: eventQueue b) b, w')
  else (b, errorHandler (options b) error (event item) w).

(** The loop of [processQueue]; [steps] bounds the number of iterations and
    [None] is a loop still running after that many. *)
Fixpoint drain (steps : nat) (b : t) (w : W) : option (t * W) :=
  match steps with
  | O => None
  | S steps' =>
      match eventQueue b with
      | [] => Some (b, w)
      | item :: rest =>
          let b1 := set_eventQueue rest b in
          match publishSync (event item) b1 w with
          | (w1, Return _) => drain steps' b1 w1
          | (w1, Throw error) =>
              let '(b2, w2) := handleEventError error item b1 w1 in
              drain steps' b2 w2
          end
      end
  end.

Definition processQueue (steps : nat) (b : t) (w : W) : option (t * W) :=
  if processing b then Some (b, w)
  else
    match drain steps (set_processing true b) w with
    | Some (b', w') => Some (set_processing false b', w')
    | None => None
    end.

(** The synchronous head of [publish]: the event joins the queue. *)
Definition enqueue (e : DomainEvent) (b : t) : t :=
  set_eventQueue (eventQueue b ++ [{| event := e; retryCount := 0 |}])%list b.

Definition publish (steps : nat) (e : DomainEvent) (b : t) (w : W)
    : option (t * W) :=
  let b1 := enqueue e b in
  if processing b1 then Some (b1, w) else processQueue steps b1 w.

(** The world after the events of a queue have each been handed to
    [publishSync] once, in queue order. *)
Definition deliveredOnce (b : t) (q : list QueueItem) (w : W) : W :=
  fold_left (fun w item => (publishSync (event item) b w).1) q w.

Definition clear (b : t) : t :=
  {| subscriptions := ∅; eventQueue := []; processing := processing b;
     options := options b; nextId := nextId b |}.

(** No event type is kept with an empty map of subscriptions, and every
    subscription is filed under its own event type, with an identifier that
    has been drawn and is its alone. *)
Definition wellFormed (b : t) : Prop :=
  forall eventType subs,
    subscriptions b !! eventType = Some subs ->
    subs <> []
    /\ Forall (fun s => sub_eventType s = eventType
                        /\ (sub_id s < nextId b)%nat) subs
    /\ NoDup (map sub_id subs).

End Bus.

End EventBus.

(** * Scenarios *)

(** Concrete breakers, worlds, containers and buses on which the properties
    below are exercised. *)

Module Scenario.
Import CircuitBreaker.

Definition threeStrikes : CircuitBreakerConfig :=
  {| failureThreshold := 3; resetTimeout := 120000; monitoringPeriod := 600000 |}.

(** A factory that has made no breaker yet, and an empty store. *)
Definition noBreakers : CircuitBreakerFactory.t :=
  {| CircuitBreakerFactory.instances := ∅ |}.

Definition noCells : CircuitBreakerFactory.Store :=
  {| CircuitBreakerFactory.cells := ∅; CircuitBreakerFactory.next := 0 |}.

(** An inner function that counts its invocations and throws. *)
Definition failing (s : Z * nat) : (Z * nat) * Completion unit :=
  ((fst s + 5, S (snd s)), Throw (JsError "upstream down")).

(** An inner function that counts its invocations and returns. *)
Definition succeeding (s : Z * nat) : (Z * nat) * Completion unit :=
  ((fst s + 5, S (snd s)), Return tt).

Definition openedAt1010 : CircuitBreaker.t :=
  (execute fst failing
     (execute fst failing
        (execute fst failing (new threeStrikes) (1000, 0%nat)).1.1
        (1005, 1%nat)).1.1
     (1010, 2%nat)).1.1.

(** A breaker that has seen a failure, a success, a failure, a success and
    a failure, five seconds apart. *)
Definition interleaved : CircuitBreaker.t :=
  (execute fst failing
     (execute fst succeeding
        (execute fst failing
           (execute fst succeeding
              (execute fst failing (new threeStrikes) (1000, 0%nat)).1.1
              (1005, 1%nat)).1.1
           (1010, 2%nat)).1.1
        (1015, 3%nat)).1.1
     (1020, 4%nat)).1.1.

(** A breaker with a threshold out of reach that has seen nine failures. *)
Definition lenient : CircuitBreakerConfig :=
  {| failureThreshold := 100; resetTimeout := 60000; monitoringPeriod := 300000 |}.

Definition nineFailures : CircuitBreaker.t :=
  Nat.iter 9 (fun cb => (execute fst failing cb (1000, 0%nat)).1.1) (new lenient).

(** The library's error for a response with status 404. *)
Definition notFound : Thrown :=
  AxiosError "Request failed with status code 404" (Some "ERR_BAD_REQUEST") true
    (Some {| resp_data := None; resp_status := 404;
             resp_statusText := "Not Found" |}).

(** A server that answers every request with 404, ten milliseconds later. *)
Definition world404 : World :=
  {| clock := 0; wire := [];
     network := fun _ _ => {| latency := 10; outcome := inr notFound |} |}.

(** The retry configuration of a client constructed without [retries] and
    [retryDelay]. *)
Definition defaultRetry : BaseApiClient.RetryConfig :=
  BaseApiClient.newRetryConfig
    {| BaseApiClient.baseURL := "https://example.test";
       BaseApiClient.timeout := None;
       BaseApiClient.cfg_retries := None;
       BaseApiClient.cfg_retryDelay := None;
       BaseApiClient.cfg_headers := [] |}.

Definition goldPayload : MetalPriceApiResponse :=
  {| mp_metal := "Gold"; price_usd := 2000; mp_currency := "USD";
     mp_timestamp := "2024-01-01T00:00:00Z"; unit_oz := true |}.

(** A server that answers every request with 200 and the gold price. *)
Definition worldGold : World :=
  {| clock := 5000; wire := [];
     network := fun _ _ =>
       {| latency := 10;
          outcome := inl {| data := MetalPayload goldPayload; status := 200;
                            statusText := "OK"; headers := [] |} |} |}.

(** The metal client as the composition root builds it. *)
Definition metalClient : MetalPriceApiClient.t :=
  MetalPriceApiClient.new
    (CircuitBreaker.new MetalPriceApiClient.breakerConfig)
    MetalPriceApiClient.defaultProviderConfig.

Definition oldGold : MetalPriceApiClient.MetalPrice :=
  {| MetalPriceApiClient.metal := "gold";
     MetalPriceApiClient.pricePerOunce := Some 1900%Q;
     MetalPriceApiClient.pricePerGram := Some 61%Q;
     MetalPriceApiClient.currency := Some "USD";
     MetalPriceApiClient.lastUpdated := Some "2023-12-31T00:00:00Z" |}.

(** A metal client that holds a gold price cached at time 0. *)
Definition metalClientWithOldGold : MetalPriceApiClient.t :=
  MetalPriceApiClient.cachePrice "gold" oldGold 0 metalClient.

(** The world two hours later, with the server answering 404. *)
Definition world404Later : World :=
  {| clock := 7200000; wire := [];
     network := fun _ _ => {| latency := 10; outcome := inr notFound |} |}.

(** The same client with its breaker forced open at that time. *)
Definition metalClientOpen : MetalPriceApiClient.t :=
  MetalPriceApiClient.set_circuitBreaker
    (CircuitBreaker.forceOpen 7200000
       (CircuitBreaker.new MetalPriceApiClient.breakerConfig))
    metalClientWithOldGold.

(** Two calls for gold, one after the other, against the server that
    answers every request with the gold price. *)
Definition firstGoldCall :=
  MetalPriceApiClient.getCurrentPrice "gold" metalClient worldGold.

Definition secondGoldCall :=
  MetalPriceApiClient.getCurrentPrice "Gold" firstGoldCall.1.1 firstGoldCall.1.2.

(** What the handlers of the bus scenario see and leave behind: the events
    handled, oldest first, each with whether the handler threw; how many
    more times the flaky handler will throw; the events given to the error
    handler; the time slept. *)
Record Ledger := {
  handled : list (string * bool);
  throwsLeft : nat;
  reported : list string;
  slept : Z
}.

(** A handler that throws while [throwsLeft] is positive and succeeds from
    then on. *)
Definition flaky (e : EventBus.DomainEvent) (l : Ledger)
    : Ledger * Completion unit :=
  match throwsLeft l with
  | O =>
      ({| handled := handled l ++ [(EventBus.id e, false)];
          throwsLeft := O; reported := reported l; slept := slept l |},
       Return tt)
  | S n =>
      ({| handled := handled l ++ [(EventBus.id e, true)];
          throwsLeft := n; reported := reported l; slept := slept l |},
       Throw (JsError "handler failed"))
  end.

Definition steady (e : EventBus.DomainEvent) (l : Ledger)
    : Ledger * Completion unit :=
  ({| handled := handled l ++ [(EventBus.id e, false)];
      throwsLeft := throwsLeft l; reported := reported l; slept := slept l |},
   Return tt).

Definition report (_ : Thrown) (e : EventBus.DomainEvent) (l : Ledger) : Ledger :=
  {| handled := handled l; throwsLeft := throwsLeft l;
     reported := reported l ++ [EventBus.id e]; slept := slept l |}.

Definition nap (ms : Z) (l : Ledger) : Ledger :=
  {| handled := handled l; throwsLeft := throwsLeft l;
     reported := reported l; slept := slept l + Z.max 0 ms |}.

Definition eventA : EventBus.DomainEvent :=
  {| EventBus.id := "A"; EventBus.type := "x"; EventBus.occurredAt := 0;
     EventBus.aggregateId := "agg"; EventBus.version := 1 |}.

Definition eventB : EventBus.DomainEvent :=
  {| EventBus.id := "B"; EventBus.type := "y"; EventBus.occurredAt := 1;
     EventBus.aggregateId := "agg"; EventBus.version := 2 |}.

(** A bus with the default options, the flaky handler on "x" and a steady
    one on "y". *)
Definition busXY : EventBus.t (W := Ledger) :=
  (EventBus.subscribe "y" steady
     (EventBus.subscribe "x" flaky
        (EventBus.new (EventBus.defaultOptions report))).1).1.

(** The ledger once A has been handled, the handler throwing, and then B. *)
Definition ledgerAfter : Ledger :=
  {| handled := [("A", true); ("B", false)]; throwsLeft := 0;
     reported := ["A"]; slept := 0 |}.

(** The flaky handler is to throw once. *)
Definition ledger0 : Ledger :=
  {| handled := []; throwsLeft := 1; reported := []; slept := 0 |}.

(** Classes without metadata whose constructors do not throw. *)
Definition plainClasses (name : string) : DIContainer.ClassInfo :=
  {| DIContainer.sourceText := "class " +:+ name +:+ " {}";
     DIContainer.injectable := None; DIContainer.paramtypes := None;
     DIContainer.injectTokens := None;
     DIContainer.body := fun _ => DIContainer.Builds |}.

Definition dependsOn (lc : DIContainer.ServiceLifecycle) (k : string)
    (deps : list DIContainer.Token) : DIContainer.PartialDescriptor :=
  {| DIContainer.p_token := None; DIContainer.p_lifecycle := Some lc;
     DIContainer.p_factory := None; DIContainer.p_constructor := Some (Some k);
     DIContainer.p_instance := None; DIContainer.p_dependencies := Some deps |}.

(** "A" is built from "B" and "B" from "A". *)
Definition cycleAB : DIContainer.t :=
  DIContainer.register (DIContainer.TString "B")
    (dependsOn DIContainer.singleton "ServiceB" [DIContainer.TString "A"])
    (DIContainer.register (DIContainer.TString "A")
       (dependsOn DIContainer.singleton "ServiceA" [DIContainer.TString "B"])
       DIContainer.empty).





(** A server that answers every request with today's rates from the dollar. *)
Definition ratesPayload : ExchangeRateApiResponse :=
  {| er_base := "USD"; er_date := "2024-01-01";
     rates := {[ "EUR" := (9 # 10)%Q; "MXN" := 17%Q ]} |}.

Definition ratesResponse : AxiosResponse :=
  {| data := RatesPayload ratesPayload; status := 200; statusText := "OK";
     headers := [] |}.

Definition worldRates : World :=
  {| clock := 5000; wire := [];
     network := fun _ _ => {| latency := 10; outcome := inl ratesResponse |} |}.

(** The exchange-rate client as the composition root builds it. *)
Definition exchangeClient : ExchangeRateApiClient.t :=
  ExchangeRateApiClient.new
    (CircuitBreaker.new ExchangeRateApiClient.breakerConfig)
    ExchangeRateApiClient.defaultConfig.

Definition dollarToEuro : ExchangeRateApiClient.ExchangeRate :=
  {| ExchangeRateApiClient.fromCurrency := "USD";
     ExchangeRateApiClient.toCurrency := "EUR";
     ExchangeRateApiClient.rate := (9 # 10)%Q;
     ExchangeRateApiClient.lastUpdated :=
       ExchangeRateApiClient.DateOfString "2024-01-01";
     ExchangeRateApiClient.provider := "exchange-rate-api" |}.

(** A scoped "Session" and the scope "request-1", which is current: the
    container inside [withScope("request-1", ...)]. *)
Definition inRequest : DIContainer.t :=
  DIContainer.enterScope "request-1"
    (DIContainer.register (DIContainer.TString "Session")
       (dependsOn DIContainer.scoped "Session" []) DIContainer.empty).

Definition sessionDescriptor : DIContainer.ServiceDescriptor :=
  {| DIContainer.token := DIContainer.TString "Session";
     DIContainer.lifecycle := DIContainer.scoped;
     DIContainer.factory := None;
     DIContainer.constructor := Some "Session";
     DIContainer.instance := None;
     DIContainer.dependencies := Some [] |}.




(** The same container with no scope entered. *)
Definition outsideRequest : DIContainer.t :=
  DIContainer.set_currentScope None inRequest.

Definition afterOutsideSession : DIContainer.t :=
  match DIContainer.resolve plainClasses 1 (DIContainer.TString "Session")
          outsideRequest with
  | Some (c, _) => c
  | None => outsideRequest
  end.

(** A composition root in the manner of [configureContainer]: the database
    context is made by a factory without arguments, and the factory of the
    receipt repository resolves the database context from the container
    before it makes the repository. *)
Definition repositoryFactory : DIContainer.Factory :=
  fun _ =>
    DIContainer.CallResolve (DIContainer.TClass "DatabaseContext")
      (fun resolved =>
         match resolved with
         | Return _ => DIContainer.Finish DIContainer.Fresh
         | Throw e => DIContainer.Finish (DIContainer.Fails e)
         end).

Definition compositionRoot : DIContainer.t :=
  DIContainer.registerSingleton (DIContainer.TString "IReceiptRepository")
    (Some repositoryFactory) None
    (DIContainer.registerSingleton (DIContainer.TClass "DatabaseContext")
       (Some (fun _ => DIContainer.Finish DIContainer.Fresh)) None
       DIContainer.empty).

(** The ranks of its tokens. *)
Definition rootRank (tok : DIContainer.Token) : nat :=
  match tok with
  | DIContainer.TString "IReceiptRepository" => 1
  | _ => 0
  end.

(** A program whose class [Mailer] carries the injectable metadata, as a
    singleton without parameters. *)
Definition mailerClasses (name : string) : DIContainer.ClassInfo :=
  {| DIContainer.sourceText := "class " +:+ name +:+ " {}";
     DIContainer.injectable :=
       if String.eqb name "Mailer" then Some DIContainer.singleton else None;
     DIContainer.paramtypes := None;
     DIContainer.injectTokens := None;
     DIContainer.body := fun _ => DIContainer.Builds |}.

Definition afterOutsideTwice : DIContainer.t :=
  match DIContainer.resolve plainClasses 1 (DIContainer.TString "Session")
          afterOutsideSession with
  | Some (c, _) => c
  | None => afterOutsideSession
  end.

Definition afterMailer : DIContainer.t :=
  match DIContainer.resolve mailerClasses 2 (DIContainer.TClass "Mailer")
          DIContainer.empty with
  | Some (c, _) => c
  | None => DIContainer.empty
  end.

End Scenario.

(** * Properties *)

(** ** CircuitBreaker *)

Section CircuitBreakerFacts.
Import CircuitBreaker.

Lemma cleanupOldEntries_fields now cb :
  config (cleanupOldEntries now cb) = config cb
  /\ state (cleanupOldEntries now cb) = state cb
  /\ failureCount (cleanupOldEntries now cb) = failureCount cb
  /\ successCount (cleanupOldEntries now cb) = successCount cb
  /\ totalRequests (cleanupOldEntries now cb) = totalRequests cb
  /\ lastFailureTime (cleanupOldEntries now cb) = lastFailureTime cb
  /\ nextRetryTime (cleanupOldEntries now cb) = nextRetryTime cb.
Proof. repeat split. Qed.

Lemma shouldOpenCircuit_fields now cb :
  let cb' := (shouldOpenCircuit now cb).1 in
  config cb' = config cb /\ state cb' = state cb
  /\ failureCount cb' = failureCount cb /\ successCount cb' = successCount cb
  /\ totalRequests cb' = totalRequests cb
  /\ lastFailureTime cb' = lastFailureTime cb
  /\ nextRetryTime cb' = nextRetryTime cb.
Proof.
  unfold shouldOpenCircuit.
  destruct (failureCount cb >=? failureThreshold (config cb)); [repeat split|].
  unfold getFailureRate.
  destruct (monitoringWindow (cleanupOldEntries now cb)); repeat split.
Qed.

Lemma shouldOpenCircuit_threshold now cb :
  failureThreshold (config cb) <= failureCount cb ->
  shouldOpenCircuit now cb = (cb, true).
Proof.
  intros H. unfold shouldOpenCircuit.
  destruct (Z.geb_spec (failureCount cb) (failureThreshold (config cb))); [done|lia].
Qed.

(** What a failure does to the counters, whatever the window says. *)
Lemma onFailure_counters now cb :
  config (onFailure now cb) = config cb
  /\ failureCount (onFailure now cb) = failureCount cb + 1
  /\ successCount (onFailure now cb) = successCount cb
  /\ totalRequests (onFailure now cb) = totalRequests cb
  /\ lastFailureTime (onFailure now cb) = Some now.
Proof.
  unfold onFailure.
  match goal with |- context [shouldOpenCircuit now ?x] =>
    pose proof (shouldOpenCircuit_fields now x) as H;
    destruct (shouldOpenCircuit now x) as [cb3 trip] end.
  simpl in H. destruct H as (H1 & H2 & H3 & H4 & H5 & H6 & H7).
  destruct trip; simpl; rewrite ?H1, ?H3, ?H4, ?H5, ?H6; repeat split.
Qed.

(** A failure that reaches the threshold opens the circuit. *)
Lemma onFailure_trips now cb :
  failureThreshold (config cb) <= failureCount cb + 1 ->
  state (onFailure now cb) = open
  /\ nextRetryTime (onFailure now cb) = Some (now + resetTimeout (config cb)).
Proof.
  intros H. unfold onFailure. rewrite shouldOpenCircuit_threshold; [done|].
  simpl. lia.
Qed.

(** After a failure the circuit is open only with a retry time. *)
Lemma onFailure_open_has_retry now cb :
  (state cb = open -> is_Some (nextRetryTime cb)) ->
  state (onFailure now cb) = open -> is_Some (nextRetryTime (onFailure now cb)).
Proof.
  intros Hinv. unfold onFailure.
  match goal with |- context [shouldOpenCircuit now ?x] =>
    pose proof (shouldOpenCircuit_fields now x) as H;
    destruct (shouldOpenCircuit now x) as [cb3 trip] end.
  simpl in H. destruct H as (H1 & H2 & H3 & H4 & H5 & H6 & H7).
  destruct trip; simpl; [eauto|].
  rewrite H2, H7. exact Hinv.
Qed.

Lemma onSuccess_not_open now cb :
  state cb <> open -> state (onSuccess now cb) <> open.
Proof.
  intros H. unfold onSuccess. simpl. destruct (state cb); simpl; congruence.
Qed.

Lemma onSuccess_half_open now cb :
  state cb = half_open ->
  state (onSuccess now cb) = closed /\ failureCount (onSuccess now cb) = 0
  /\ nextRetryTime (onSuccess now cb) = None
  /\ successCount (onSuccess now cb) = successCount cb + 1
  /\ totalRequests (onSuccess now cb) = totalRequests cb.
Proof. intros H. unfold onSuccess. simpl. rewrite H. repeat split. Qed.

Lemma enter_not_open now cb cb1 :
  enter now cb = Some cb1 ->
  state cb1 <> open /\ config cb1 = config cb
  /\ failureCount cb1 = failureCount cb /\ nextRetryTime cb1 = nextRetryTime cb.
Proof.
  unfold enter. destruct (state cb) eqn:E.
  - intros [= <-]. rewrite E. repeat split; congruence.
  - destruct (shouldAttemptReset now cb); [|done].
    intros [= <-]. simpl. repeat split; congruence.
  - intros [= <-]. rewrite E. repeat split; congruence.
Qed.

(** An open breaker whose retry time lies ahead turns the call away. *)
Lemma enter_rejects now cb retryAt :
  state cb = open -> nextRetryTime cb = Some retryAt -> now < retryAt ->
  enter now cb = None.
Proof.
  intros Hs Hn Hlt. unfold enter, shouldAttemptReset. rewrite Hs, Hn.
  destruct (Z.geb_spec now retryAt); [lia|done].
Qed.

(** An open breaker whose retry time has come lets the call in, half-open. *)
Lemma enter_half_open now cb retryAt :
  state cb = open -> nextRetryTime cb = Some retryAt -> retryAt <= now ->
  enter now cb = Some (set_state half_open cb).
Proof.
  intros Hs Hn Hle. unfold enter, shouldAttemptReset. rewrite Hs, Hn.
  destruct (Z.geb_spec now retryAt); [done|lia].
Qed.

(** [execute] when the inner function is reached and throws. *)
Lemma execute_throw {S T : Type} (now : S -> Z) (fn : S -> S * Completion T)
    cb cb1 s s' e :
  enter (now s) cb = Some cb1 -> fn s = (s', Throw e) ->
  execute now fn cb s = (onFailure (now s') (incrTotalRequests cb1), s', Throw e).
Proof. intros Ha Hf. unfold execute. rewrite Ha, Hf. reflexivity. Qed.

Lemma execute_return {S T : Type} (now : S -> Z) (fn : S -> S * Completion T)
    cb cb1 s s' v :
  enter (now s) cb = Some cb1 -> fn s = (s', Return v) ->
  execute now fn cb s = (onSuccess (now s') (incrTotalRequests cb1), s', Return v).
Proof. intros Ha Hf. unfold execute. rewrite Ha, Hf. reflexivity. Qed.

Lemma execute_rejected {S T : Type} (now : S -> Z) (fn : S -> S * Completion T)
    cb s :
  enter (now s) cb = None ->
  execute now fn cb s = (cb, s, Throw (JsError openMessage)).
Proof. intros Ha. unfold execute. rewrite Ha. reflexivity. Qed.

Lemma execute_fnThrows {S T : Type} (now : S -> Z) (fn : S -> S * Completion T)
    cb s :
  fnThrows now fn cb s ->
  exists cb1 s' e,
    enter (now s) cb = Some cb1
    /\ execute now fn cb s
       = (onFailure (now s') (incrTotalRequests cb1), s', Throw e).
Proof.
  intros [[cb1 Ha] [e He]]. destruct (fn s) as [s' r] eqn:Hf. simpl in He.
  subst r. exists cb1, s', e. split; [done|]. by apply execute_throw.
Qed.

(** The invariant of the reachable breakers: the configuration is the one
    given at construction, the failure count is not negative, and an open
    breaker has a retry time. *)
Lemma reachable_invariant cfg cb :
  reachable cfg cb ->
  config cb = cfg /\ 0 <= failureCount cb
  /\ (state cb = open -> is_Some (nextRetryTime cb)).
Proof.
  induction 1 as [|S T now fn cb s _ (IH1 & IH2 & IH3)|cb _ (IH1 & IH2 & IH3)
                 |now cb _ (IH1 & IH2 & IH3)|cb _ (IH1 & IH2 & IH3)
                 |now cb _ (IH1 & IH2 & IH3)
                 |now cb cb1 _ (IH1 & IH2 & IH3) Ha
                 |now cb _ (IH1 & IH2 & IH3)|now cb _ (IH1 & IH2 & IH3)].
  - repeat split; simpl; [lia|done].
  - unfold execute. destruct (enter (now s) cb) as [cb1|] eqn:Ha; [|done].
    destruct (enter_not_open _ _ _ Ha) as (Hno & Hc & Hf & Hn).
    destruct (fn s) as [s' [v|e]]; simpl.
    + split; [|split].
      * unfold onSuccess; simpl. destruct (state cb1); simpl; congruence.
      * unfold onSuccess; simpl. destruct (state cb1); simpl; lia.
      * intros Ho. exfalso. revert Ho. by apply onSuccess_not_open.
    + destruct (onFailure_counters (now s') (incrTotalRequests cb1))
        as (Hc' & Hf' & _).
      split; [simpl in *; congruence|]. split; [simpl in *; lia|].
      apply onFailure_open_has_retry. simpl. intros Ho. by destruct Hno.
  - repeat split; simpl; [done|lia|done].
  - repeat split; simpl; [done|done|eauto].
  - repeat split; simpl; [done|lia|done].
  - unfold getFailureRate.
    destruct (monitoringWindow (cleanupOldEntries now cb)); simpl; done.
  - destruct (enter_not_open _ _ _ Ha) as (Hno & Hc & Hf & Hn).
    split; [simpl; congruence|]. split; [simpl; lia|].
    simpl. intros Ho. by destruct Hno.
  - split; [|split].
    + unfold onSuccess; simpl. by destruct (state cb).
    + unfold onSuccess; simpl. destruct (state cb); simpl; lia.
    + unfold onSuccess; simpl. by destruct (state cb) eqn:Hs.
  - destruct (onFailure_counters now cb) as (Hc' & Hf' & _).
    split; [congruence|]. split; [lia|].
    by apply onFailure_open_has_retry.
Qed.

(** C4. A breaker with [failureThreshold = 3]: after three consecutive
    [execute] calls whose inner function throws, [getStats()] reports the
    state [open] and a [nextRetryTime] of the time of the third failure
    plus [resetTimeout]; every later [execute] before that time throws the
    rejection and gives back the breaker and the caller's state as they
    were: the inner function has not run, and [failureCount],
    [successCount] and [totalRequests] have not moved. *)
Theorem threshold_opens_then_rejects {S T : Type} (now : S -> Z)
    (cfg : CircuitBreakerConfig) (cb0 : CircuitBreaker.t)
    (f1 f2 f3 : S -> S * Completion T) (s1 s2 s3 : S) :
  reachable cfg cb0 ->
  failureThreshold cfg = 3 ->
  let r1 := execute now f1 cb0 s1 in
  let r2 := execute now f2 r1.1.1 s2 in
  let r3 := execute now f3 r2.1.1 s3 in
  fnThrows now f1 cb0 s1 ->
  fnThrows now f2 r1.1.1 s2 ->
  fnThrows now f3 r2.1.1 s3 ->
  stats_state (getStats r3.1.1) = open
  /\ stats_nextRetryTime (getStats r3.1.1)
     = Some (now r3.1.2 + resetTimeout cfg)
  /\ forall (S' T' : Type) (now' : S' -> Z) (g : S' -> S' * Completion T')
            (s : S'),
       now' s < now r3.1.2 + resetTimeout cfg ->
       execute now' g r3.1.1 s = (r3.1.1, s, Throw (JsError openMessage)).
Proof.
  intros Hreach Hthr r1 r2 r3 H1 H2 H3.
  destruct (reachable_invariant _ _ Hreach) as (Hcfg & Hnonneg & _).
  destruct (execute_fnThrows _ _ _ _ H1) as (a1 & s1' & e1 & Ha1 & E1).
  fold r1 in E1.
  destruct (enter_not_open _ _ _ Ha1) as (_ & Hc1 & Hf1 & _).
  destruct (onFailure_counters (now s1') (incrTotalRequests a1))
    as (Hc1' & Hf1' & _).
  assert (C1 : config r1.1.1 = cfg /\ 1 <= failureCount r1.1.1).
  { rewrite E1; simpl. simpl in Hc1', Hf1'. split; [congruence|lia]. }
  destruct C1 as [C1 F1].
  destruct (execute_fnThrows _ _ _ _ H2) as (a2 & s2' & e2 & Ha2 & E2).
  fold r2 in E2.
  destruct (enter_not_open _ _ _ Ha2) as (_ & Hc2 & Hf2 & _).
  destruct (onFailure_counters (now s2') (incrTotalRequests a2))
    as (Hc2' & Hf2' & _).
  assert (C2 : config r2.1.1 = cfg /\ 2 <= failureCount r2.1.1).
  { rewrite E2; simpl. simpl in Hc2', Hf2'. split; [congruence|lia]. }
  destruct C2 as [C2 F2].
  destruct (execute_fnThrows _ _ _ _ H3) as (a3 & s3' & e3 & Ha3 & E3).
  fold r3 in E3.
  destruct (enter_not_open _ _ _ Ha3) as (_ & Hc3 & Hf3 & _).
  destruct (onFailure_trips (now s3') (incrTotalRequests a3)) as [Ho Hn].
  { simpl. rewrite Hc3, C2, Hthr, Hf3. lia. }
  simpl in Hn. rewrite Hc3, C2 in Hn.
  rewrite E3; simpl. split; [done|]. split; [done|].
  intros S' T' now' g s Hlt. apply execute_rejected.
  by eapply enter_rejects.
Qed.

(** C5. An open breaker whose retry time has come: the next [execute] is
    let in with the state [half-open], and when its inner function returns,
    the breaker is [closed] with [failureCount] 0 and the value is handed
    back. *)
Theorem half_open_success_closes {S T : Type} (now : S -> Z)
    (fn : S -> S * Completion T) (cb : CircuitBreaker.t) (s s' : S) (v : T)
    (retryAt : Z) :
  state cb = open ->
  nextRetryTime cb = Some retryAt ->
  retryAt <= now s ->
  fn s = (s', Return v) ->
  (exists cb1, enter (now s) cb = Some cb1 /\ state cb1 = half_open)
  /\ (execute now fn cb s).2 = Return v
  /\ (execute now fn cb s).1.2 = s'
  /\ stats_state (getStats (execute now fn cb s).1.1) = closed
  /\ stats_failureCount (getStats (execute now fn cb s).1.1) = 0.
Proof.
  intros Hs Hn Hle Hf.
  pose proof (enter_half_open _ _ _ Hs Hn Hle) as Ha.
  split; [eexists; split; [exact Ha|done]|].
  rewrite (execute_return _ _ _ _ _ _ _ Ha Hf). simpl.
  destruct (onSuccess_half_open (now s') (incrTotalRequests (set_state half_open cb)))
    as (H1 & H2 & _); [done|].
  repeat split; assumption.
Qed.

Lemma threshold_opens_then_rejects_witness :
  stats_state (getStats Scenario.openedAt1010) = open
  /\ stats_nextRetryTime (getStats Scenario.openedAt1010) = Some 121015
  /\ execute fst Scenario.succeeding Scenario.openedAt1010 (121014, 3%nat)
     = (Scenario.openedAt1010, (121014, 3%nat), Throw (JsError openMessage)).
Proof.
  destruct (threshold_opens_then_rejects fst Scenario.threeStrikes
              (new Scenario.threeStrikes)
              Scenario.failing Scenario.failing Scenario.failing
              (1000, 0%nat) (1005, 1%nat) (1010, 2%nat))
    as (H1 & H2 & H3).
  - constructor.
  - reflexivity.
  - split; [eexists; reflexivity|eexists; reflexivity].
  - split; [eexists; reflexivity|eexists; reflexivity].
  - split; [eexists; reflexivity|eexists; reflexivity].
  - split; [exact H1|]. split; [exact H2|].
    apply (H3 (Z * nat)%type unit fst Scenario.succeeding (121014, 3%nat)).
    vm_compute. reflexivity.
Defined.

Lemma half_open_success_closes_witness :
  (execute fst Scenario.succeeding Scenario.openedAt1010 (121015, 3%nat)).2
  = Return tt
  /\ stats_state
       (getStats
          (execute fst Scenario.succeeding Scenario.openedAt1010
             (121015, 3%nat)).1.1) = closed
  /\ stats_failureCount
       (getStats
          (execute fst Scenario.succeeding Scenario.openedAt1010
             (121015, 3%nat)).1.1) = 0.
Proof.
  destruct (half_open_success_closes fst Scenario.succeeding
              Scenario.openedAt1010 (121015, 3%nat) (121020, 4%nat) tt 121015)
    as (_ & H1 & _ & H2 & H3).
  - reflexivity.
  - reflexivity.
  - simpl. lia.
  - reflexivity.
  - split; [exact H1|]. split; [exact H2|exact H3].
Defined.

End CircuitBreakerFacts.

(** ** CircuitBreakerFactory *)

Section CircuitBreakerFactoryFacts.
Import CircuitBreaker CircuitBreakerFactory.

(** A name the factory knows is answered from the map: nothing is built and
    the configuration passed along is not looked at. *)
Lemma getInstance_existing name cfg f st l :
  instances f !! name = Some l ->
  getInstance name cfg f st = (f, st, l).
Proof. intros H. unfold getInstance. by rewrite H. Qed.

(** A name the factory does not know gets a new breaker, made with the
    configuration given or else the default one. *)
Lemma getInstance_fresh name cfg f st :
  instances f !! name = None ->
  let '(f1, st1, l1) := getInstance name cfg f st in
  instances f1 !! name = Some l1
  /\ cells st1 !! l1 = Some (CircuitBreaker.new (default defaultConfig cfg)).
Proof.
  intros H. unfold getInstance, alloc. rewrite H. simpl.
  split; apply lookup_insert_eq.
Qed.

(** C8. [getInstance(n, c1)] followed by [getInstance(n, c2)] gives the
    same breaker both times, and the second call changes nothing. When the
    first call is the first for the name, the breaker is the new one made
    with [c1], or with the defaults [failureThreshold = 5],
    [resetTimeout = 60000], [monitoringPeriod = 300000] when no
    configuration was given: this is the configuration the breaker holds
    after the first call and still holds after the second, whatever [c2]
    is. When the name was known before, the first call builds nothing
    either. *)
Theorem getInstance_first_config_wins (name : string)
    (c1 c2 : option CircuitBreakerConfig) (f : CircuitBreakerFactory.t)
    (st : Store) :
  getInstance name c2 (getInstance name c1 f st).1.1
    (getInstance name c1 f st).1.2
  = getInstance name c1 f st
  /\ (instances f !! name = None ->
      cells (getInstance name c1 f st).1.2 !! (getInstance name c1 f st).2
      = Some (CircuitBreaker.new
                (match c1 with
                 | Some cfg => cfg
                 | None => {| failureThreshold := 5; resetTimeout := 60000;
                              monitoringPeriod := 300000 |}
                 end))
      /\ config
           <$> cells (getInstance name c1 f st).1.2
               !! (getInstance name c1 f st).2
         = Some (match c1 with
                 | Some cfg => cfg
                 | None => {| failureThreshold := 5; resetTimeout := 60000;
                              monitoringPeriod := 300000 |}
                 end)
      /\ config
           <$> cells (getInstance name c2 (getInstance name c1 f st).1.1
                        (getInstance name c1 f st).1.2).1.2
               !! (getInstance name c2 (getInstance name c1 f st).1.1
                     (getInstance name c1 f st).1.2).2
         = Some (match c1 with
                 | Some cfg => cfg
                 | None => {| failureThreshold := 5; resetTimeout := 60000;
                              monitoringPeriod := 300000 |}
                 end))
  /\ (forall l, instances f !! name = Some l ->
                getInstance name c1 f st = (f, st, l)).
Proof.
  destruct (instances f !! name) as [l|] eqn:Hname.
  - rewrite (getInstance_existing _ c1 _ _ _ Hname). simpl.
    rewrite (getInstance_existing _ c2 _ _ _ Hname).
    split; [done|]. split; [done|]. by intros ? [= <-].
  - pose proof (getInstance_fresh name c1 f st Hname) as Hfresh.
    destruct (getInstance name c1 f st) as [[f1 st1] l1].
    destruct Hfresh as [Hin Hcell]. simpl.
    rewrite (getInstance_existing _ c2 _ _ _ Hin).
    split; [done|]. split; [|done]. intros _. cbn [fst snd].
    rewrite Hcell. by destruct c1.
Qed.

Lemma getInstance_first_config_wins_witness :
  (CircuitBreaker.config
     <$> cells (getInstance MetalPriceApiClient.breakerName (Some Scenario.threeStrikes)
                  Scenario.noBreakers Scenario.noCells).1.2
         !! (getInstance MetalPriceApiClient.breakerName (Some Scenario.threeStrikes)
               Scenario.noBreakers Scenario.noCells).2)
  = Some Scenario.threeStrikes.
Proof.
  destruct (getInstance_first_config_wins MetalPriceApiClient.breakerName
              (Some Scenario.threeStrikes) None
              Scenario.noBreakers Scenario.noCells) as (_ & H & _).
  destruct (H eq_refl) as (_ & Hconfig & _). exact Hconfig.
Defined.

End CircuitBreakerFactoryFacts.

(** ** BaseApiClient *)

Section BaseApiClientFacts.
Import BaseApiClient.

(** The retry condition on the library's own errors: a 4xx response is not
    to be retried, a 5xx response, a missing response and a timeout are. *)
Lemma defaultRetryCondition_spec m code rq r :
  defaultRetryCondition (AxiosError m code rq r)
  = match r with
    | None => true
    | Some resp => (resp_status resp >=? 500) && (resp_status resp <? 600)
    end
    || bool_decide (code = Some "ECONNABORTED").
Proof. reflexivity. Qed.

(** What [transformError] returns has no [response]: the retry condition
    holds of it whatever the error was. *)
Lemma retryCondition_after_transformError e :
  defaultRetryCondition (transformError e) = true.
Proof.
  unfold transformError.
  destruct (prop_response e); [reflexivity|].
  destruct (prop_request e); reflexivity.
Qed.

(** The same for everything a request of a plain client is rejected with,
    since the response interceptor rejects with [transformError(error)]. *)
Lemma clientRequest_rejection_retryable url w w' e :
  clientRequest base url w = (w', Throw e) ->
  defaultRetryCondition e = true.
Proof.
  unfold clientRequest. destruct (send url w) as [w1 [resp|err]]; simpl.
  - discriminate.
  - intros [= _ <-]. apply retryCondition_after_transformError.
Qed.

(** A second [transformError] drops the status the first one recorded. *)
Lemma transformError_twice e :
  prop_status (transformError (transformError e)) = None.
Proof.
  unfold transformError at 2.
  destruct (prop_response e); [reflexivity|].
  destruct (prop_request e); reflexivity.
Qed.

(** C2, on the code. The retry condition by itself turns a 404 down, but a
    [get] against a server that answers 404 every time goes on the wire four
    times, the first attempt and three retries after 1000, 2000 and 3000
    milliseconds, and then throws an error without status. *)
Theorem client_error_is_retried :
  defaultRetryCondition Scenario.notFound = false
  /\ wire (get base Scenario.defaultRetry "/gold" Scenario.world404).1
     = ["/gold"; "/gold"; "/gold"; "/gold"]
  /\ clock (get base Scenario.defaultRetry "/gold" Scenario.world404).1
     = 10 + 1000 + 10 + 2000 + 10 + 3000 + 10
  /\ (get base Scenario.defaultRetry "/gold" Scenario.world404).2
     = Throw (ApiError "Not Found" None (Some "UNKNOWN_ERROR")
                (DetailsThrown
                   (ApiError "Not Found" (Some 404) None (DetailsData None)))).
Proof. repeat split; vm_compute; reflexivity. Qed.

End BaseApiClientFacts.

(** ** MetalPriceApiClient *)

Section MetalPriceApiClientFacts.
Import BaseApiClient MetalPriceApiClient.

(** On a payload of the metal API [transformResponse] does what its name
    says. *)
Lemma transformResponse_payload `{ToLowerCase} p :
  transformResponse (Some (fieldsOfPayload (MetalPayload p)))
  = Return {| metal := toLowerCase (mp_metal p);
              pricePerOunce :=
                Some (if unit_oz p then price_usd p
                      else Qmult (price_usd p) gramsPerOunce);
              pricePerGram :=
                Some (if unit_oz p then Qdiv (price_usd p) gramsPerOunce
                      else price_usd p);
              currency := Some (mp_currency p);
              lastUpdated := Some (mp_timestamp p) |}.
Proof. unfold transformResponse. simpl. by destruct (unit_oz p). Qed.

(** On a response object it throws: a response has no [metal]. This is the
    call the inherited response interceptor makes. *)
Lemma onResponse_throws `{ToLowerCase} response :
  exists m, onResponse self response = Throw (TypeError m).
Proof. eexists. reflexivity. Qed.

(** Every request of the metal client is rejected, and with a value that
    has no [response]. *)
Lemma clientRequest_rejects `{ToLowerCase} url w :
  exists e, (clientRequest self url w).2 = Throw e /\ prop_response e = None.
Proof.
  unfold clientRequest. destruct (send url w) as [w1 [resp|err]]; simpl.
  - eexists. split; reflexivity.
  - eexists. split; [reflexivity|].
    unfold transformError. destruct (prop_response err); [reflexivity|].
    destruct (prop_request err); reflexivity.
Qed.

Lemma transformError_no_status e :
  prop_response e = None -> prop_status (transformError e) = None.
Proof.
  intros H. unfold transformError. rewrite H.
  destruct (prop_request e); reflexivity.
Qed.

(** A retry loop around an operation that is always rejected without a
    [response] ends by throwing a value without [status]. *)
Lemma retryLoop_rejects {R : Type} (me : Dispatch R)
    (operation : World -> World * Completion R) :
  (forall w, exists e, (operation w).2 = Throw e /\ prop_response e = None) ->
  forall budget attempt rc lastError w,
    (forall x, lastError = Some x -> prop_response x = None) ->
    exists e, (retryLoop me budget attempt rc operation lastError w).2 = Throw e
              /\ prop_status e = None.
Proof.
  intros Hop. induction budget as [|budget IH]; intros attempt rc lastError w Hlast.
  - simpl. destruct lastError as [x|]; simpl.
    + eexists. split; [reflexivity|]. apply transformError_no_status. eauto.
    + eexists. split; reflexivity.
  - simpl. destruct (Hop w) as (e & He & Hr).
    destruct (operation w) as [w1 settled]. simpl in He. subst settled.
    destruct ((attempt =? retries rc) || negb (mayRetry rc e)).
    + simpl. eexists. split; [reflexivity|]. by apply transformError_no_status.
    + apply IH. by intros x [= <-].
Qed.

Lemma get_rejects `{ToLowerCase} rc url w :
  exists e, (get self rc url w).2 = Throw e /\ prop_status e = None.
Proof.
  unfold get, executeWithRetry. apply retryLoop_rejects.
  - intros w0. apply clientRequest_rejects.
  - intros x [=].
Qed.

(** So [fetchMetalPrice] throws, whatever the server says: the 404 branch is
    never taken either, the status being gone. *)
Lemma fetchMetalPrice_throws `{ToLowerCase} metal c w :
  exists e, (fetchMetalPrice metal c w).2 = Throw e.
Proof.
  unfold fetchMetalPrice, getAndTransform.
  destruct (get_rejects (retryConfig c) ("/" +:+ metal) w) as (e & He & Hs).
  destruct (get self (retryConfig c) ("/" +:+ metal) w) as [w1 got].
  simpl in He. subst got. rewrite Hs. simpl. eauto.
Qed.

Lemma fetchAndCache_throws `{ToLowerCase} metal c w :
  exists w' e, fetchAndCache metal (c, w) = ((c, w'), Throw e).
Proof.
  unfold fetchAndCache.
  destruct (fetchMetalPrice_throws metal c w) as (e & He).
  destruct (fetchMetalPrice metal c w) as [w' fetched]. simpl in He.
  subst fetched. eauto.
Qed.

(** The protected fetch throws and leaves the cache alone. *)
Lemma protectedFetch_throws `{ToLowerCase} metal c w :
  (exists e, (protectedFetch metal c w).2 = Throw e)
  /\ cache (protectedFetch metal c w).1.1 = cache c.
Proof.
  unfold protectedFetch, CircuitBreaker.execute.
  destruct (CircuitBreaker.enter _ _) as [cb1|].
  - destruct (fetchAndCache_throws metal c w) as (w' & e & ->). simpl. eauto.
  - simpl. eauto.
Qed.

(** When the protected fetch throws, the cache is as it was before. *)
Lemma protectedFetch_throw_keeps_cache `{ToLowerCase} metal c w e :
  (protectedFetch metal c w).2 = Throw e ->
  cache (protectedFetch metal c w).1.1 = cache c.
Proof. intros _. apply protectedFetch_throws. Qed.

Lemma getCachedPrice_includeExpired metal now c :
  getCachedPrice metal true now c = entry_data <$> cache c !! metal.
Proof.
  unfold getCachedPrice. destruct (cache c !! metal); simpl; [|done].
  by rewrite andb_false_r.
Qed.

Lemma getCachedPrice_fresh metal now c cached :
  getCachedPrice metal false now c = Some cached ->
  entry_data <$> cache c !! metal = Some cached.
Proof.
  unfold getCachedPrice. destruct (cache c !! metal) as [entry|]; simpl; [|done].
  destruct (_ && _); [done|]. by intros [= <-].
Qed.

(** [getCurrentPrice] therefore never fills the cache, and answers with
    what the cache holds for the metal, if anything. *)
Lemma getCurrentPrice_never_caches `{ToLowerCase} metal c w :
  cache (getCurrentPrice metal c w).1.1 = cache c
  /\ (getCurrentPrice metal c w).2
     = Return (entry_data <$> cache c !! toLowerCase metal).
Proof.
  unfold getCurrentPrice.
  destruct (getCachedPrice (toLowerCase metal) false (clock w) c) as [cached|] eqn:E.
  - simpl. split; [done|]. by rewrite (getCachedPrice_fresh _ _ _ _ E).
  - destruct (enforceRateLimit c w) as [c1 w1] eqn:E1.
    assert (cache c1 = cache c) as Hc1.
    { unfold enforceRateLimit in E1. by injection E1 as <- _. }
    destruct (protectedFetch_throws (toLowerCase metal) c1 w1) as [[e He] Hc].
    destruct (protectedFetch (toLowerCase metal) c1 w1) as [[c2 w2] result].
    simpl in *. subst result. simpl.
    rewrite getCachedPrice_includeExpired, Hc, Hc1. done.
Qed.

(** C6, on the code. Against a server that answers every request with 200
    and a well-formed gold price, two [getCurrentPrice] calls for gold, six
    seconds apart, put eight requests on the wire, four each; both return
    null and the cache stays empty. *)
Theorem two_calls_eight_requests :
  Scenario.firstGoldCall.2 = Return None
  /\ Scenario.secondGoldCall.2 = Return None
  /\ wire Scenario.firstGoldCall.1.2 = ["/gold"; "/gold"; "/gold"; "/gold"]
  /\ length (wire Scenario.secondGoldCall.1.2) = 8%nat
  /\ clock Scenario.firstGoldCall.1.2 - clock Scenario.worldGold = 6040
  /\ cache Scenario.secondGoldCall.1.1 = ∅.
Proof.
  split; [|split; [|split; [|split; [|split]]]].
  - vm_compute. reflexivity.
  - vm_compute. reflexivity.
  - vm_compute. reflexivity.
  - vm_compute. reflexivity.
  - vm_compute. reflexivity.
  - unfold Scenario.secondGoldCall, Scenario.firstGoldCall.
    rewrite !(proj1 (getCurrentPrice_never_caches _ _ _)). reflexivity.
Qed.

(** C7. When there is no fresh entry for the metal and the
    breaker-protected fetch throws, be it the breaker's rejection or the
    failure of the fetch, [getCurrentPrice] returns the data of the cache
    entry of the metal, however old, and null when there is none; it does
    not throw. *)
Theorem stale_entry_on_failure `{ToLowerCase} (metal : string) (c : MetalPriceApiClient.t)
    (w : World) (e : Thrown) :
  getCachedPrice (toLowerCase metal) false (clock w) c = None ->
  (protectedFetch (toLowerCase metal)
     (enforceRateLimit c w).1 (enforceRateLimit c w).2).2 = Throw e ->
  (getCurrentPrice metal c w).2
  = match cache c !! toLowerCase metal with
    | Some cached => Return (Some (entry_data cached))
    | None => Return None
    end.
Proof.
  intros Hmiss Hthrow. unfold getCurrentPrice. rewrite Hmiss.
  destruct (enforceRateLimit c w) as [c1 w1] eqn:E1.
  assert (cache c1 = cache c) as Hc1.
  { unfold enforceRateLimit in E1. by injection E1 as <- _. }
  simpl in Hthrow.
  pose proof (protectedFetch_throw_keeps_cache _ _ _ _ Hthrow) as Hc.
  destruct (protectedFetch (toLowerCase metal) c1 w1) as [[c2 w2] result].
  simpl in *. subst result. simpl.
  rewrite getCachedPrice_includeExpired, Hc, Hc1.
  by destruct (cache c !! toLowerCase metal).
Qed.

Lemma stale_entry_on_failure_witness :
  (getCurrentPrice "Gold" Scenario.metalClientWithOldGold
     Scenario.world404Later).2
  = Return (Some Scenario.oldGold).
Proof.
  rewrite (stale_entry_on_failure "Gold" Scenario.metalClientWithOldGold
             Scenario.world404Later
             (ApiError "Not Found" None (Some "UNKNOWN_ERROR")
                (DetailsThrown
                   (ApiError "Not Found" (Some 404) None (DetailsData None))))).
  - reflexivity.
  - vm_compute. reflexivity.
  - vm_compute. reflexivity.
Defined.

(** The same with the breaker open: the call is turned away, nothing goes
    on the wire, and the old price is returned. *)
Lemma stale_entry_on_rejection :
  (getCurrentPrice "gold" Scenario.metalClientOpen Scenario.world404Later).2
  = Return (Some Scenario.oldGold)
  /\ wire (getCurrentPrice "gold" Scenario.metalClientOpen
             Scenario.world404Later).1.2 = [].
Proof. split; vm_compute; reflexivity. Qed.

End MetalPriceApiClientFacts.

(** ** ExchangeRateApiClient *)

Section ExchangeRateApiClientFacts.
Import ExchangeRateApiClient.

(** C10. [convertCurrency(amount, c, c)] returns the amount with a rate of
    1 from the provider 'same-currency', whatever the client holds and
    whatever the network would answer; the client, its cache and breaker
    included, and the world, its wire included, are as before. *)
Theorem same_currency_is_identity (amount : Q) (cur : string)
    (c : ExchangeRateApiClient.t) (w : World) :
  convertCurrency amount cur cur c w
  = (c, w,
     Return (Some {| convertedAmount := amount;
                     conv_rate :=
                       {| fromCurrency := cur; toCurrency := cur; rate := 1;
                          lastUpdated := DateOfClock (clock w);
                          provider := "same-currency" |} |})).
Proof. unfold convertCurrency. by rewrite String.eqb_refl. Qed.

End ExchangeRateApiClientFacts.

(** ** EventBus *)

Section EventBusFacts.
Import EventBus.
Context {W : Type} (sleep : Z -> W -> W).

(** [publishSync] does not throw, whatever the handlers do: it awaits
    [Promise.allSettled]. *)
Lemma publishSync_returns (e : DomainEvent) (b : EventBus.t (W := W)) (w : W) :
  (publishSync e b w).2 = Return tt.
Proof.
  unfold publishSync. destruct (subscriptions b !! type e) as [[|s subs]|]; try done.
  destruct (executeAll b (s :: subs) e w). reflexivity.
Qed.

(** Delivery looks at the subscriptions and the options of the bus only. *)
Lemma executeAll_ext (b b' : EventBus.t (W := W)) subs e w :
  options b = options b' ->
  executeAll b subs e w = executeAll b' subs e w.
Proof.
  intros Ho. revert w. induction subs as [|s subs IH]; intros w; [done|].
  cbn [executeAll].
  replace (executeHandler b (handler s) e w)
    with (executeHandler b' (handler s) e w)
    by (unfold executeHandler; by rewrite Ho).
  destruct (executeHandler b' (handler s) e w) as [w1 r]. by rewrite IH.
Qed.

Lemma publishSync_ext (b b' : EventBus.t (W := W)) e w :
  subscriptions b = subscriptions b' -> options b = options b' ->
  publishSync e b w = publishSync e b' w.
Proof.
  intros Hs Ho. unfold publishSync. rewrite Hs.
  destruct (subscriptions b' !! type e) as [[|s subs]|]; try done.
  by rewrite (executeAll_ext b b').
Qed.

Lemma deliveredOnce_ext (b b' : EventBus.t (W := W)) q w :
  subscriptions b = subscriptions b' -> options b = options b' ->
  deliveredOnce b q w = deliveredOnce b' q w.
Proof.
  intros Hs Ho. unfold deliveredOnce. revert w.
  induction q as [|item q IH]; intros w; [done|].
  cbn [fold_left]. by rewrite (publishSync_ext b b'), IH.
Qed.

Lemma drain_step (steps : nat) (b : EventBus.t (W := W)) (w : W) :
  drain sleep (S steps) b w
  = match eventQueue b with
    | [] => Some (b, w)
    | item :: rest =>
        match publishSync (event item) (set_eventQueue rest b) w with
        | (w1, Return _) => drain sleep steps (set_eventQueue rest b) w1
        | (w1, Throw error) =>
            let '(b2, w2) :=
              handleEventError sleep error item (set_eventQueue rest b) w1 in
            drain sleep steps b2 w2
        end
    end.
Proof. reflexivity. Qed.

(** The loop of [processQueue] comes to an end after one iteration per
    queued event and one more: each event is delivered once, in queue
    order, and none is put back, whether its handlers threw or not. *)
Lemma drain_delivers_once (q : list QueueItem) :
  forall (b : EventBus.t (W := W)) (w : W) (extra : nat),
    eventQueue b = q ->
    drain sleep (S (length q + extra)) b w
    = Some (set_eventQueue [] b, deliveredOnce b q w).
Proof.
  induction q as [|item q IH]; intros b w extra Hq.
  - rewrite drain_step, Hq. by destruct b; simpl in *; subst.
  - rewrite drain_step, Hq.
    rewrite (publishSync_ext (set_eventQueue q b) b) by done.
    pose proof (publishSync_returns (event item) b w) as Hret.
    unfold deliveredOnce. cbn [fold_left].
    destruct (publishSync (event item) b w) as [w1 r]. simpl in Hret. subst r.
    cbn [fst length plus].
    rewrite (IH (set_eventQueue q b) w1 extra eq_refl).
    by rewrite (deliveredOnce_ext (set_eventQueue q b) b).
Qed.

(** [handleEventError] is the only place that puts an event back; the loop
    reaches it only when [publishSync] throws, which it does not. So
    [processQueue] ends with every queued event delivered once. *)
Lemma processQueue_delivers_once (b : EventBus.t (W := W)) (w : W) :
  processing b = false ->
  processQueue sleep (S (length (eventQueue b))) b w
  = Some (set_eventQueue [] b, deliveredOnce b (eventQueue b) w).
Proof.
  intros Hp. unfold processQueue. rewrite Hp.
  pose proof (drain_delivers_once (eventQueue b) (set_processing true b) w 0
                eq_refl) as H.
  rewrite Nat.add_0_r in H. rewrite H. f_equal. f_equal.
  - destruct b; simpl in *; by subst.
  - by apply deliveredOnce_ext.
Qed.

End EventBusFacts.

(** C1, on the code. The handler of A throws on its first call and would
    succeed on the next. With A and B queued, the loop delivers A once, the
    handler throwing, then B, and stops with the queue empty: A is not put
    back, nothing is waited for, and the only trace of the failure is the
    call of the error handler. The same when A and B are published one
    after the other. *)
Theorem failed_event_is_not_retried :
  EventBus.processQueue Scenario.nap 3
    (EventBus.enqueue Scenario.eventB
       (EventBus.enqueue Scenario.eventA Scenario.busXY))
    Scenario.ledger0
  = Some (Scenario.busXY, Scenario.ledgerAfter)
  /\ match EventBus.publish Scenario.nap 2 Scenario.eventA Scenario.busXY
            Scenario.ledger0 with
     | Some (b, l) => EventBus.publish Scenario.nap 2 Scenario.eventB b l
     | None => None
     end
     = Some (Scenario.busXY, Scenario.ledgerAfter).
Proof. split; vm_compute; reflexivity. Qed.

(** ** DIContainer *)

Section DIContainerFacts.
Import DIContainer.
Variable classes : string -> ClassInfo.

Lemma extends_refl c : extends c c.
Proof. split; [done|lia]. Qed.

Lemma extends_trans c1 c2 c3 : extends c1 c2 -> extends c2 c3 -> extends c1 c3.
Proof. intros [H1 H2] [H3 H4]. split; [eauto|lia]. Qed.

Lemma allocate_extends c : extends c (allocate c).1.
Proof. split; simpl; [done|lia]. Qed.

Lemma register_extends tok descriptor c : extends c (register tok descriptor c).
Proof. split; simpl; [done|lia]. Qed.

(** Storing an instance overwrites no singleton that was there when the
    look into the caches came back empty. *)
Lemma store_extends d i c c1 :
  cachedInstance d c = None -> extends c c1 -> extends c (store d i c1).
Proof.
  intros Hmiss [Hs Hn]. unfold store, cachedInstance in *.
  destruct (lifecycle d).
  - split; simpl; [|lia]. intros k v Hk.
    rewrite lookup_insert_ne; [eauto|]. intros <-. congruence.
  - split; simpl; [eauto|lia].
  - destruct (currentScope c1); split; simpl; eauto.
Qed.

Section Resolver.
Variable resolveToken : Token -> t -> option (t * Completion Instance).
Hypothesis resolveToken_extends :
  forall tok c c' r, resolveToken tok c = Some (c', r) -> extends c c'.

Lemma resolveAll_extends toks c c' r :
  resolveAll resolveToken toks c = Some (c', r) -> extends c c'.
Proof.
  revert c c' r. induction toks as [|tok toks IH]; intros c c' r; simpl.
  - intros [= <- _]. apply extends_refl.
  - destruct (resolveToken tok c) as [[c1 [i|e]]|] eqn:E1; [| |done].
    + destruct (resolveAll resolveToken toks c1) as [[c2 [more|e]]|] eqn:E2;
        [| |done]; intros [= <- _];
        eapply extends_trans; eauto.
    + intros [= <- _]. eauto.
Qed.

Lemma resolveDependencies_extends d c c' r :
  resolveDependencies classes resolveToken d c = Some (c', r) -> extends c c'.
Proof.
  unfold resolveDependencies. destruct (dependencies d).
  - apply resolveAll_extends.
  - destruct (constructor d); [apply resolveAll_extends|].
    intros [= <- _]. apply extends_refl.
Qed.

Lemma runFactory_extends b c c' m :
  runFactory resolveToken b c = Some (c', m) -> extends c c'.
Proof.
  revert c. induction b as [made|tok next IH]; intros c; simpl.
  - intros [= <- _]. apply extends_refl.
  - destruct (resolveToken tok c) as [[c1 result]|] eqn:E; [|done].
    intros H. eapply extends_trans; [by eapply resolveToken_extends|].
    by eapply IH.
Qed.

Lemma construct_extends d c c' r :
  construct classes resolveToken d c = Some (c', r) -> extends c c'.
Proof.
  unfold construct. destruct (registeredInstance d).
  { intros [= <- _]. apply extends_refl. }
  destruct (factory d) as [f|].
  - destruct (resolveDependencies classes resolveToken d c)
      as [[c1 [deps|e]]|] eqn:E; [| |done].
    + apply resolveDependencies_extends in E.
      destruct (runFactory resolveToken (f deps) c1) as [[c2 made]|] eqn:F;
        [|done].
      apply runFactory_extends in F.
      destruct made; intros [= <- _].
      * eapply extends_trans; [exact E|].
        eapply extends_trans; [exact F|apply allocate_extends].
      * by eapply extends_trans.
      * by eapply extends_trans.
    + intros [= <- _]. by apply resolveDependencies_extends in E.
  - destruct (constructor d) as [k|].
    + destruct (resolveDependencies classes resolveToken d c)
        as [[c1 [deps|e]]|] eqn:E; [| |done].
      * apply resolveDependencies_extends in E.
        destruct (body (classOf classes k) deps); intros [= <- _]; [|done..].
        eapply extends_trans; [exact E|apply allocate_extends].
      * intros [= <- _]. by apply resolveDependencies_extends in E.
    + intros [= <- _]. apply extends_refl.
Qed.

Lemma createInstance_extends d c c' r :
  createInstance classes resolveToken d c = Some (c', r) -> extends c c'.
Proof.
  unfold createInstance. destruct (cachedInstance d c) eqn:Hc.
  { intros [= <- _]. apply extends_refl. }
  destruct (construct classes resolveToken d c) as [[c1 [i|e]]|] eqn:E; [| |done].
  - intros [= <- _]. apply store_extends; [done|]. by apply construct_extends in E.
  - intros [= <- _]. by apply construct_extends in E.
Qed.

End Resolver.

(** A [resolve] that returns has kept every singleton there was and has
    freed no address. *)
Lemma resolve_extends depth tok c c' r :
  resolve classes depth tok c = Some (c', r) -> extends c c'.
Proof.
  revert tok c c' r. induction depth as [|depth IH]; intros tok c c' r; [done|].
  simpl. destruct (services c !! tok) as [d|] eqn:Hd.
  - apply createInstance_extends. exact IH.
  - destruct tok as [s|n description|name];
      try (intros [= <- _]; apply extends_refl).
    destruct (injectable (classOf classes name)).
    + intros H. apply IH in H.
      eapply extends_trans; [apply register_extends|exact H].
    + intros [= <- _]. apply extends_refl.
Qed.



(** No depth is enough for a token that feeds into tokens that feed into
    tokens without end: [resolve] goes from a token to its first dependency
    before it does anything else, and nothing on the way looks for a token
    met before. *)
Lemma closedUnder_diverges c (P : Token -> Prop) :
  closedUnder c P ->
  forall depth tok, P tok -> resolve classes depth tok c = None.
Proof.
  intros Hclosed. induction depth as [|depth IH]; intros tok Hp; [done|].
  destruct (Hclosed tok Hp)
    as (next & Hnext & d & rest & Hd & Hcache & Hinst & Hfc & Hdeps).
  simpl. rewrite Hd. unfold createInstance. rewrite Hcache.
  unfold construct. rewrite Hinst.
  assert (resolveDependencies classes (resolve classes depth) d c = None) as Hnone.
  { unfold resolveDependencies. rewrite Hdeps. simpl. by rewrite (IH next Hnext). }
  rewrite Hnone.
  destruct (factory d); [done|].
  destruct Hfc as [[f Hf]|[k Hk]]; [done|]. by rewrite Hk.
Qed.

(** C3, as the code has it. There is no cycle detection: when every token
    of a set is registered with a factory or a constructor, has no instance
    cached or registered, and has a token of the set as its first declared
    dependency, as the tokens of a cycle have, [resolve] of any of them
    does not return and does not throw at any recursion depth. *)
Theorem cycle_never_resolves (c : DIContainer.t) (P : Token -> Prop)
    (tok : Token) :
  closedUnder c P -> P tok ->
  forall depth, resolve classes depth tok c = None.
Proof. intros Hclosed Hp depth. by eapply closedUnder_diverges. Qed.



Lemma store_nextObject d i c : nextObject (store d i c) = nextObject c.
Proof.
  unfold store. destruct (lifecycle d); try done. by destruct (currentScope c).
Qed.

(** A factory ends in one of the ways it can end. *)
Lemma runFactory_endsIn (P : Made -> Prop) resolveToken b c c' m :
  endsIn P b -> runFactory resolveToken b c = Some (c', m) -> P m.
Proof.
  revert c. induction b as [made|tok next IH]; intros c Hends; simpl.
  - by intros [= _ <-].
  - destruct (resolveToken tok c) as [[c1 result]|]; [|done].
    apply IH. apply Hends.
Qed.

(** A descriptor that builds its value and finds nothing cached resolves to
    an object at an address that was free before the call and is taken
    after it. *)
Lemma resolve_uncached_fresh c tok d depth c1 v :
  services c !! tok = Some d -> cachedInstance d c = None ->
  buildsAnew classes d ->
  resolve classes depth tok c = Some (c1, Return v) ->
  exists a, v = Object a /\ (nextObject c <= a < nextObject c1)%nat.
Proof.
  intros Hd Hc (Hinst & Hfac & Hcon). destruct depth as [|depth]; [done|]. simpl.
  rewrite Hd. unfold createInstance. rewrite Hc.
  unfold construct. rewrite Hinst.
  destruct (factory d) as [f|] eqn:Hf.
  - destruct (resolveDependencies classes (resolve classes depth) d c)
      as [[c' [deps|e]]|] eqn:E; [| |done].
    + apply resolveDependencies_extends in E; [|apply resolve_extends].
      destruct E as [_ Hn].
      destruct (runFactory (resolve classes depth) (f deps) c')
        as [[c2 made]|] eqn:F; [|done].
      pose proof (runFactory_endsIn _ _ _ _ _ _ (Hfac f deps eq_refl) F) as Hnot.
      apply runFactory_extends in F; [|apply resolve_extends].
      destruct F as [_ Hn2].
      destruct made as [|i|e].
      * simpl. intros [= <- <-]. eexists. split; [done|].
        rewrite store_nextObject. simpl. lia.
      * by destruct (Hnot i).
      * done.
    + done.
  - destruct (constructor d) as [k|] eqn:Hk; [|done].
    destruct (resolveDependencies classes (resolve classes depth) d c)
      as [[c' [deps|e]]|] eqn:E; [| |done].
    + apply resolveDependencies_extends in E; [|apply resolve_extends].
      destruct E as [_ Hn].
      destruct (body (classOf classes k) deps) as [|a|e] eqn:Hb.
      * simpl. intros [= <- <-]. eexists. split; [done|].
        rewrite store_nextObject. simpl. lia.
      * by destruct (Hcon k deps a eq_refl eq_refl).
      * done.
    + done.
Qed.


(** A descriptor without a constructor of its own inherits [Object], and
    [new Object(dependency)] is the dependency: registered without factory
    and instance, such a token resolves to the object that its first
    dependency resolves to, and to no object of its own. *)
Lemma inherited_constructor_hands_dependency c tok d deps depth c1 a more :
  services c !! tok = Some d -> lifecycle d = transient ->
  registeredInstance d = None -> factory d = None ->
  constructor d = Some "Object" -> dependencies d = Some deps ->
  resolveAll (resolve classes depth) deps c = Some (c1, Return (Object a :: more)) ->
  resolve classes (S depth) tok c = Some (c1, Return (Object a)).
Proof.
  intros Hd Hl Hinst Hf Hk Hdeps Hres. simpl. rewrite Hd.
  unfold createInstance, cachedInstance. rewrite Hl.
  unfold construct. rewrite Hinst, Hf, Hk.
  unfold resolveDependencies. rewrite Hdeps, Hres. simpl.
  unfold store. by rewrite Hl.
Qed.



End DIContainerFacts.

Lemma cycle_never_resolves_witness :
  DIContainer.resolve Scenario.plainClasses 1000 (DIContainer.TString "A")
    Scenario.cycleAB = None.
Proof.
  apply (cycle_never_resolves Scenario.plainClasses Scenario.cycleAB
           (fun tok => tok = DIContainer.TString "A"
                       \/ tok = DIContainer.TString "B")).
  - intros tok [->| ->].
    + exists (DIContainer.TString "B"). split; [by right|].
      eexists _, _. split; [reflexivity|]. repeat split; try reflexivity.
      right. eexists. reflexivity.
    + exists (DIContainer.TString "A"). split; [by left|].
      eexists _, _. split; [reflexivity|]. repeat split; try reflexivity.
      right. eexists. reflexivity.
  - by left.
Defined.

(** C3, as the claim has it, fails: for "A" built from "B" and "B" built
    from "A", no recursion depth lets [resolve] come back, with a value or
    with an error. *)
Lemma cyclic_resolve_does_not_return :
  ~ exists depth outcome,
      DIContainer.resolve Scenario.plainClasses depth (DIContainer.TString "A")
        Scenario.cycleAB = Some outcome.
Proof.
  intros (depth & outcome & H).
  rewrite (closedUnder_diverges Scenario.plainClasses Scenario.cycleAB
             (fun tok => tok = DIContainer.TString "A"
                         \/ tok = DIContainer.TString "B")) in H; [done| |by left].
  intros tok [->| ->].
  - exists (DIContainer.TString "B"). split; [by right|].
    eexists _, _. split; [reflexivity|]. repeat split; try reflexivity.
    right. eexists. reflexivity.
  - exists (DIContainer.TString "A"). split; [by left|].
    eexists _, _. split; [reflexivity|]. repeat split; try reflexivity.
    right. eexists. reflexivity.
Qed.



(** * Further properties *)

(** ** CircuitBreaker: counters, window and overrides *)

Section CircuitBreakerMore.
Import CircuitBreaker.

Lemma onSuccess_counters now cb :
  config (onSuccess now cb) = config cb
  /\ successCount (onSuccess now cb) = successCount cb + 1
  /\ totalRequests (onSuccess now cb) = totalRequests cb
  /\ (failureCount (onSuccess now cb) = failureCount cb
      \/ failureCount (onSuccess now cb) = 0).
Proof.
  unfold onSuccess. simpl. destruct (state cb); simpl; repeat split; auto.
Qed.

Lemma enter_counters now cb cb1 :
  enter now cb = Some cb1 ->
  successCount cb1 = successCount cb /\ totalRequests cb1 = totalRequests cb
  /\ failureCount cb1 = failureCount cb
  /\ monitoringWindow cb1 = monitoringWindow cb /\ config cb1 = config cb.
Proof.
  unfold enter. destruct (state cb).
  - by intros [= <-].
  - destruct (shouldAttemptReset now cb); [|done]. by intros [= <-].
  - by intros [= <-].
Qed.

(** A call that runs with nothing in between is its head followed by its
    tail. *)
Lemma execute_as_steps {S T : Type} (now : S -> Z) (fn : S -> S * Completion T)
    (cb : CircuitBreaker.t) (s : S) (inFlight carried : nat) :
  is_Some (enter (now s) cb) ->
  step (Settled (now (fn s).1)
          (match (fn s).2 with Return _ => true | Throw _ => false end))
    (step (LetIn (now s))
       {| breaker := cb; inFlight := inFlight; carried := carried |})
  = {| breaker := (execute now fn cb s).1.1; inFlight := inFlight;
       carried := carried |}.
Proof.
  intros [cb1 Ha]. unfold execute. cbn [step breaker]. rewrite Ha.
  cbn [CircuitBreaker.inFlight breaker CircuitBreaker.carried].
  by destruct (fn s) as [s' [v|e]].
Qed.

(** The breakers of overlapping calls are among the reachable ones. *)
Lemma steps_reachable (cfg : CircuitBreakerConfig) (trace : list Step) :
  reachable cfg (breaker (steps trace (started cfg))).
Proof.
  unfold steps.
  assert (forall r, reachable cfg (breaker r) ->
                    reachable cfg
                      (breaker (fold_left (fun r s => step s r) trace r)))
    as Hall.
  { induction trace as [|s trace IH]; intros r Hr; [done|].
    cbn [fold_left]. apply IH.
    destruct s as [now|now ok| |now| |now]; cbn [step].
    - destruct (enter now (breaker r)) as [cb1|] eqn:Ha; [|done].
      by eapply reach_letIn.
    - destruct (inFlight r); [done|]. cbn [breaker].
      destruct ok; by constructor.
    - by constructor.
    - by constructor.
    - by constructor.
    - by constructor. }
  apply Hall. constructor.
Qed.

Lemma step_counters (s : Step) (r : Running) :
  0 <= successCount (breaker r) -> 0 <= failureCount (breaker r) ->
  0 <= totalRequests (breaker r) ->
  successCount (breaker r) + failureCount (breaker r) + Z.of_nat (inFlight r)
  <= totalRequests (breaker r) + Z.of_nat (carried r) ->
  0 <= successCount (breaker (step s r))
  /\ 0 <= failureCount (breaker (step s r))
  /\ 0 <= totalRequests (breaker (step s r))
  /\ successCount (breaker (step s r)) + failureCount (breaker (step s r))
     + Z.of_nat (inFlight (step s r))
     <= totalRequests (breaker (step s r)) + Z.of_nat (carried (step s r)).
Proof.
  intros Hs Hf Ht Hsum. destruct s as [now|now ok| |now| |now]; cbn [step].
  - destruct (enter now (breaker r)) as [cb1|] eqn:Ha; [|done].
    destruct (enter_counters _ _ _ Ha) as (Hs1 & Ht1 & Hf1 & _).
    cbn [breaker inFlight carried]. simpl. lia.
  - destruct (inFlight r) as [|others] eqn:Hin; [rewrite Hin; done|].
    cbn [breaker inFlight carried]. destruct ok.
    + destruct (onSuccess_counters now (breaker r)) as (_ & Hs' & Ht' & Hf').
      destruct Hf' as [Hf'|Hf']; lia.
    + destruct (onFailure_counters now (breaker r)) as (_ & Hf' & Hs' & Ht' & _).
      lia.
  - simpl. lia.
  - simpl. lia.
  - simpl. lia.
  - cbn [breaker inFlight carried]. unfold getFailureRate.
    destruct (monitoringWindow (cleanupOldEntries now (breaker r))); simpl; lia.
Qed.

(** X1. The counters of a breaker, with calls that overlap. In every
    breaker that a new one becomes, through calls whose heads and tails
    interleave in any way and through the other public methods, no counter
    is negative, and the successes and the failures counted since the
    failure count was last cleared, together with the calls in flight,
    exceed the requests let through by no more than the number of calls
    that were in flight at the last [reset]: by nothing, when no call was
    in flight then. *)
Theorem overlapping_counters (cfg : CircuitBreakerConfig) (trace : list Step) :
  0 <= successCount (breaker (steps trace (started cfg)))
  /\ 0 <= failureCount (breaker (steps trace (started cfg)))
  /\ 0 <= totalRequests (breaker (steps trace (started cfg)))
  /\ successCount (breaker (steps trace (started cfg)))
     + failureCount (breaker (steps trace (started cfg)))
     + Z.of_nat (inFlight (steps trace (started cfg)))
     <= totalRequests (breaker (steps trace (started cfg)))
        + Z.of_nat (carried (steps trace (started cfg))).
Proof.
  unfold steps.
  assert (forall r,
             0 <= successCount (breaker r) -> 0 <= failureCount (breaker r) ->
             0 <= totalRequests (breaker r) ->
             successCount (breaker r) + failureCount (breaker r)
             + Z.of_nat (inFlight r)
             <= totalRequests (breaker r) + Z.of_nat (carried r) ->
             let r' := fold_left (fun r s => step s r) trace r in
             0 <= successCount (breaker r') /\ 0 <= failureCount (breaker r')
             /\ 0 <= totalRequests (breaker r')
             /\ successCount (breaker r') + failureCount (breaker r')
                + Z.of_nat (inFlight r')
                <= totalRequests (breaker r') + Z.of_nat (carried r')) as Hall.
  { induction trace as [|s trace IH]; intros r Hs Hf Ht Hsum; [done|].
    cbn [fold_left].
    destruct (step_counters s r Hs Hf Ht Hsum) as (Hs' & Hf' & Ht' & Hsum').
    by apply IH. }
  apply Hall; simpl; lia.
Qed.

(** A [reset] while a call is in flight: the call succeeds afterwards and
    is counted as a success of a breaker that has counted no request. *)
Lemma overlapping_counters_witness :
  successCount
    (breaker (steps [LetIn 0; DoReset; Settled 5 true]
                (started Scenario.threeStrikes))) = 1
  /\ totalRequests
       (breaker (steps [LetIn 0; DoReset; Settled 5 true]
                   (started Scenario.threeStrikes))) = 0
  /\ successCount
       (breaker (steps [LetIn 0; DoReset; Settled 5 true]
                   (started Scenario.threeStrikes)))
     + failureCount
         (breaker (steps [LetIn 0; DoReset; Settled 5 true]
                     (started Scenario.threeStrikes)))
     + Z.of_nat
         (inFlight (steps [LetIn 0; DoReset; Settled 5 true]
                      (started Scenario.threeStrikes)))
     <= totalRequests
          (breaker (steps [LetIn 0; DoReset; Settled 5 true]
                      (started Scenario.threeStrikes)))
        + Z.of_nat
            (carried (steps [LetIn 0; DoReset; Settled 5 true]
                        (started Scenario.threeStrikes))).
Proof.
  split; [reflexivity|]. split; [reflexivity|].
  apply (overlapping_counters Scenario.threeStrikes
           [LetIn 0; DoReset; Settled 5 true]).
Defined.

Lemma filter_idempotent {A : Type} (f : A -> bool) (l : list A) :
  List.filter f (List.filter f l) = List.filter f l.
Proof.
  induction l as [|x l IH]; [done|]. simpl.
  destruct (f x) eqn:E; simpl; [rewrite E|]; by rewrite ?IH.
Qed.

Lemma cleanupOldEntries_within now cb : windowWithin now (cleanupOldEntries now cb).
Proof.
  unfold windowWithin, cleanupOldEntries. simpl.
  apply List.Forall_forall. intros entry Hin.
  apply List.filter_In in Hin. destruct Hin as [_ Hin]. lia.
Qed.

Lemma cleanupOldEntries_idempotent now cb :
  cleanupOldEntries now (cleanupOldEntries now cb) = cleanupOldEntries now cb.
Proof.
  unfold cleanupOldEntries, set_window. simpl. by rewrite filter_idempotent.
Qed.

Lemma failuresIn_le win : (failuresIn win <= length win)%nat.
Proof. unfold failuresIn. apply List.filter_length_le. Qed.

(** The comparison with 0.5 in [shouldOpenCircuit], on a window that is not
    empty. *)
Lemma rate_at_least_half (failures n : nat) :
  n <> 0%nat ->
  Qle_bool (1 # 2) (Qmake (Z.of_nat failures) (Pos.of_nat n)) = true
  <-> (n <= 2 * failures)%nat.
Proof.
  intros Hn. unfold Qle_bool. simpl.
  assert (Z.pos (Pos.of_nat n) = Z.of_nat n) as ->.
  { rewrite <- (Nat2Pos.id n) at 2 by done. by rewrite positive_nat_Z. }
  rewrite Z.leb_le. lia.
Qed.

(** X2. A success on a closed breaker leaves the failure count where it
    was: the threshold counts the failures since the breaker was last
    closed or reset, with or without successes in between. *)
Theorem success_keeps_failures {S T : Type} (now : S -> Z)
    (fn : S -> S * Completion T) (cb : CircuitBreaker.t) (s s' : S) (v : T) :
  state cb = closed ->
  fn s = (s', Return v) ->
  state (execute now fn cb s).1.1 = closed
  /\ failureCount (execute now fn cb s).1.1 = failureCount cb
  /\ successCount (execute now fn cb s).1.1 = successCount cb + 1.
Proof.
  intros Hs Hf. unfold execute, enter. rewrite Hs, Hf. simpl.
  unfold onSuccess. simpl. rewrite Hs. simpl. done.
Qed.

Lemma success_keeps_failures_witness :
  failureCount
    (execute fst Scenario.succeeding
       (execute fst Scenario.failing (new Scenario.threeStrikes)
          (1000, 0%nat)).1.1 (1005, 1%nat)).1.1 = 1
  /\ state Scenario.interleaved = open.
Proof.
  destruct (success_keeps_failures fst Scenario.succeeding
              (execute fst Scenario.failing (new Scenario.threeStrikes)
                 (1000, 0%nat)).1.1 (1005, 1%nat) (1010, 2%nat) tt)
    as (_ & H & _).
  - reflexivity.
  - reflexivity.
  - split; [rewrite H; reflexivity|reflexivity].
Defined.

(** X3. [getFailureRate] prunes before it divides: afterwards every entry
    of the window is newer than [now - monitoringPeriod], and the rate is
    the number of failures among these entries divided by their number,
    which lies between 0 and 1; it is 0 for an empty window. *)
Theorem getFailureRate_pruned (now : Z) (cb : CircuitBreaker.t) :
  windowWithin now (getFailureRate now cb).1
  /\ monitoringWindow (getFailureRate now cb).1
     = List.filter
         (fun entry => timestamp entry >? now - monitoringPeriod (config cb))
         (monitoringWindow cb)
  /\ ((getFailureRate now cb).2
      * inject_Z (Z.of_nat (length (monitoringWindow (getFailureRate now cb).1)))
      == inject_Z
           (Z.of_nat (failuresIn (monitoringWindow (getFailureRate now cb).1))))%Q
  /\ (0 <= (getFailureRate now cb).2 <= 1)%Q
  /\ (monitoringWindow (getFailureRate now cb).1 = [] ->
      (getFailureRate now cb).2 = 0%Q).
Proof.
  assert ((getFailureRate now cb).1 = cleanupOldEntries now cb) as Hcb.
  { unfold getFailureRate.
    by destruct (monitoringWindow (cleanupOldEntries now cb)). }
  rewrite Hcb. split; [apply cleanupOldEntries_within|]. split; [reflexivity|].
  unfold getFailureRate.
  destruct (monitoringWindow (cleanupOldEntries now cb)) as [|entry win].
  - simpl. split; [reflexivity|]. split; [|done].
    split; unfold Qle; simpl; lia.
  - cbn [snd].
    pose proof (failuresIn_le (entry :: win)) as Hle. unfold failuresIn in *.
    set (f := List.length (List.filter _ _)) in *.
    assert (Z.pos (Pos.of_nat (length (entry :: win)))
            = Z.of_nat (length (entry :: win))) as Hpos.
    { rewrite <- (Nat2Pos.id (length (entry :: win))) at 2 by done.
      by rewrite positive_nat_Z. }
    split; [|split; [|done]].
    + unfold Qeq, Qmult, inject_Z. cbn [Qnum Qden].
      rewrite Pos.mul_1_r, Hpos. lia.
    + split; unfold Qle; cbn [Qnum Qden].
      * lia.
      * rewrite Hpos. lia.
Qed.

(** The state after a failure is [open] or what it was. *)
Lemma onFailure_state now cb :
  state (onFailure now cb) = open \/ state (onFailure now cb) = state cb.
Proof.
  unfold onFailure.
  match goal with |- context [shouldOpenCircuit now ?x] =>
    pose proof (shouldOpenCircuit_fields now x) as H;
    destruct (shouldOpenCircuit now x) as [cb3 trip] end.
  simpl in H. destruct H as (_ & H2 & _).
  destruct trip; simpl; [by left|by right].
Qed.

(** The cases in which [onFailure] opens a breaker that is not open. *)
Lemma onFailure_open_cases (now : Z) (cb : CircuitBreaker.t) :
  state cb <> open ->
  state (onFailure now cb) = open
  <-> (failureThreshold (config cb) <= failureCount cb + 1
       \/ (10 <= length (monitoringWindow (addToMonitoringWindow now false cb))
           /\ length (monitoringWindow (addToMonitoringWindow now false cb))
              <= 2 * failuresIn
                       (monitoringWindow (addToMonitoringWindow now false cb)))%nat).
Proof.
  intros Hno. unfold onFailure.
  set (cb1 := {| config := config cb; state := state cb;
                 failureCount := failureCount cb + 1;
                 successCount := successCount cb;
                 totalRequests := totalRequests cb;
                 lastFailureTime := Some now;
                 nextRetryTime := nextRetryTime cb;
                 monitoringWindow := monitoringWindow cb |}).
  change (monitoringWindow (addToMonitoringWindow now false cb))
    with (monitoringWindow (addToMonitoringWindow now false cb1)).
  set (cb2 := addToMonitoringWindow now false cb1).
  assert (state cb2 = state cb) as Hs2 by reflexivity.
  assert (config cb2 = config cb) as Hc2 by reflexivity.
  assert (failureCount cb2 = failureCount cb + 1) as Hf2 by reflexivity.
  unfold shouldOpenCircuit. rewrite Hc2, Hf2.
  destruct (Z.geb_spec (failureCount cb + 1) (failureThreshold (config cb)))
    as [Hge|Hlt].
  - simpl. split; [intros _; left; lia|done].
  - unfold getFailureRate.
    assert (cleanupOldEntries now cb2 = cb2) as ->
      by apply cleanupOldEntries_idempotent.
    destruct (monitoringWindow cb2) as [|entry win] eqn:E.
    + cbn. split; [intros Ho; by destruct Hno|].
      intros [?|[? _]]; [lia|simpl in *; lia].
    + set (W := entry :: win) in *.
      destruct (Qle_bool (1 # 2) _ && _) eqn:Htrip.
      * simpl. split; [intros _|done]. right.
        apply andb_prop in Htrip. destruct Htrip as [Hrate Hlen].
        rewrite E in Hlen. apply rate_at_least_half in Hrate; [|done].
        fold (failuresIn W) in Hrate.
        apply Z.geb_le in Hlen. subst W. simpl in *. lia.
      * cbn [state]. split; [intros Ho; by destruct Hno|].
        intros [?|[Hlen Hrate]]; [lia|]. exfalso.
        apply (rate_at_least_half (failuresIn W)) in Hrate; [|done].
        unfold failuresIn in Hrate. rewrite Hrate in Htrip. rewrite E in Htrip.
        simpl in Htrip. rewrite Z.geb_leb in Htrip. apply Z.leb_gt in Htrip.
        subst W. simpl in *. lia.
Qed.

(** X4. When a failure opens the circuit. With [W] the window once the
    failure has been entered and the old entries dropped, a breaker that is
    not open is open after [onFailure] exactly when the failure count
    reaches the threshold, or [W] has at least 10 entries of which at least
    half are failures. *)
Theorem onFailure_opens_iff (now : Z) (cb : CircuitBreaker.t) :
  state cb <> open ->
  state (onFailure now cb) = open
  <-> (failureThreshold (config cb) <= failureCount cb + 1
       \/ (10 <= length (monitoringWindow (addToMonitoringWindow now false cb))
           /\ length (monitoringWindow (addToMonitoringWindow now false cb))
              <= 2 * failuresIn
                       (monitoringWindow (addToMonitoringWindow now false cb)))%nat).
Proof. exact (onFailure_open_cases now cb). Qed.

Lemma onFailure_opens_iff_witness :
  failureCount (onFailure 2000 Scenario.nineFailures) = 10
  /\ state (onFailure 2000 Scenario.nineFailures) = open.
Proof.
  split; [reflexivity|].
  apply (proj2 (onFailure_opens_iff 2000 Scenario.nineFailures
                  ltac:(vm_compute; discriminate))).
  right. vm_compute. split; apply Nat.leb_le; reflexivity.
Defined.

(** The manual overrides. After [forceOpen] at time [t0] a call before
    [t0 + resetTimeout] is turned away with breaker and caller state as
    they were, and a call from then on is let in as a probe; after
    [forceClosed] the next call is let in at whatever time, and the
    failure count is 0. [forceOpen] leaves the failure count alone. *)
Theorem forced_states {S T : Type} (now : S -> Z) (fn : S -> S * Completion T)
    (cb : CircuitBreaker.t) (t0 : Z) (s : S) :
  (now s < t0 + resetTimeout (config cb) ->
   execute now fn (forceOpen t0 cb) s
   = (forceOpen t0 cb, s, Throw (JsError openMessage)))
  /\ (t0 + resetTimeout (config cb) <= now s ->
      enter (now s) (forceOpen t0 cb)
      = Some (set_state half_open (forceOpen t0 cb)))
  /\ enter (now s) (forceClosed cb) = Some (forceClosed cb)
  /\ failureCount (forceOpen t0 cb) = failureCount cb
  /\ failureCount (forceClosed cb) = 0.
Proof.
  split; [|split; [|done]].
  - intros Hlt. apply execute_rejected. by eapply enter_rejects.
  - intros Hle. by eapply enter_half_open.
Qed.

Lemma forced_states_witness :
  execute fst Scenario.succeeding
    (forceOpen 5000 (new Scenario.threeStrikes)) (124999, 0%nat)
  = (forceOpen 5000 (new Scenario.threeStrikes), (124999, 0%nat),
     Throw (JsError openMessage)).
Proof.
  apply (proj1 (forced_states fst Scenario.succeeding
                  (new Scenario.threeStrikes) 5000 (124999, 0%nat))).
  simpl. lia.
Defined.

(** X5. A probe that fails. When an open breaker lets a call in after its
    retry time and the inner function throws, the failure count goes up by
    one; the breaker is open again, with a new retry time, when the count
    has reached the threshold, and otherwise stays as it is or opens: a
    breaker forced open with a count below the threshold, and fewer than 10
    entries in its window, is left half-open. *)
Theorem failed_probe {S T : Type} (now : S -> Z) (fn : S -> S * Completion T)
    (cb : CircuitBreaker.t) (s s' : S) (e : Thrown) (retryAt : Z) :
  state cb = open ->
  nextRetryTime cb = Some retryAt ->
  retryAt <= now s ->
  fn s = (s', Throw e) ->
  failureCount (execute now fn cb s).1.1 = failureCount cb + 1
  /\ (failureThreshold (config cb) <= failureCount cb + 1 ->
      state (execute now fn cb s).1.1 = open
      /\ nextRetryTime (execute now fn cb s).1.1
         = Some (now s' + resetTimeout (config cb)))
  /\ (failureCount cb + 1 < failureThreshold (config cb) ->
      (length (monitoringWindow cb) < 9)%nat ->
      state (execute now fn cb s).1.1 = half_open).
Proof.
  intros Hs Hn Hle Hf.
  pose proof (enter_half_open _ _ _ Hs Hn Hle) as Ha.
  rewrite (execute_throw _ _ _ _ _ _ _ Ha Hf). cbn [fst snd].
  set (cb1 := incrTotalRequests (set_state half_open cb)).
  split; [exact (proj1 (proj2 (onFailure_counters (now s') cb1)))|]. split.
  - intros Hthr. apply (onFailure_trips (now s') cb1). exact Hthr.
  - intros Hlt Hwin.
    destruct (onFailure_state (now s') cb1) as [Ho|Hsame]; [|exact Hsame].
    exfalso. apply (onFailure_open_cases (now s') cb1) in Ho; [|done].
    destruct Ho as [Hthr|[Hlen _]]; [simpl in Hthr; lia|].
    pose proof (List.filter_length_le
                  (fun entry => timestamp entry
                                >? now s' - monitoringPeriod (config cb))
                  (monitoringWindow cb ++
                   [{| success := false; timestamp := now s' |}])) as Hfl.
    rewrite List.length_app in Hfl. simpl in Hfl.
    change (monitoringWindow (addToMonitoringWindow (now s') false cb1))
      with (List.filter
              (fun entry => timestamp entry
                            >? now s' - monitoringPeriod (config cb))
              (monitoringWindow cb ++
               [{| success := false; timestamp := now s' |}])) in Hlen.
    lia.
Qed.

Lemma failed_probe_witness :
  state (execute fst Scenario.failing
           (forceOpen 5000 (new Scenario.threeStrikes)) (125000, 0%nat)).1.1
  = half_open.
Proof.
  destruct (failed_probe fst Scenario.failing
              (forceOpen 5000 (new Scenario.threeStrikes))
              (125000, 0%nat) (125005, 1%nat) (JsError "upstream down") 125000)
    as (_ & _ & H).
  - reflexivity.
  - reflexivity.
  - simpl. lia.
  - reflexivity.
  - apply H; simpl; lia.
Defined.

End CircuitBreakerMore.

(** ** CircuitBreakerFactory: the registry *)

Section CircuitBreakerFactoryMore.
Import CircuitBreaker CircuitBreakerFactory.

Lemma wellFormed_empty : wellFormed {| instances := ∅ |} {| cells := ∅; next := 0 |}.
Proof. split; intros *; simpl; by rewrite lookup_empty. Qed.

Lemma getInstance_fresh_eq name cfg f st :
  instances f !! name = None ->
  getInstance name cfg f st
  = ({| instances := <[name := next st]> (instances f) |},
     {| cells := <[next st := CircuitBreaker.new (default defaultConfig cfg)]>
                   (cells st);
        next := S (next st) |},
     next st).
Proof. intros H. unfold getInstance, alloc. by rewrite H. Qed.

Lemma getInstance_wellFormed name cfg f st :
  wellFormed f st ->
  wellFormed (getInstance name cfg f st).1.1 (getInstance name cfg f st).1.2.
Proof.
  intros [Hall Hinj]. destruct (instances f !! name) as [l|] eqn:Hn.
  - rewrite (getInstance_existing _ _ _ _ _ Hn). by split.
  - rewrite (getInstance_fresh_eq _ _ _ _ Hn). cbn [fst snd]. split; simpl.
    + intros n l. rewrite lookup_insert. case_decide as Hd.
      * intros [= <-]. split; [lia|]. rewrite lookup_insert_eq. eauto.
      * intros Hl. destruct (Hall _ _ Hl) as [Hlt Hcell]. split; [lia|].
        rewrite lookup_insert_ne by lia. done.
    + intros n1 n2 l. rewrite !lookup_insert.
      repeat case_decide; subst; try done.
      * intros [= <-] Hl. destruct (Hall _ _ Hl). lia.
      * intros Hl [= <-]. destruct (Hall _ _ Hl). lia.
      * apply Hinj.
Qed.

Lemma removeInstance_wellFormed name f st :
  wellFormed f st -> wellFormed (removeInstance name f).1 st.
Proof.
  intros [Hall Hinj]. split; unfold removeInstance; simpl.
  - intros n l Hl. apply lookup_delete_Some in Hl. destruct Hl as [_ Hl]. eauto.
  - intros n1 n2 l H1 H2. apply lookup_delete_Some in H1, H2.
    destruct H1 as [_ H1], H2 as [_ H2]. eauto.
Qed.

(** The name is known afterwards, under the location returned. *)
Lemma getInstance_named name cfg f st :
  instances (getInstance name cfg f st).1.1 !! name
  = Some (getInstance name cfg f st).2.
Proof.
  destruct (instances f !! name) as [l|] eqn:Hn.
  - by rewrite (getInstance_existing _ _ _ _ _ Hn).
  - rewrite (getInstance_fresh_eq _ _ _ _ Hn). apply lookup_insert_eq.
Qed.

(** The other names keep their breakers. *)
Lemma getInstance_other name other cfg f st :
  name <> other ->
  instances (getInstance name cfg f st).1.1 !! other = instances f !! other.
Proof.
  intros Hne. destruct (instances f !! name) as [l|] eqn:Hn.
  - by rewrite (getInstance_existing _ _ _ _ _ Hn).
  - rewrite (getInstance_fresh_eq _ _ _ _ Hn). by apply lookup_insert_ne.
Qed.

(** X6. The factory keeps itself and the store fitting together through
    [getInstance] and [removeInstance]: every named breaker is allocated,
    and two names never share a breaker; so the breakers of two different
    names are two different objects. *)
Theorem factory_wellFormed (f : CircuitBreakerFactory.t) (st : Store)
    (name other : string) (cfg cfg' : option CircuitBreakerConfig) :
  wellFormed f st ->
  wellFormed (getInstance name cfg f st).1.1 (getInstance name cfg f st).1.2
  /\ wellFormed (removeInstance name f).1 st
  /\ (name <> other ->
      (getInstance other cfg' (getInstance name cfg f st).1.1
         (getInstance name cfg f st).1.2).2
      <> (getInstance name cfg f st).2).
Proof.
  intros Hwf. split; [by apply getInstance_wellFormed|].
  split; [by apply removeInstance_wellFormed|].
  intros Hne Heq.
  pose proof (getInstance_wellFormed name cfg f st Hwf) as Hwf1.
  pose proof (getInstance_named name cfg f st) as Hname.
  destruct (getInstance name cfg f st) as [[f1 st1] l1]. cbn [fst snd] in *.
  pose proof (getInstance_wellFormed other cfg' f1 st1 Hwf1) as [_ Hinj2].
  pose proof (getInstance_named other cfg' f1 st1) as Hother.
  rewrite Heq in Hother.
  apply Hne. symmetry. eapply Hinj2; [exact Hother|].
  rewrite getInstance_other; [exact Hname|]. by intros ->.
Qed.

Lemma factory_wellFormed_witness :
  (getInstance "exchange-rates" None
     (getInstance "metal-prices" None Scenario.noBreakers Scenario.noCells).1.1
     (getInstance "metal-prices" None Scenario.noBreakers Scenario.noCells).1.2).2
  <> (getInstance "metal-prices" None Scenario.noBreakers Scenario.noCells).2.
Proof.
  apply (factory_wellFormed Scenario.noBreakers Scenario.noCells
           "metal-prices" "exchange-rates" None None wellFormed_empty).
  discriminate.
Defined.

(** X7. Removal and a new start. [removeInstance] reports whether the name
    was known: false, with the factory as it was, for a name it does not
    know, and true for one it knows. A [getInstance] after the removal of a
    known name builds a new breaker at a new place, holding the
    configuration now given, or the defaults 5, 60000 and 300000 when none
    is given; the breaker the name had before is still in the store as it
    was, for whoever holds it. *)
Theorem remove_then_get (f : CircuitBreakerFactory.t) (st : Store)
    (name : string) (cfg : option CircuitBreakerConfig) :
  wellFormed f st ->
  (instances f !! name = None ->
   (removeInstance name f).2 = false
   /\ instances (removeInstance name f).1 = instances f)
  /\ forall l old,
       instances f !! name = Some l ->
       cells st !! l = Some old ->
       (removeInstance name f).2 = true
       /\ (getInstance name cfg (removeInstance name f).1 st).2 <> l
       /\ cells (getInstance name cfg (removeInstance name f).1 st).1.2
            !! (getInstance name cfg (removeInstance name f).1 st).2
          = Some (CircuitBreaker.new (default defaultConfig cfg))
       /\ config
            <$> cells (getInstance name cfg (removeInstance name f).1 st).1.2
                !! (getInstance name cfg (removeInstance name f).1 st).2
          = Some (match cfg with
                  | Some given => given
                  | None => {| failureThreshold := 5; resetTimeout := 60000;
                               monitoringPeriod := 300000 |}
                  end)
       /\ cells (getInstance name cfg (removeInstance name f).1 st).1.2 !! l
          = Some old.
Proof.
  intros [Hall _]. split.
  { intros Hnone. unfold removeInstance. cbn [fst snd instances].
    rewrite Hnone. split.
    - apply bool_decide_eq_false. by intros [? [=]].
    - by apply delete_id. }
  intros l old Hname Hcell. destruct (Hall _ _ Hname) as [Hlt _].
  split.
  { unfold removeInstance. simpl. rewrite Hname. by apply bool_decide_eq_true. }
  rewrite getInstance_fresh_eq by (unfold removeInstance; simpl; apply lookup_delete_eq).
  cbn [fst snd cells]. split; [lia|]. rewrite lookup_insert_eq.
  split; [done|]. split; [by destruct cfg|].
  rewrite lookup_insert_ne by lia. done.
Qed.

Lemma remove_then_get_witness :
  config
    <$> cells (getInstance "metal-prices" (Some Scenario.lenient)
                 (removeInstance "metal-prices"
                    (getInstance "metal-prices" (Some Scenario.threeStrikes)
                       Scenario.noBreakers Scenario.noCells).1.1).1
                 (getInstance "metal-prices" (Some Scenario.threeStrikes)
                    Scenario.noBreakers Scenario.noCells).1.2).1.2
        !! (getInstance "metal-prices" (Some Scenario.lenient)
              (removeInstance "metal-prices"
                 (getInstance "metal-prices" (Some Scenario.threeStrikes)
                    Scenario.noBreakers Scenario.noCells).1.1).1
              (getInstance "metal-prices" (Some Scenario.threeStrikes)
                 Scenario.noBreakers Scenario.noCells).1.2).2
  = Some Scenario.lenient.
Proof.
  destruct (remove_then_get
              (getInstance "metal-prices" (Some Scenario.threeStrikes)
                 Scenario.noBreakers Scenario.noCells).1.1
              (getInstance "metal-prices" (Some Scenario.threeStrikes)
                 Scenario.noBreakers Scenario.noCells).1.2
              "metal-prices" (Some Scenario.lenient)) as [_ Hknown].
  - apply getInstance_wellFormed, wellFormed_empty.
  - destruct (Hknown 0%nat (CircuitBreaker.new Scenario.threeStrikes)
                eq_refl eq_refl) as (_ & _ & _ & Hconfig & _).
    exact Hconfig.
Defined.

End CircuitBreakerFactoryMore.

(** ** BaseApiClient: attempts, waiting and the shape of errors *)

Section BaseApiClientMore.
Import BaseApiClient.

Lemma transformResponse_id response : transformResponse response = response.
Proof. by destruct response. Qed.

Lemma send_world url w :
  wire (send url w).1 = (wire w ++ [url])%list
  /\ network (send url w).1 = network w
  /\ clock w <= clock (send url w).1.
Proof. unfold send. simpl. repeat split. lia. Qed.

Lemma clientRequest_world {R : Type} (me : Dispatch R) url w :
  wire (clientRequest me url w).1 = (wire w ++ [url])%list
  /\ network (clientRequest me url w).1 = network w
  /\ clock w <= clock (clientRequest me url w).1.
Proof.
  unfold clientRequest. pose proof (send_world url w) as H.
  destruct (send url w) as [w' [response|error]]; exact H.
Qed.

(** What a retry loop does to the wire: some number of requests to the one
    address, at least one when the loop runs at all, at most as many as the
    loop has iterations. *)
Lemma retryLoop_wire {R : Type} (me : Dispatch R) url rc :
  forall budget attempt lastError w,
    exists k,
      (k <= budget)%nat /\ (budget <> 0%nat -> k <> 0%nat)
      /\ wire (retryLoop me budget attempt rc (clientRequest me url) lastError w).1
         = (wire w ++ replicate k url)%list
      /\ network (retryLoop me budget attempt rc (clientRequest me url) lastError w).1
         = network w
      /\ clock w
         <= clock (retryLoop me budget attempt rc (clientRequest me url) lastError w).1.
Proof.
  induction budget as [|budget IH]; intros attempt lastError w.
  - exists 0%nat. simpl. rewrite app_nil_r. repeat split; [lia|done|lia].
  - simpl. destruct (clientRequest_world me url w) as (Hw & Hn & Hc).
    destruct (clientRequest me url w) as [w1 settled]. simpl in Hw, Hn, Hc.
    destruct (match settled with
              | Return response => onResult me response
              | Throw error => Throw error
              end) as [result|error].
    + exists 1%nat. simpl. repeat split; [lia|done..].
    + destruct ((attempt =? retries rc) || negb (mayRetry rc error)).
      * exists 1%nat. simpl. repeat split; [lia|done..].
      * destruct (IH (attempt + 1) (Some error)
                    (delay (retryDelay rc * (attempt + 1)) w1))
          as (k & Hk & _ & Hwire & Hnet & Hclock).
        exists (S k). rewrite Hwire, Hnet. simpl. rewrite Hw, Hn.
        rewrite <- app_assoc. simpl in *. repeat split; [lia|done|lia].
Qed.

(** X8. The number of attempts. A [get] puts on the wire requests to its
    own address only, appended to what was there: none when [retries] is
    negative, and otherwise at least one and at most [retries + 1],
    whatever the server answers and whatever the retry condition is. The
    clock does not go back. *)
Theorem get_attempts_bounded {R : Type} (me : Dispatch R) (rc : RetryConfig)
    (url : string) (w : World) :
  exists k,
    wire (get me rc url w).1 = (wire w ++ replicate k url)%list
    /\ network (get me rc url w).1 = network w
    /\ clock w <= clock (get me rc url w).1
    /\ (retries rc < 0 -> k = 0%nat)
    /\ (0 <= retries rc -> 1 <= Z.of_nat k <= retries rc + 1).
Proof.
  unfold get, executeWithRetry.
  destruct (retryLoop_wire me url rc (Z.to_nat (retries rc + 1)) 0 None w)
    as (k & Hk & Hpos & Hwire & Hnet & Hclock).
  exists k. split; [done|]. split; [done|]. split; [done|]. split; [lia|].
  intros Hr. assert (Z.to_nat (retries rc + 1) <> 0%nat) as Hne by lia.
  specialize (Hpos Hne). lia.
Qed.

Lemma get_replied (rc : RetryConfig) (url : string) (w : World)
    (response : AxiosResponse) :
  0 <= retries rc ->
  outcome (network w (wire w) url) = inl response ->
  get base rc url w = ((send url w).1, Return response).
Proof.
  intros Hr Hout. unfold get, executeWithRetry.
  destruct (Z.to_nat (retries rc + 1)) as [|budget] eqn:E; [lia|].
  simpl. unfold clientRequest, send. rewrite Hout. simpl.
  by rewrite !transformResponse_id.
Qed.

(** X9. A first reply that is a response: the plain client hands it back
    with its data, status, status text and headers, after one request and
    without waiting. *)
Theorem get_first_reply (rc : RetryConfig) (url : string) (w : World)
    (response : AxiosResponse) :
  0 <= retries rc ->
  outcome (network w (wire w) url) = inl response ->
  get base rc url w = ((send url w).1, Return response).
Proof. apply get_replied. Qed.

Lemma get_first_reply_witness :
  (get base Scenario.defaultRetry "/USD" Scenario.worldGold).2
  = Return {| data := MetalPayload Scenario.goldPayload; status := 200;
              statusText := "OK"; headers := [] |}
  /\ wire (get base Scenario.defaultRetry "/USD" Scenario.worldGold).1 = ["/USD"].
Proof.
  rewrite (get_first_reply Scenario.defaultRetry "/USD" Scenario.worldGold
             {| data := MetalPayload Scenario.goldPayload; status := 200;
                statusText := "OK"; headers := [] |}).
  - split; reflexivity.
  - vm_compute. discriminate.
  - reflexivity.
Defined.

(** What the interceptor rejects with has no [response] and no
    [request]. *)
Lemma transformError_shape error :
  prop_response (transformError error) = None
  /\ prop_request (transformError error) = false.
Proof.
  unfold transformError. destruct (prop_response error); [done|].
  by destruct (prop_request error).
Qed.

(** The plain client: whatever the loop throws has no status. *)
Lemma retryLoop_base_no_status url rc :
  forall budget attempt lastError w e,
    (forall x, lastError = Some x -> prop_response x = None) ->
    (retryLoop base budget attempt rc (clientRequest base url) lastError w).2
    = Throw e ->
    prop_status e = None.
Proof.
  induction budget as [|budget IH]; intros attempt lastError w e Hlast.
  - simpl. destruct lastError as [x|]; simpl.
    + intros [= <-]. unfold transformError. rewrite (Hlast x eq_refl).
      by destruct (prop_request x).
    + by intros [= <-].
  - simpl. unfold clientRequest at 1.
    destruct (send url w) as [w1 [response|error]]; simpl; [done|].
    destruct ((attempt =? retries rc) || negb (mayRetry rc (transformError error))).
    + simpl. intros [= <-]. apply transformError_twice.
    + apply IH. intros x [= <-]. apply transformError_shape.
Qed.

(** X10. The errors of the plain client carry no status. Whatever a [get]
    throws, for whatever reason, its [status] is undefined: the HTTP status
    of a failed response is found under [details] only. *)
Theorem get_error_has_no_status (rc : RetryConfig) (url : string) (w : World)
    (e : Thrown) :
  (get base rc url w).2 = Throw e -> prop_status e = None.
Proof.
  unfold get, executeWithRetry. apply retryLoop_base_no_status. by intros x [=].
Qed.

Lemma get_error_has_no_status_witness :
  prop_status
    (ApiError "Not Found" None (Some "UNKNOWN_ERROR")
       (DetailsThrown
          (ApiError "Not Found" (Some 404) None (DetailsData None))))
  = None.
Proof.
  apply (get_error_has_no_status Scenario.defaultRetry "/gold" Scenario.world404).
  vm_compute. reflexivity.
Defined.

Lemma alwaysFails_network w w' :
  network w' = network w -> alwaysFails w -> alwaysFails w'.
Proof. intros Hn Hf history url. rewrite Hn. apply Hf. Qed.

Lemma transformError_of_normalized error :
  transformError (transformError error)
  = ApiError (orStr (Some (prop_message (transformError error)))
                "Unknown error occurred")
      None (Some "UNKNOWN_ERROR") (DetailsThrown (transformError error)).
Proof.
  destruct (transformError_shape error) as [Hr Hq].
  unfold transformError at 1. by rewrite Hr, Hq.
Qed.

Lemma retryLoop_step {R : Type} (me : Dispatch R) budget attempt rc
    (operation : World -> World * Completion R) lastError w :
  retryLoop me (S budget) attempt rc operation lastError w
  = let '(w1, settled) := operation w in
    match match settled with
          | Return response => onResult me response
          | Throw error => Throw error
          end with
    | Return result => (w1, Return result)
    | Throw error =>
        if (attempt =? retries rc) || negb (mayRetry rc error) then
          (w1, throwLast (Some error))
        else
          retryLoop me budget (attempt + 1) rc operation (Some error)
            (delay (retryDelay rc * (attempt + 1)) w1)
    end.
Proof. reflexivity. Qed.

Lemma clientRequest_failing url w error :
  outcome (network w (wire w) url) = inr error ->
  clientRequest base url w = ((send url w).1, Throw (transformError error)).
Proof. intros H. unfold clientRequest, send. by rewrite H. Qed.

(** The loop of the plain client with the constructor's retry condition,
    against a network that never answers: the wire and the error. *)
Lemma retryLoop_failing url rc :
  retryCondition rc = Some defaultRetryCondition ->
  forall budget attempt lastError w,
    alwaysFails w ->
    Z.of_nat (S budget) = retries rc + 1 - attempt ->
    wire (retryLoop base (S budget) attempt rc (clientRequest base url)
            lastError w).1
    = (wire w ++ replicate (S budget) url)%list
    /\ exists inner,
         (retryLoop base (S budget) attempt rc (clientRequest base url)
            lastError w).2
         = Throw (ApiError (orStr (Some (prop_message inner))
                              "Unknown error occurred")
                    None (Some "UNKNOWN_ERROR") (DetailsThrown inner)).
Proof.
  intros Hcond.
  induction budget as [|budget IH]; intros attempt lastError w Hfail Hbudget;
    rewrite retryLoop_step;
    destruct (Hfail (wire w) url) as [error Herr];
    rewrite (clientRequest_failing _ _ _ Herr).
  - assert ((attempt =? retries rc) = true) as -> by (apply Z.eqb_eq; lia).
    cbn [orb fst snd throwLast]. split; [reflexivity|].
    eexists. apply f_equal. apply transformError_of_normalized.
  - assert ((attempt =? retries rc) = false) as -> by (apply Z.eqb_neq; lia).
    unfold mayRetry. rewrite Hcond, retryCondition_after_transformError.
    cbn [orb negb].
    destruct (IH (attempt + 1) (Some (transformError error))
                (delay (retryDelay rc * (attempt + 1)) (send url w).1))
      as (Hwire & Hthrow); [by eapply alwaysFails_network; [|exact Hfail]|lia|].
    split; [|exact Hthrow].
    rewrite Hwire. simpl. by rewrite <- app_assoc.
Qed.

(** The same loop: the time it takes. *)
Lemma retryLoop_failing_clock url rc :
  retryCondition rc = Some defaultRetryCondition ->
  0 <= retryDelay rc ->
  forall budget attempt lastError w,
    alwaysFails w ->
    0 <= attempt ->
    Z.of_nat (S budget) = retries rc + 1 - attempt ->
    retryDelay rc * (retries rc * (retries rc + 1) - attempt * (attempt + 1))
    <= 2 * (clock (retryLoop base (S budget) attempt rc
                     (clientRequest base url) lastError w).1 - clock w).
Proof.
  intros Hcond Hdelay.
  induction budget as [|budget IH]; intros attempt lastError w Hfail Hatt Hbudget;
    rewrite retryLoop_step;
    destruct (Hfail (wire w) url) as [error Herr];
    rewrite (clientRequest_failing _ _ _ Herr);
    pose proof (send_world url w) as (_ & _ & Hclock).
  - assert ((attempt =? retries rc) = true) as -> by (apply Z.eqb_eq; lia).
    cbn [orb fst snd]. assert (attempt = retries rc) as -> by lia. lia.
  - assert ((attempt =? retries rc) = false) as -> by (apply Z.eqb_neq; lia).
    unfold mayRetry. rewrite Hcond, retryCondition_after_transformError.
    cbn [orb negb].
    specialize (IH (attempt + 1) (Some (transformError error))
                  (delay (retryDelay rc * (attempt + 1)) (send url w).1)).
    assert (alwaysFails (delay (retryDelay rc * (attempt + 1)) (send url w).1))
      as Hfail' by (by eapply alwaysFails_network; [|exact Hfail]).
    specialize (IH Hfail' ltac:(lia) ltac:(lia)).
    assert (0 <= retryDelay rc * (attempt + 1)) as Hpos by nia.
    assert (clock (delay (retryDelay rc * (attempt + 1)) (send url w).1)
            = clock (send url w).1 + retryDelay rc * (attempt + 1)) as Hdel.
    { unfold delay. cbn [clock]. by rewrite Z.max_r. }
    rewrite Hdel in IH. nia.
Qed.

(** X11. A network that never answers. The plain client with the retry
    condition of the constructor, [retries] at least 0 and a [retryDelay]
    that is not negative sends exactly [retries + 1] requests, spends at
    least [retryDelay * (1 + 2 + ... + retries)] waiting, and throws the
    normalized error with the code 'UNKNOWN_ERROR', the error of the last
    attempt under [details]. This holds of every failure, a 4xx response
    as much as a lost connection. *)
Theorem get_failing_network (rc : RetryConfig) (url : string) (w : World) :
  alwaysFails w ->
  retryCondition rc = Some defaultRetryCondition ->
  0 <= retries rc ->
  0 <= retryDelay rc ->
  wire (get base rc url w).1
  = (wire w ++ replicate (Z.to_nat (retries rc + 1)) url)%list
  /\ retryDelay rc * (retries rc * (retries rc + 1))
     <= 2 * (clock (get base rc url w).1 - clock w)
  /\ exists inner,
       (get base rc url w).2
       = Throw (ApiError (orStr (Some (prop_message inner))
                            "Unknown error occurred")
                  None (Some "UNKNOWN_ERROR") (DetailsThrown inner)).
Proof.
  intros Hfail Hcond Hr Hd. unfold get, executeWithRetry.
  destruct (Z.to_nat (retries rc + 1)) as [|budget] eqn:E; [lia|].
  destruct (retryLoop_failing url rc Hcond budget 0 None w Hfail)
    as (H1 & H3); [lia|].
  pose proof (retryLoop_failing_clock url rc Hcond Hd budget 0 None w Hfail)
    as H2.
  split; [exact H1|]. split; [|exact H3].
  specialize (H2 ltac:(lia) ltac:(lia)). lia.
Qed.

Lemma get_failing_network_witness :
  wire (get base Scenario.defaultRetry "/gold" Scenario.world404).1
  = ["/gold"; "/gold"; "/gold"; "/gold"]
  /\ 12000 <= 2 * (clock (get base Scenario.defaultRetry "/gold"
                            Scenario.world404).1 - 0).
Proof.
  destruct (get_failing_network Scenario.defaultRetry "/gold" Scenario.world404)
    as (H1 & H2 & _).
  - intros history url. eexists. reflexivity.
  - reflexivity.
  - vm_compute. discriminate.
  - vm_compute. discriminate.
  - split; [exact H1|exact H2].
Defined.

(** X12. Zero is not a number of retries the constructor accepts: a client
    built with [retries: 0] gets the default 3 (as [retryDelay: 0] gets
    1000) and sends four requests to a network that never answers; set
    through [setRetryConfig], [retries: 0] is kept, and the same call sends
    one. *)
Theorem zero_retries (config : ApiClientConfig) (url : string) (w : World) :
  alwaysFails w ->
  cfg_retries config = Some 0 ->
  retries (newRetryConfig config) = 3
  /\ (cfg_retryDelay config = Some 0 -> retryDelay (newRetryConfig config) = 1000)
  /\ wire (get base (newRetryConfig config) url w).1
     = (wire w ++ [url; url; url; url])%list
  /\ wire (get base
             (setRetryConfig
                {| p_retries := Some 0; p_retryDelay := None;
                   p_retryCondition := None |}
                (newRetryConfig config)) url w).1
     = (wire w ++ [url])%list.
Proof.
  intros Hfail Hzero.
  assert (retries (newRetryConfig config) = 3) as H3.
  { unfold newRetryConfig. simpl. by rewrite Hzero. }
  split; [exact H3|]. split.
  { intros Hd. unfold newRetryConfig. simpl. by rewrite Hd. }
  split.
  - unfold get, executeWithRetry. rewrite H3.
    change (Z.to_nat (3 + 1)) with 4%nat.
    by destruct (retryLoop_failing url (newRetryConfig config) eq_refl
                   3%nat 0 None w Hfail ltac:(rewrite H3; reflexivity))
      as [-> _].
  - unfold get, executeWithRetry.
    change (Z.to_nat (retries (setRetryConfig _ _) + 1)) with 1%nat.
    by destruct (retryLoop_failing url
                   (setRetryConfig
                      {| p_retries := Some 0; p_retryDelay := None;
                         p_retryCondition := None |}
                      (newRetryConfig config)) eq_refl
                   0%nat 0 None w Hfail eq_refl)
      as [-> _].
Qed.

Lemma zero_retries_witness :
  wire (get base
          (newRetryConfig
             {| baseURL := "https://example.test"; timeout := None;
                cfg_retries := Some 0; cfg_retryDelay := None;
                cfg_headers := [] |}) "/gold" Scenario.world404).1
  = ["/gold"; "/gold"; "/gold"; "/gold"].
Proof.
  destruct (zero_retries
              {| baseURL := "https://example.test"; timeout := None;
                 cfg_retries := Some 0; cfg_retryDelay := None;
                 cfg_headers := [] |} "/gold" Scenario.world404)
    as (_ & _ & H & _).
  - intros history url. eexists. reflexivity.
  - reflexivity.
  - exact H.
Defined.

End BaseApiClientMore.

(** ** MetalPriceApiClient: rate limit, cache and breaker *)

Section MetalPriceApiClientMore.
Import BaseApiClient MetalPriceApiClient.

Lemma enforceRateLimit_wire c w : wire (enforceRateLimit c w).2 = wire w.
Proof.
  unfold enforceRateLimit. cbn [snd].
  by destruct (clock w - lastRequestTime c <? rateLimit c).
Qed.

(** X13. The spacing of requests. After [enforceRateLimit] the clock is at
    least [rateLimit] past the time of the request before, whichever metal
    that was for, and that time is now the clock; nothing is sent; and when
    the spacing was there already, nothing is waited for. *)
Theorem enforceRateLimit_spacing (c : MetalPriceApiClient.t) (w : World) :
  lastRequestTime c + rateLimit c <= clock (enforceRateLimit c w).2
  /\ clock w <= clock (enforceRateLimit c w).2
  /\ lastRequestTime (enforceRateLimit c w).1 = clock (enforceRateLimit c w).2
  /\ wire (enforceRateLimit c w).2 = wire w
  /\ (lastRequestTime c + rateLimit c <= clock w -> (enforceRateLimit c w).2 = w).
Proof.
  unfold enforceRateLimit. cbn [fst snd].
  destruct (Z.ltb_spec (clock w - lastRequestTime c) (rateLimit c)) as [Hlt|Hge].
  - unfold delay. cbn [clock wire lastRequestTime set_lastRequestTime].
    repeat split; try lia.
  - cbn [lastRequestTime set_lastRequestTime]. repeat split; lia.
Qed.

(** X14. What is cached is found again: for an hour, the last millisecond
    included, by a plain look-up, and for ever by a look-up that takes
    expired entries; the entries of the other metals are not touched. *)
Theorem cachePrice_getCachedPrice (metal other : string)
    (price : MetalPrice) (cachedAt now : Z) (includeExpired : bool)
    (c : MetalPriceApiClient.t) :
  (now - cachedAt <= 3600000 ->
   getCachedPrice metal false now (cachePrice metal price cachedAt c)
   = Some price)
  /\ (3600000 < now - cachedAt ->
      getCachedPrice metal false now (cachePrice metal price cachedAt c) = None)
  /\ getCachedPrice metal true now (cachePrice metal price cachedAt c)
     = Some price
  /\ (other <> metal ->
      getCachedPrice other includeExpired now (cachePrice metal price cachedAt c)
      = getCachedPrice other includeExpired now c).
Proof.
  unfold getCachedPrice, cachePrice. cbn [cache set_cache].
  rewrite lookup_insert_eq. cbn [entry_timestamp entry_data].
  unfold cacheTimeout. repeat split.
  - intros H. destruct (Z.gtb_spec (now - cachedAt) (60 * 60 * 1000)); [lia|done].
  - intros H. destruct (Z.gtb_spec (now - cachedAt) (60 * 60 * 1000)); [done|lia].
  - by rewrite andb_false_r.
  - intros Hne. by rewrite lookup_insert_ne.
Qed.

Lemma cachePrice_getCachedPrice_witness :
  getCachedPrice "gold" false 3600000 Scenario.metalClientWithOldGold
  = Some Scenario.oldGold
  /\ getCachedPrice "gold" false 3600001 Scenario.metalClientWithOldGold = None.
Proof.
  destruct (cachePrice_getCachedPrice "gold" "silver" Scenario.oldGold 0
              3600000 false Scenario.metalClient) as (H1 & _).
  destruct (cachePrice_getCachedPrice "gold" "silver" Scenario.oldGold 0
              3600001 false Scenario.metalClient) as (_ & H2 & _).
  split; [apply H1; lia|apply H2; lia].
Defined.

(** X15. A fresh entry answers the call. When the cache holds an entry for
    the metal, under its lower-case name, that is at most an hour old,
    [getCurrentPrice] returns its data and leaves client and world as they
    were: no request, no waiting, nothing for the breaker to see. Two
    spellings that [toLowerCase] takes to the same name get the same
    answer, in every state of client and world. *)
Theorem getCurrentPrice_fresh_hit `{ToLowerCase} (metal : string) (c : MetalPriceApiClient.t)
    (w : World) (cached : CacheEntry) :
  cache c !! toLowerCase metal = Some cached ->
  clock w - entry_timestamp cached <= 3600000 ->
  getCurrentPrice metal c w = (c, w, Return (Some (entry_data cached)))
  /\ forall spelling c' w',
       toLowerCase spelling = toLowerCase metal ->
       getCurrentPrice spelling c' w' = getCurrentPrice metal c' w'.
Proof.
  intros Hc Hage.
  assert (getCachedPrice (toLowerCase metal) false (clock w) c
          = Some (entry_data cached)) as Hhit.
  { unfold getCachedPrice, cacheTimeout. rewrite Hc.
    destruct (Z.gtb_spec (clock w - entry_timestamp cached) (60 * 60 * 1000));
      [lia|done]. }
  split.
  - unfold getCurrentPrice. by rewrite Hhit.
  - intros spelling c' w' Hsame. unfold getCurrentPrice. by rewrite Hsame.
Qed.

Lemma getCurrentPrice_fresh_hit_witness :
  getCurrentPrice "GOLD" Scenario.metalClientWithOldGold Scenario.worldGold
  = (Scenario.metalClientWithOldGold, Scenario.worldGold,
     Return (Some Scenario.oldGold)).
Proof.
  apply (getCurrentPrice_fresh_hit "GOLD" Scenario.metalClientWithOldGold
           Scenario.worldGold
           {| entry_data := Scenario.oldGold; entry_timestamp := 0 |}).
  - reflexivity.
  - simpl. lia.
Defined.

(** [getAndTransform] throws, like [get]. *)
Lemma getAndTransform_throws `{ToLowerCase} url c w :
  exists e, (getAndTransform url c w).2 = Throw e.
Proof.
  unfold getAndTransform.
  destruct (get_rejects (retryConfig c) url w) as (e & He & _).
  destruct (get self (retryConfig c) url w) as [w1 got]. simpl in He.
  subst got. eauto.
Qed.

(** X16. [getHistoricalPrice] never returns a price. For a valid date it
    returns null, for every metal and whatever the server sends, and leaves
    the cache alone; for an invalid date it throws the [RangeError] of
    [toISOString], with client and world as they were: the date string is
    computed outside the [try]. *)
Theorem getHistoricalPrice_null `{ToLowerCase} (metal : string)
    (c : MetalPriceApiClient.t) (w : World) :
  (forall iso,
      (getHistoricalPrice metal (DateWithISO iso) c w).2 = Return None
      /\ cache (getHistoricalPrice metal (DateWithISO iso) c w).1.1 = cache c)
  /\ getHistoricalPrice metal InvalidDate c w
     = (c, w, Throw (RangeError "Invalid time value")).
Proof.
  split; [|reflexivity]. intros iso.
  unfold getHistoricalPrice, CircuitBreaker.execute. cbn [toISOString].
  destruct (CircuitBreaker.enter _ _) as [cb1|]; [|done].
  unfold fetchHistorical.
  destruct (getAndTransform_throws
              ("/historical/" +:+ toLowerCase metal +:+ "?date="
               +:+ splitFirst "T" iso)
              c w) as [e He].
  destruct (getAndTransform _ c w) as [w' fetched]. simpl in He. subst fetched.
  done.
Qed.

Lemma enforceRateLimit_keeps c w :
  circuitBreaker (enforceRateLimit c w).1 = circuitBreaker c
  /\ cache (enforceRateLimit c w).1 = cache c.
Proof. by unfold enforceRateLimit. Qed.

(** The protected fetch of a call that the breaker lets in ends in
    [onFailure]. *)
Lemma protectedFetch_entered `{ToLowerCase} metal c w cb1 :
  CircuitBreaker.enter (clock w) (circuitBreaker c) = Some cb1 ->
  exists w',
    (protectedFetch metal c w).1.2 = w'
    /\ circuitBreaker (protectedFetch metal c w).1.1
       = CircuitBreaker.onFailure (clock w')
           (CircuitBreaker.incrTotalRequests cb1).
Proof.
  intros Ha. unfold protectedFetch, CircuitBreaker.execute. cbn [snd].
  rewrite Ha. destruct (fetchAndCache_throws metal c w) as (w' & e & ->).
  exists w'. done.
Qed.

(** X17. Every fetch counts as a failure. A [getCurrentPrice] that finds no
    fresh entry and is let in by the breaker leaves the breaker with one
    failure more, whatever the server has answered, a well-formed price
    with status 200 included; with the count at the threshold the breaker
    is open afterwards. *)
Theorem metal_fetch_counts_failure `{ToLowerCase} (metal : string) (c : MetalPriceApiClient.t)
    (w : World) (cb1 : CircuitBreaker.t) :
  getCachedPrice (toLowerCase metal) false (clock w) c = None ->
  CircuitBreaker.enter (clock (enforceRateLimit c w).2) (circuitBreaker c)
  = Some cb1 ->
  CircuitBreaker.failureCount (circuitBreaker (getCurrentPrice metal c w).1.1)
  = CircuitBreaker.failureCount (circuitBreaker c) + 1
  /\ (CircuitBreaker.failureThreshold
        (CircuitBreaker.config (circuitBreaker c))
      <= CircuitBreaker.failureCount (circuitBreaker c) + 1 ->
      CircuitBreaker.state (circuitBreaker (getCurrentPrice metal c w).1.1)
      = CircuitBreaker.open).
Proof.
  intros Hmiss Ha. unfold getCurrentPrice. rewrite Hmiss.
  destruct (enforceRateLimit_keeps c w) as [Hcb _].
  destruct (enforceRateLimit c w) as [c1 w1]. cbn [fst snd] in *.
  rewrite <- Hcb in Ha.
  destruct (protectedFetch_entered (toLowerCase metal) c1 w1 cb1 Ha)
    as (w' & _ & Hbreaker).
  destruct (protectedFetch (toLowerCase metal) c1 w1) as [[c2 w2] result].
  cbn [fst snd] in *.
  assert (circuitBreaker
            (match result with
             | Return price => (c2, w2, Return price)
             | Throw _ =>
                 (c2, w2,
                  Return (getCachedPrice (toLowerCase metal) true (clock w2) c2))
             end).1.1 = circuitBreaker c2) as -> by (by destruct result).
  rewrite Hbreaker.
  destruct (enter_not_open _ _ _ Ha) as (_ & Hcfg & Hfc & _).
  destruct (onFailure_counters (clock w') (CircuitBreaker.incrTotalRequests cb1))
    as (_ & Hf & _).
  split.
  - rewrite Hf. simpl. by rewrite Hfc, Hcb.
  - intros Hthr.
    apply (onFailure_trips (clock w') (CircuitBreaker.incrTotalRequests cb1)).
    simpl. by rewrite Hcfg, Hfc, Hcb.
Qed.

Lemma metal_fetch_counts_failure_witness :
  CircuitBreaker.failureCount
    (circuitBreaker
       (getCurrentPrice "gold" Scenario.metalClient Scenario.worldGold).1.1)
  = 1.
Proof.
  destruct (metal_fetch_counts_failure "gold" Scenario.metalClient
              Scenario.worldGold
              (CircuitBreaker.new MetalPriceApiClient.breakerConfig))
    as [H _].
  - reflexivity.
  - reflexivity.
  - exact H.
Defined.

(** X18. An open breaker keeps the client off the network. With no fresh
    entry for the metal and the breaker open until after the rate limit
    has been waited for, [getCurrentPrice] sends nothing, leaves the breaker
    as it is, and returns the entry the cache has for the metal, however
    old, or null. *)
Theorem open_breaker_no_request `{ToLowerCase} (metal : string) (c : MetalPriceApiClient.t)
    (w : World) (retryAt : Z) :
  getCachedPrice (toLowerCase metal) false (clock w) c = None ->
  CircuitBreaker.state (circuitBreaker c) = CircuitBreaker.open ->
  CircuitBreaker.nextRetryTime (circuitBreaker c) = Some retryAt ->
  clock (enforceRateLimit c w).2 < retryAt ->
  wire (getCurrentPrice metal c w).1.2 = wire w
  /\ circuitBreaker (getCurrentPrice metal c w).1.1 = circuitBreaker c
  /\ (getCurrentPrice metal c w).2
     = Return (entry_data <$> cache c !! toLowerCase metal).
Proof.
  intros Hmiss Hs Hn Hlt. unfold getCurrentPrice. rewrite Hmiss.
  destruct (enforceRateLimit_keeps c w) as [Hcb Hcache].
  pose proof (enforceRateLimit_wire c w) as Hwire.
  destruct (enforceRateLimit c w) as [c1 w1]. cbn [fst snd] in *.
  unfold protectedFetch, CircuitBreaker.execute. cbn [snd].
  rewrite (enter_rejects (clock w1) (circuitBreaker c1) retryAt)
    by (rewrite ?Hcb; done).
  cbn [fst snd]. rewrite getCachedPrice_includeExpired.
  cbn [cache set_circuitBreaker circuitBreaker]. by rewrite Hcache, Hcb.
Qed.

Lemma open_breaker_no_request_witness :
  wire (getCurrentPrice "gold" Scenario.metalClientOpen
          Scenario.world404Later).1.2 = [].
Proof.
  destruct (open_breaker_no_request "gold" Scenario.metalClientOpen
              Scenario.world404Later 7320000) as (H & _).
  - reflexivity.
  - reflexivity.
  - reflexivity.
  - vm_compute. reflexivity.
  - exact H.
Defined.

End MetalPriceApiClientMore.

(** ** ExchangeRateApiClient: the cache, the fallbacks and the bulk lookup *)

Section ExchangeRateApiClientMore.
Import BaseApiClient ExchangeRateApiClient.

Lemma get_base_no_status rc url w e :
  (get base rc url w).2 = Throw e -> prop_status e = None.
Proof.
  unfold get, executeWithRetry. apply retryLoop_base_no_status. by intros x [=].
Qed.

Lemma getCachedRate_includeExpired key now c :
  getCachedRate key true now c = entry_data <$> cache c !! key.
Proof.
  unfold getCachedRate. destruct (cache c !! key); simpl; [|done].
  by rewrite andb_false_r.
Qed.

(** X19. The fallback by way of the base currency is never taken. Whatever
    [fetchExchangeRate] returns comes from the direct request: a rate it
    returns has the provider 'exchange-rate-api' and is not zero, and the
    world afterwards is the world after that one [get]. The status that
    would send it to [fetchRateViaBase] is never on the error it catches. *)
Theorem fetchExchangeRate_direct_only (from to : string)
    (c : ExchangeRateApiClient.t) (w : World) :
  (fetchExchangeRate from to c w).1
  = (get base (retryConfig c) ("/" +:+ from +:+ "?symbols=" +:+ to) w).1
  /\ forall r,
       (fetchExchangeRate from to c w).2 = Return (Some r) ->
       provider r = "exchange-rate-api"
       /\ fromCurrency r = from /\ toCurrency r = to
       /\ Qeq_bool (rate r) 0 = false.
Proof.
  unfold fetchExchangeRate.
  pose proof (get_base_no_status (retryConfig c)
                ("/" +:+ from +:+ "?symbols=" +:+ to) w) as Hstatus.
  destruct (get base (retryConfig c) ("/" +:+ from +:+ "?symbols=" +:+ to) w)
    as [w1 [response|error]]; cbn [fst snd] in *.
  - unfold rateIn. destruct (data response) as [p|p|raw]; cbn.
    + split; [done|]. by intros r [=].
    + unfold truthy. destruct (rates p !! to) as [q|]; cbn.
      * destruct (Qeq_bool q 0) eqn:Hq; cbn.
        -- split; [done|]. by intros r [=].
        -- split; [done|]. intros r [= <-]. by cbn.
      * split; [done|]. by intros r [=].
    + split; [done|]. by intros r [=].
  - rewrite (Hstatus error eq_refl). cbn. split; [done|]. by intros r [=].
Qed.

(** What a successful direct request makes of [fetchAndCache]. *)
Lemma fetchAndCache_replied from to c w response p r :
  0 <= retries (retryConfig c) ->
  outcome (network w (wire w) ("/" +:+ from +:+ "?symbols=" +:+ to))
  = inl response ->
  data response = RatesPayload p ->
  rates p !! to = Some r ->
  Qeq_bool r 0 = false ->
  fetchAndCache from to (from +:+ "-" +:+ to) (c, w)
  = ((cacheRate (from +:+ "-" +:+ to)
        {| fromCurrency := from; toCurrency := to; rate := r;
           lastUpdated := DateOfString (er_date p);
           provider := "exchange-rate-api" |}
        (clock (send ("/" +:+ from +:+ "?symbols=" +:+ to) w).1) c,
      (send ("/" +:+ from +:+ "?symbols=" +:+ to) w).1),
     Return (Some {| fromCurrency := from; toCurrency := to; rate := r;
                     lastUpdated := DateOfString (er_date p);
                     provider := "exchange-rate-api" |})).
Proof.
  intros Hr Hout Hdata Hrate Hnz. unfold fetchAndCache, fetchExchangeRate.
  rewrite (get_replied _ _ _ _ Hr Hout).
  unfold rateIn, dateIn, truthy. rewrite Hdata, Hrate, Hnz. reflexivity.
Qed.

(** X20. The cache of the exchange-rate client. A call that finds no fresh
    entry, is let in by the breaker and gets a response with a rate for the
    pair returns that rate after one request, and caches it: every call for
    the pair in the hour that follows returns the same rate and leaves
    client and world as they are. *)
Theorem getExchangeRate_caches (from to : string) (c : ExchangeRateApiClient.t)
    (w : World) (cb1 : CircuitBreaker.t) (response : AxiosResponse)
    (p : ExchangeRateApiResponse) (r : Q) :
  getCachedRate (from +:+ "-" +:+ to) false (clock w) c = None ->
  CircuitBreaker.enter (clock w) (circuitBreaker c) = Some cb1 ->
  0 <= retries (retryConfig c) ->
  outcome (network w (wire w) ("/" +:+ from +:+ "?symbols=" +:+ to))
  = inl response ->
  data response = RatesPayload p ->
  rates p !! to = Some r ->
  Qeq_bool r 0 = false ->
  (getExchangeRate from to c w).2
  = Return (Some {| fromCurrency := from; toCurrency := to; rate := r;
                    lastUpdated := DateOfString (er_date p);
                    provider := "exchange-rate-api" |})
  /\ wire (getExchangeRate from to c w).1.2
     = (wire w ++ ["/" +:+ from +:+ "?symbols=" +:+ to])%list
  /\ forall w2,
       clock w2 - clock (getExchangeRate from to c w).1.2 <= 3600000 ->
       getExchangeRate from to (getExchangeRate from to c w).1.1 w2
       = ((getExchangeRate from to c w).1.1, w2,
          (getExchangeRate from to c w).2).
Proof.
  intros Hmiss Ha Hr Hout Hdata Hrate Hnz.
  unfold getExchangeRate at 1 2 3 5 6 7. rewrite Hmiss.
  unfold CircuitBreaker.execute. cbn [snd]. rewrite Ha.
  rewrite (fetchAndCache_replied _ _ _ _ _ _ _ Hr Hout Hdata Hrate Hnz).
  cbn [fst snd]. split; [done|]. split; [done|].
  intros w2 Hage. unfold getExchangeRate.
  set (fetched := {| fromCurrency := from; toCurrency := to; rate := r;
                     lastUpdated := DateOfString (er_date p);
                     provider := "exchange-rate-api" |}).
  assert (getCachedRate (from +:+ "-" +:+ to) false (clock w2)
            (set_circuitBreaker
               (CircuitBreaker.onSuccess
                  (clock (send ("/" +:+ from +:+ "?symbols=" +:+ to) w).1)
                  (CircuitBreaker.incrTotalRequests cb1))
               (cacheRate (from +:+ "-" +:+ to) fetched
                  (clock (send ("/" +:+ from +:+ "?symbols=" +:+ to) w).1) c))
          = Some fetched) as ->; [|done].
  unfold getCachedRate, cacheRate, cacheTimeout.
  cbn [cache set_cache set_circuitBreaker]. rewrite lookup_insert_eq.
  cbn [entry_timestamp entry_data].
  destruct (Z.gtb_spec
              (clock w2 - clock (send ("/" +:+ from +:+ "?symbols=" +:+ to) w).1)
              (60 * 60 * 1000)); [lia|done].
Qed.

Lemma getExchangeRate_caches_witness :
  (getExchangeRate "USD" "EUR" Scenario.exchangeClient Scenario.worldRates).2
  = Return (Some Scenario.dollarToEuro)
  /\ wire (getExchangeRate "USD" "EUR" Scenario.exchangeClient
             Scenario.worldRates).1.2 = ["/USD?symbols=EUR"].
Proof.
  destruct (getExchangeRate_caches "USD" "EUR" Scenario.exchangeClient
              Scenario.worldRates
              (CircuitBreaker.new ExchangeRateApiClient.breakerConfig)
              Scenario.ratesResponse Scenario.ratesPayload (9 # 10)%Q)
    as (H1 & H2 & _).
  - reflexivity.
  - reflexivity.
  - vm_compute. discriminate.
  - reflexivity.
  - reflexivity.
  - vm_compute. reflexivity.
  - reflexivity.
  - split; [exact H1|exact H2].
Defined.

Lemma get_failing rc url w :
  alwaysFails w ->
  retryCondition rc = Some defaultRetryCondition ->
  0 <= retries rc ->
  exists w1 e,
    get base rc url w = (w1, Throw e)
    /\ prop_status e = None
    /\ wire w1 = (wire w ++ replicate (Z.to_nat (retries rc + 1)) url)%list.
Proof.
  intros Hfail Hcond Hr. unfold get, executeWithRetry.
  destruct (Z.to_nat (retries rc + 1)) as [|budget] eqn:E; [lia|].
  destruct (retryLoop_failing url rc Hcond budget 0 None w Hfail)
    as (Hwire & inner & Hthrow); [lia|].
  destruct (retryLoop base (S budget) 0 rc (clientRequest base url) None w)
    as [w1 result]. cbn [fst snd] in *. subst result.
  by eexists _, _.
Qed.

(** X21. The stale entry of the exchange-rate client. Against a network
    that never answers, a call that finds no fresh entry returns the data
    of the entry the cache has for the pair, however old, or null, and
    leaves the cache as it is; when the breaker lets the call in, it has
    cost [retries + 1] requests and one failure on the breaker. *)
Theorem getExchangeRate_failing_network (from to : string)
    (c : ExchangeRateApiClient.t) (w : World) :
  alwaysFails w ->
  retryCondition (retryConfig c) = Some defaultRetryCondition ->
  0 <= retries (retryConfig c) ->
  getCachedRate (from +:+ "-" +:+ to) false (clock w) c = None ->
  (getExchangeRate from to c w).2
  = Return (entry_data <$> cache c !! (from +:+ "-" +:+ to))
  /\ cache (getExchangeRate from to c w).1.1 = cache c
  /\ forall cb1,
       CircuitBreaker.enter (clock w) (circuitBreaker c) = Some cb1 ->
       wire (getExchangeRate from to c w).1.2
       = (wire w ++ replicate (Z.to_nat (retries (retryConfig c) + 1))
                      ("/" +:+ from +:+ "?symbols=" +:+ to))%list
       /\ CircuitBreaker.failureCount
            (circuitBreaker (getExchangeRate from to c w).1.1)
          = CircuitBreaker.failureCount (circuitBreaker c) + 1.
Proof.
  intros Hfail Hcond Hr Hmiss. unfold getExchangeRate. rewrite Hmiss.
  unfold CircuitBreaker.execute. cbn [snd].
  destruct (get_failing (retryConfig c) ("/" +:+ from +:+ "?symbols=" +:+ to)
              w Hfail Hcond Hr) as (w1 & e & Hget & Hstatus & Hwire).
  assert (fetchAndCache from to (from +:+ "-" +:+ to) (c, w)
          = ((c, w1), Throw e)) as Hfetch.
  { unfold fetchAndCache, fetchExchangeRate. rewrite Hget, Hstatus. done. }
  destruct (CircuitBreaker.enter (clock w) (circuitBreaker c)) as [cb0|] eqn:Ha.
  - rewrite Hfetch. cbn [fst snd]. rewrite getCachedRate_includeExpired.
    cbn [cache set_circuitBreaker]. split; [done|]. split; [done|].
    intros cb1 [= <-]. split; [done|]. cbn [circuitBreaker set_circuitBreaker].
    destruct (onFailure_counters (clock w1)
                (CircuitBreaker.incrTotalRequests cb0)) as (_ & Hf & _).
    rewrite Hf. simpl.
    by destruct (enter_not_open _ _ _ Ha) as (_ & _ & -> & _).
  - cbn [fst snd]. rewrite getCachedRate_includeExpired.
    cbn [cache set_circuitBreaker]. split; [done|]. split; [done|].
    by intros cb1 [=].
Qed.

Lemma getExchangeRate_failing_network_witness :
  (getExchangeRate "USD" "EUR" Scenario.exchangeClient Scenario.world404).2
  = Return None.
Proof.
  destruct (getExchangeRate_failing_network "USD" "EUR"
              Scenario.exchangeClient Scenario.world404) as (H & _).
  - intros history url. eexists. reflexivity.
  - reflexivity.
  - vm_compute. discriminate.
  - reflexivity.
  - exact H.
Defined.

Lemma getExchangeRate_returns from to c w :
  exists found, (getExchangeRate from to c w).2 = Return found.
Proof.
  unfold getExchangeRate.
  destruct (getCachedRate (from +:+ "-" +:+ to) false (clock w) c); [by eexists|].
  destruct (CircuitBreaker.execute _ _ _ _) as [[cb [c1 w1]] [r|e]]; by eexists.
Qed.

(** The properties of a plain object after an assignment. *)
Lemma dom_assign {A : Type} (name : string) (value : option A)
    (object : PlainObject A) :
  dom (own (assign name value object)) ⊆ dom (own object) ∪ {[name]}
  /\ dom (own (assign name value object)) ∖ {["__proto__"]}
     = (dom (own object) ∪ {[name]}) ∖ {["__proto__"]}.
Proof.
  unfold assign. destruct (String.eqb_spec name "__proto__") as [->|Hne].
  - destruct (inheritsObjectPrototype object); cbn [andb own].
    + split; set_solver.
    + rewrite dom_insert_L. split; set_solver.
  - cbn [andb own]. rewrite dom_insert_L. split; set_solver.
Qed.

Lemma subseteq_step (A B C D : gset string) (name : string) :
  A ⊆ B ∪ D -> B ⊆ C ∪ {[name]} -> A ⊆ C ∪ ({[name]} ∪ D).
Proof. set_solver. Qed.

Lemma difference_step (A B C D P : gset string) (name : string) :
  A ∖ P = (B ∪ D) ∖ P -> B ∖ P = (C ∪ {[name]}) ∖ P ->
  A ∖ P = (C ∪ ({[name]} ∪ D)) ∖ P.
Proof.
  intros H1 H2. apply set_eq. intros x.
  assert (x ∈ A ∖ P <-> x ∈ (B ∪ D) ∖ P) as Hiff1 by (by rewrite H1).
  assert (x ∈ B ∖ P <-> x ∈ (C ∪ {[name]}) ∖ P) as Hiff2 by (by rewrite H2).
  clear H1 H2.
  rewrite !elem_of_difference, !elem_of_union in Hiff1.
  rewrite !elem_of_difference, !elem_of_union in Hiff2.
  rewrite !elem_of_difference, !elem_of_union. tauto.
Qed.

Lemma collectRates_dom from response toCurrencies :
  forall c w (results : PlainObject ExchangeRate),
    dom (own (collectRates from response toCurrencies (c, w, results)).1.2)
    ⊆ dom (own results) ∪ list_to_set toCurrencies
    /\ ((collectRates from response toCurrencies (c, w, results)).2 = Return tt ->
        dom (own (collectRates from response toCurrencies (c, w, results)).1.2)
          ∖ {["__proto__"]}
        = (dom (own results) ∪ list_to_set toCurrencies) ∖ {["__proto__"]}).
Proof.
  induction toCurrencies as [|toCurrency rest IH]; intros c w results.
  - simpl. split; [set_solver|]. intros _. set_solver.
  - cbn [collectRates list_to_set].
    destruct (rateIn response toCurrency) as [found|e].
    + destruct (truthy found) as [r|].
      * match goal with |- context [collectRates from response rest (?c', w, ?r')] =>
          destruct (IH c' w r') as [Hsub Heq];
          match r' with assign ?n ?v ?o =>
            destruct (dom_assign n v o) as [Ha1 Ha2] end end.
        split; [exact (subseteq_step _ _ _ _ _ Hsub Ha1)|].
        intros Hret. exact (difference_step _ _ _ _ _ _ (Heq Hret) Ha2).
      * destruct (IH c w (assign toCurrency None results)) as [Hsub Heq].
        destruct (dom_assign toCurrency None results) as [Ha1 Ha2].
        split; [exact (subseteq_step _ _ _ _ _ Hsub Ha1)|].
        intros Hret. exact (difference_step _ _ _ _ _ _ (Heq Hret) Ha2).
    + cbn [fst snd]. split; [apply union_subseteq_l|]. done.
Qed.

Lemma ratesFromCache_dom from toCurrencies now c :
  forall results : PlainObject ExchangeRate,
    dom (own (ratesFromCache from toCurrencies now c results))
    ⊆ dom (own results) ∪ list_to_set toCurrencies
    /\ dom (own (ratesFromCache from toCurrencies now c results)) ∖ {["__proto__"]}
       = (dom (own results) ∪ list_to_set toCurrencies) ∖ {["__proto__"]}.
Proof.
  unfold ratesFromCache.
  induction toCurrencies as [|toCurrency rest IH]; intros results.
  - simpl. split; set_solver.
  - cbn [fold_left list_to_set].
    match goal with |- context [fold_left _ rest (assign ?n ?v ?o)] =>
      destruct (IH (assign n v o)) as [Hsub Heq];
      destruct (dom_assign n v o) as [Ha1 Ha2] end.
    split; [exact (subseteq_step _ _ _ _ _ Hsub Ha1)|].
    exact (difference_step _ _ _ _ _ _ Heq Ha2).
Qed.

Lemma fetchMultiple_dom from toCurrencies c w :
  dom (own (fetchMultiple from toCurrencies (c, w, emptyObject)).1.2)
  ⊆ list_to_set toCurrencies
  /\ ((fetchMultiple from toCurrencies (c, w, emptyObject)).2 = Return tt ->
      dom (own (fetchMultiple from toCurrencies (c, w, emptyObject)).1.2)
        ∖ {["__proto__"]}
      = list_to_set toCurrencies ∖ {["__proto__"]}).
Proof.
  unfold fetchMultiple.
  destruct (get base (retryConfig c) ("/" +:+ from) w) as [w' [response|e]].
  - destruct (collectRates_dom from response toCurrencies c w' emptyObject)
      as [Hsub Heq].
    cbn [emptyObject own] in Hsub, Heq. rewrite dom_empty_L in Hsub, Heq.
    split; [set_solver|].
    intros Hret. rewrite (Heq Hret). set_solver.
  - cbn [fst snd emptyObject own]. rewrite dom_empty_L. split; [set_solver|done].
Qed.

(** X22. The bulk lookup answers for every currency asked for.
    [getMultipleRates] does not throw, whether the request went through,
    failed, or never left because the breaker was open. The object it
    returns has no property that was not asked for, and has every currency
    asked for as a property, the name [__proto__] apart, for which the
    assignment sets the prototype of the object: when that name is not
    asked for, the properties are the currencies asked for, no more and no
    less. *)
Theorem getMultipleRates_keys (from : string) (toCurrencies : list string)
    (c : ExchangeRateApiClient.t) (w : World) :
  exists results,
    (getMultipleRates from toCurrencies c w).2 = Return results
    /\ dom (own results) ⊆ list_to_set toCurrencies
    /\ dom (own results) ∖ {["__proto__"]}
       = list_to_set toCurrencies ∖ {["__proto__"]}
    /\ ("__proto__" ∉ toCurrencies ->
        dom (own results) = list_to_set toCurrencies).
Proof.
  assert (exists results,
             (getMultipleRates from toCurrencies c w).2 = Return results
             /\ dom (own results) ⊆ list_to_set toCurrencies
             /\ dom (own results) ∖ {["__proto__"]}
                = list_to_set toCurrencies ∖ {["__proto__"]})
    as (results & Hret & Hsub & Heq).
  { unfold getMultipleRates, CircuitBreaker.execute. cbn [fst snd].
    destruct (CircuitBreaker.enter (clock w) (circuitBreaker c)) as [cb1|].
    - destruct (fetchMultiple_dom from toCurrencies c w) as [Hsub Heq].
      destruct (fetchMultiple from toCurrencies (c, w, emptyObject))
        as [[[c1 w1] results] [[]|e]]; cbn [fst snd] in *.
      + eexists. split; [done|]. split; [done|]. by apply Heq.
      + eexists. split; [done|].
        match goal with |- context [ratesFromCache ?f ?l ?n ?c' ?r] =>
          destruct (ratesFromCache_dom f l n c' r) as [Hsub' Heq'] end.
        split; [set_solver|]. rewrite Heq'. set_solver.
    - eexists. split; [done|].
      match goal with |- context [ratesFromCache ?f ?l ?n ?c' ?r] =>
        destruct (ratesFromCache_dom f l n c' r) as [Hsub' Heq'] end.
      cbn [emptyObject own] in Hsub', Heq'. rewrite dom_empty_L in Hsub', Heq'.
      split; [set_solver|]. rewrite Heq'. set_solver. }
  exists results. split; [done|]. split; [done|]. split; [done|].
  intros Hnot. apply set_eq. intros name. split; [set_solver|].
  intros Hin. assert (name <> "__proto__") as Hne.
  { intros ->. apply Hnot. by apply elem_of_list_to_set in Hin. }
  assert (name ∈ list_to_set (C := gset string) toCurrencies ∖ {["__proto__"]})
    as Hin' by set_solver.
  rewrite <- Heq in Hin'. set_solver.
Qed.

End ExchangeRateApiClientMore.

(** ** DIContainer: what resolution keeps, scopes, and graphs without cycles *)

Section DIContainerMore.
Import DIContainer.
Variable classes : string -> ClassInfo.

Lemma grows_refl c : grows c c.
Proof. repeat split; auto. Qed.

Lemma grows_trans c1 c2 c3 : grows c1 c2 -> grows c2 c3 -> grows c1 c3.
Proof.
  intros (A1 & A2 & A3 & A4 & A5) (B1 & B2 & B3 & B4 & B5).
  repeat split; [eauto|congruence|lia|eauto|eauto].
Qed.

Lemma allocate_grows c : grows c (allocate c).1.
Proof. repeat split; simpl; auto. Qed.

Lemma scopeInstances_alter a a' k i c :
  scopeInstances a
    (set_scopeObjects
       (alter (fun s => {| id := id s; instances := <[k := i]> (instances s) |})
          a' (scopeObjects c)) c)
  = if decide (a = a')
    then match scopeObjects c !! a with
         | Some s => <[k := i]> (instances s)
         | None => ∅
         end
    else scopeInstances a c.
Proof.
  unfold scopeInstances. simpl. rewrite lookup_alter.
  case_decide as Hd; case_decide as Hd'; subst; try done.
  by destruct (scopeObjects c !! _).
Qed.

Lemma store_grows d i c c1 :
  cachedInstance d c = None -> grows c c1 -> grows c (store d i c1).
Proof.
  intros Hmiss (G1 & G2 & G3 & G4 & G5). unfold store.
  destruct (lifecycle d) eqn:Hl.
  - repeat split; simpl; auto.
  - repeat split; simpl; auto.
  - destruct (currentScope c1) as [a'|] eqn:Hcur; [|repeat split; auto; congruence].
    split; [|split; [|split; [|split]]]; simpl; auto; try congruence.
    + intros a Ha. rewrite lookup_alter. case_decide; subst.
      * destruct (G4 _ Ha) as [s Hs]. rewrite Hs. simpl. eauto.
      * by apply G4.
    + intros a k v Hk. rewrite scopeInstances_alter. case_decide as Hd; subst.
      * specialize (G5 _ _ _ Hk). unfold scopeInstances in G5.
        destruct (scopeObjects c1 !! a') as [s|]; [|by rewrite lookup_empty in G5].
        rewrite lookup_insert_ne; [done|]. intros <-.
        unfold cachedInstance in Hmiss. rewrite Hl, <- G2 in Hmiss.
        congruence.
      * by apply G5.
Qed.

Lemma register_unregistered_grows tok descriptor c :
  services c !! tok = None -> grows c (register tok descriptor c).
Proof.
  intros Hnone. repeat split; simpl; auto.
  intros t d Hd. rewrite lookup_insert_ne; [done|]. intros <-. congruence.
Qed.

Section Resolver.
Variable resolveToken : Token -> t -> option (t * Completion Instance).
Hypothesis resolveToken_grows :
  forall tok c c' r, resolveToken tok c = Some (c', r) -> grows c c'.

Lemma resolveAll_grows toks c c' r :
  resolveAll resolveToken toks c = Some (c', r) -> grows c c'.
Proof.
  revert c c' r. induction toks as [|tok toks IH]; intros c c' r; simpl.
  - intros [= <- _]. apply grows_refl.
  - destruct (resolveToken tok c) as [[c1 [i|e]]|] eqn:E1; [| |done].
    + destruct (resolveAll resolveToken toks c1) as [[c2 [more|e]]|] eqn:E2;
        [| |done]; intros [= <- _];
        eapply grows_trans; eauto.
    + intros [= <- _]. eauto.
Qed.

Lemma resolveDependencies_grows d c c' r :
  resolveDependencies classes resolveToken d c = Some (c', r) -> grows c c'.
Proof.
  unfold resolveDependencies. destruct (dependencies d).
  - apply resolveAll_grows.
  - destruct (constructor d); [apply resolveAll_grows|].
    intros [= <- _]. apply grows_refl.
Qed.

Lemma runFactory_grows b c c' m :
  runFactory resolveToken b c = Some (c', m) -> grows c c'.
Proof.
  revert c. induction b as [made|tok next IH]; intros c; simpl.
  - intros [= <- _]. apply grows_refl.
  - destruct (resolveToken tok c) as [[c1 result]|] eqn:E; [|done].
    intros H. eapply grows_trans; [by eapply resolveToken_grows|].
    by eapply IH.
Qed.

Lemma construct_grows d c c' r :
  construct classes resolveToken d c = Some (c', r) -> grows c c'.
Proof.
  unfold construct. destruct (registeredInstance d).
  { intros [= <- _]. apply grows_refl. }
  destruct (factory d) as [f|].
  - destruct (resolveDependencies classes resolveToken d c)
      as [[c1 [deps|e]]|] eqn:E; [| |done].
    + apply resolveDependencies_grows in E.
      destruct (runFactory resolveToken (f deps) c1) as [[c2 made]|] eqn:F;
        [|done].
      apply runFactory_grows in F.
      destruct made; intros [= <- _].
      * eapply grows_trans; [exact E|].
        eapply grows_trans; [exact F|apply allocate_grows].
      * by eapply grows_trans.
      * by eapply grows_trans.
    + intros [= <- _]. by apply resolveDependencies_grows in E.
  - destruct (constructor d) as [k|].
    + destruct (resolveDependencies classes resolveToken d c)
        as [[c1 [deps|e]]|] eqn:E; [| |done].
      * apply resolveDependencies_grows in E.
        destruct (body (classOf classes k) deps); intros [= <- _]; [|done..].
        eapply grows_trans; [exact E|apply allocate_grows].
      * intros [= <- _]. by apply resolveDependencies_grows in E.
    + intros [= <- _]. apply grows_refl.
Qed.

Lemma createInstance_grows d c c' r :
  createInstance classes resolveToken d c = Some (c', r) -> grows c c'.
Proof.
  unfold createInstance. destruct (cachedInstance d c) eqn:Hc.
  { intros [= <- _]. apply grows_refl. }
  destruct (construct classes resolveToken d c) as [[c1 [i|e]]|] eqn:E; [| |done].
  - intros [= <- _]. apply store_grows; [done|]. by apply construct_grows in E.
  - intros [= <- _]. by apply construct_grows in E.
Qed.

End Resolver.

Lemma resolve_grows depth tok c c' r :
  resolve classes depth tok c = Some (c', r) -> grows c c'.
Proof.
  revert tok c c' r. induction depth as [|depth IH]; intros tok c c' r; [done|].
  simpl. destruct (services c !! tok) as [d|] eqn:Hd.
  - apply createInstance_grows. exact IH.
  - destruct tok as [s|n description|name];
      try (intros [= <- _]; apply grows_refl).
    destruct (injectable (classOf classes name)).
    + intros H. apply IH in H.
      eapply grows_trans; [by apply register_unregistered_grows|exact H].
    + intros [= <- _]. apply grows_refl.
Qed.

Lemma keepsScopes_refl c : keepsScopes c c.
Proof. split; auto. Qed.

Lemma keepsScopes_trans c1 c2 c3 :
  keepsScopes c1 c2 -> keepsScopes c2 c3 -> keepsScopes c1 c3.
Proof.
  intros [A1 A2] [B1 B2]. split; [lia|].
  intros a k v Ha Hk. apply B2; [lia|]. by apply A2.
Qed.

Lemma grows_keepsScopes c c' : grows c c' -> keepsScopes c c'.
Proof. intros (_ & _ & G3 & _ & G5). split; [done|]. intros a k v _. apply G5. Qed.

Lemma run_keepsScopes op c c' : run classes op c = Some c' -> keepsScopes c c'.
Proof.
  destruct op as [tok descriptor|depth tok|scopeId|scope]; simpl.
  - intros [= <-]. by split.
  - destruct (resolve classes depth tok c) as [[c1 r]|] eqn:E; [|done].
    simpl. intros [= <-]. apply grows_keepsScopes. by apply resolve_grows in E.
  - intros [= <-]. split; [simpl; lia|].
    intros a k v Ha. unfold scopeInstances. simpl.
    rewrite lookup_insert_ne; [done|lia].
  - intros [= <-]. by split.
Qed.

Lemma runAll_keepsScopes ops c c' :
  runAll classes ops c = Some c' -> keepsScopes c c'.
Proof.
  revert c. induction ops as [|op ops IH]; intros c; simpl.
  - intros [= <-]. apply keepsScopes_refl.
  - destruct (run classes op c) as [c1|] eqn:E; [|done].
    intros H. eapply keepsScopes_trans; [by apply run_keepsScopes in E|by apply IH].
Qed.




(** X24. Scoped lifecycle, outside every scope. With no scope current, a
    scoped service that builds its value is built at each [resolve]: two
    calls return different objects, as for a transient. *)
Theorem scoped_outside_scope c tok d depth c1 v1 ops c2 d2 depth2 c3 v2 :
  services c !! tok = Some d -> lifecycle d = scoped ->
  buildsAnew classes d ->
  currentScope c = None ->
  resolve classes depth tok c = Some (c1, Return v1) ->
  runAll classes ops c1 = Some c2 ->
  services c2 !! tok = Some d2 -> lifecycle d2 = scoped ->
  buildsAnew classes d2 ->
  currentScope c2 = None ->
  resolve classes depth2 tok c2 = Some (c3, Return v2) ->
  v1 <> v2.
Proof.
  intros Hd Hl Hb Hcur Hres Hops Hd2 Hl2 Hb2 Hcur2 Hres2.
  assert (Hc : cachedInstance d c = None).
  { unfold cachedInstance. by rewrite Hl, Hcur. }
  assert (Hc2 : cachedInstance d2 c2 = None).
  { unfold cachedInstance. by rewrite Hl2, Hcur2. }
  destruct (resolve_uncached_fresh classes _ _ _ _ _ _ Hd Hc Hb Hres)
    as (a1 & -> & H1).
  destruct (resolve_uncached_fresh classes _ _ _ _ _ _ Hd2 Hc2 Hb2 Hres2)
    as (a2 & -> & H2).
  apply runAll_keepsScopes in Hops. destruct Hops as [Hn _].
  intros [= ->]. lia.
Qed.

(** [withScope(scopeId, fn)] runs [fn] with the scope registered under
    [scopeId] as the current scope, a scope that exists being used again
    and one that does not being created, empty, and registered; it hands on
    what [fn] returns or throws; and the current scope afterwards is the one
    from before the call, whatever [fn] did. *)
Theorem withScope_restores {T : Type} (scopeId : string)
    (fn : t -> t * Completion T) (c : t) :
  withScope scopeId fn c
  = (set_currentScope (currentScope c) (fn (enterScope scopeId c)).1,
     (fn (enterScope scopeId c)).2)
  /\ currentScope (withScope scopeId fn c).1 = currentScope c
  /\ currentScope (enterScope scopeId c) = scopes (enterScope scopeId c) !! scopeId
  /\ match scopes c !! scopeId with
     | Some a => enterScope scopeId c = set_currentScope (Some a) c
     | None =>
         scopeInstances (nextObject c) (enterScope scopeId c) = ∅
         /\ currentScope (enterScope scopeId c) = Some (nextObject c)
     end.
Proof.
  assert (E : withScope scopeId fn c
              = (set_currentScope (currentScope c) (fn (enterScope scopeId c)).1,
                 (fn (enterScope scopeId c)).2)).
  { unfold withScope, enterScope.
    destruct (scopes c !! scopeId) as [a|]; simpl.
    - by destruct (fn (set_currentScope (Some a) c)).
    - by destruct (fn _). }
  split; [exact E|]. split; [by rewrite E|].
  unfold enterScope.
  destruct (scopes c !! scopeId) as [a|] eqn:Hs; simpl.
  - by split.
  - split; [by rewrite lookup_insert_eq|].
    split; [|done]. unfold scopeInstances. simpl. by rewrite lookup_insert_eq.
Qed.

End DIContainerMore.


Lemma scoped_outside_scope_witness :
  DIContainer.Object 1 <> DIContainer.Object 2.
Proof.
  apply (scoped_outside_scope Scenario.plainClasses Scenario.outsideRequest
           (DIContainer.TString "Session") Scenario.sessionDescriptor
           1%nat Scenario.afterOutsideSession (DIContainer.Object 1)
           [] Scenario.afterOutsideSession Scenario.sessionDescriptor
           1%nat Scenario.afterOutsideTwice (DIContainer.Object 2)
           ltac:(vm_compute; reflexivity) eq_refl).
  - split; [reflexivity|]. split; [intros f deps Hf; discriminate Hf|].
    intros k deps a _ [= <-] Hb. vm_compute in Hb. discriminate Hb.
  - vm_compute; reflexivity.
  - vm_compute; reflexivity.
  - vm_compute; reflexivity.
  - vm_compute; reflexivity.
  - reflexivity.
  - split; [reflexivity|]. split; [intros f deps Hf; discriminate Hf|].
    intros k deps a _ [= <-] Hb. vm_compute in Hb. discriminate Hb.
  - vm_compute; reflexivity.
  - vm_compute; reflexivity.
Defined.

(** ** DIContainer: graphs without cycles, unregistered tokens, instances *)

Section DIContainerGraphs.
Import DIContainer.
Variable classes : string -> ClassInfo.
Variable rank : Token -> nat.

Lemma resolveDependencies_tokens resolveToken d c :
  resolveDependencies classes resolveToken d c
  = resolveAll resolveToken (dependencyTokens classes d) c.
Proof.
  unfold resolveDependencies, dependencyTokens.
  destruct (dependencies d); [done|]. by destruct (constructor d).
Qed.

Lemma ranked_services c c' :
  services c' = services c -> ranked classes rank c -> ranked classes rank c'.
Proof. intros Hs [R1 R2]. split; [|done]. rewrite Hs. exact R1. Qed.

Lemma store_services d i c : services (store d i c) = services c.
Proof.
  unfold store. destruct (lifecycle d); try done. by destruct (currentScope c).
Qed.

Lemma register_auto_ranked name lc c :
  injectable (classOf classes name) = Some lc ->
  ranked classes rank c ->
  ranked classes rank
    (register (TClass name) (withLifecycle lc None (Some name)) c).
Proof.
  intros Hinj [R1 R2]. split; [|done].
  intros tok d dep. simpl. rewrite lookup_insert_Some.
  intros [[<- <-]|[_ Hd]] Hdep.
  - by apply (R2 name lc).
  - by apply (R1 tok d).
Qed.

Section Resolver.
Variable resolveToken : Token -> t -> option (t * Completion Instance).
Hypothesis resolveToken_ranked :
  forall tok c c' r,
    ranked classes rank c -> resolveToken tok c = Some (c', r) ->
    ranked classes rank c'.

Lemma resolveAll_ranked toks c c' r :
  ranked classes rank c -> resolveAll resolveToken toks c = Some (c', r) ->
  ranked classes rank c'.
Proof.
  revert c c' r. induction toks as [|tok toks IH]; intros c c' r Hr; simpl.
  - by intros [= <- _].
  - destruct (resolveToken tok c) as [[c1 [i|e]]|] eqn:E1; [| |done].
    + apply resolveToken_ranked in E1; [|done].
      destruct (resolveAll resolveToken toks c1) as [[c2 [more|e]]|] eqn:E2;
        [| |done]; intros [= <- _]; eauto.
    + intros [= <- _]. eauto.
Qed.

Lemma runFactory_ranked b c c' m :
  ranked classes rank c -> runFactory resolveToken b c = Some (c', m) ->
  ranked classes rank c'.
Proof.
  revert c. induction b as [made|tok next IH]; intros c Hr; simpl.
  - by intros [= <- _].
  - destruct (resolveToken tok c) as [[c1 result]|] eqn:E; [|done].
    apply IH. by eapply resolveToken_ranked.
Qed.

Lemma construct_ranked d c c' r :
  ranked classes rank c ->
  construct classes resolveToken d c = Some (c', r) ->
  ranked classes rank c'.
Proof.
  intros Hr. unfold construct. rewrite resolveDependencies_tokens.
  destruct (registeredInstance d); [by intros [= <- _]|].
  destruct (factory d) as [f|].
  - destruct (resolveAll resolveToken (dependencyTokens classes d) c)
      as [[c1 [deps|e]]|] eqn:E; [| |done].
    + apply resolveAll_ranked in E; [|done].
      destruct (runFactory resolveToken (f deps) c1) as [[c2 made]|] eqn:F;
        [|done].
      apply runFactory_ranked in F; [|done].
      destruct made; intros [= <- _]; [|done..].
      by apply (ranked_services c2).
    + intros [= <- _]. by apply resolveAll_ranked in E.
  - destruct (constructor d) as [k|]; [|by intros [= <- _]].
    destruct (resolveAll resolveToken (dependencyTokens classes d) c)
      as [[c1 [deps|e]]|] eqn:E; [| |done].
    + apply resolveAll_ranked in E; [|done].
      destruct (body (classOf classes k) deps); intros [= <- _]; [|done..].
      by apply (ranked_services c1).
    + intros [= <- _]. by apply resolveAll_ranked in E.
Qed.

Lemma createInstance_ranked d c c' r :
  ranked classes rank c ->
  createInstance classes resolveToken d c = Some (c', r) ->
  ranked classes rank c'.
Proof.
  intros Hr. unfold createInstance.
  destruct (cachedInstance d c); [by intros [= <- _]|].
  destruct (construct classes resolveToken d c) as [[c1 [i|e]]|] eqn:E; [| |done].
  - apply construct_ranked in E; [|done]. intros [= <- _].
    apply (ranked_services c1); [apply store_services|done].
  - intros [= <- _]. by apply construct_ranked in E.
Qed.

(** When the recursive calls return for tokens of a list, so does the loop
    over the list. *)
Lemma resolveAll_returns toks :
  (forall tok c, tok ∈ toks -> ranked classes rank c ->
                 is_Some (resolveToken tok c)) ->
  forall c, ranked classes rank c -> is_Some (resolveAll resolveToken toks c).
Proof.
  induction toks as [|tok toks IH]; intros Hret c Hr; simpl; [by eexists|].
  destruct (Hret tok c) as [[c1 r] E1]; [by left|done|]. rewrite E1.
  destruct r as [i|e]; [|by eexists].
  destruct (IH (fun tok' c' Hin => Hret tok' c' (list_elem_of_further _ _ _ Hin)) c1)
    as [[c2 r2] E2].
  { by apply resolveToken_ranked in E1. }
  rewrite E2. destruct r2; by eexists.
Qed.

(** When the recursive calls return for the tokens a factory asks for, the
    factory comes to its end. *)
Lemma runFactory_returns b :
  (forall tok c, asks b tok -> ranked classes rank c ->
                 is_Some (resolveToken tok c)) ->
  forall c, ranked classes rank c -> is_Some (runFactory resolveToken b c).
Proof.
  induction b as [made|tok next IH]; intros Hret c Hr; simpl; [by eexists|].
  destruct (Hret tok c) as [[c1 result] E]; [by left|done|]. rewrite E.
  apply IH.
  - intros tok' c' Hasks. apply Hret. right. by exists result.
  - by apply resolveToken_ranked in E.
Qed.

Lemma createInstance_returns d c :
  (forall tok c, requests classes d tok -> ranked classes rank c ->
                 is_Some (resolveToken tok c)) ->
  ranked classes rank c ->
  is_Some (createInstance classes resolveToken d c).
Proof.
  intros Hret Hr. unfold createInstance.
  destruct (cachedInstance d c); [by eexists|].
  unfold construct. rewrite resolveDependencies_tokens.
  destruct (registeredInstance d); [by eexists|].
  destruct (resolveAll_returns (dependencyTokens classes d)
              (fun tok c0 Hin => Hret tok c0 (or_introl Hin)) c Hr)
    as [[c1 r] E].
  rewrite E.
  destruct (factory d) as [f|] eqn:Hf.
  - destruct r as [deps|e]; [|by eexists].
    destruct (runFactory_returns (f deps)
                (fun tok c0 Hasks =>
                   Hret tok c0 (or_intror (ex_intro _ f
                                  (ex_intro _ deps (conj Hf Hasks)))))
                c1 (resolveAll_ranked _ _ _ _ Hr E))
      as [[c2 made] F].
    rewrite F. destruct made; by eexists.
  - destruct (constructor d) as [k|]; [|by eexists].
    destruct r as [deps|e]; [|by eexists].
    destruct (body (classOf classes k) deps); by eexists.
Qed.

End Resolver.

Lemma resolve_ranked depth tok c c' r :
  ranked classes rank c -> resolve classes depth tok c = Some (c', r) ->
  ranked classes rank c'.
Proof.
  revert tok c c' r. induction depth as [|depth IH]; intros tok c c' r Hr; [done|].
  simpl. destruct (services c !! tok) as [d|] eqn:Hd.
  - by apply createInstance_ranked.
  - destruct tok as [s|n description|name]; try by intros [= <- _].
    destruct (injectable (classOf classes name)) as [lc|] eqn:Hinj;
      [|by intros [= <- _]].
    apply IH. by apply register_auto_ranked.
Qed.

Lemma ranked_resolve_returns depth :
  forall tok c,
    ranked classes rank c ->
    (2 * rank tok + 2 <= depth
     \/ (is_Some (services c !! tok) /\ 2 * rank tok + 1 <= depth))%nat ->
    is_Some (resolve classes depth tok c).
Proof.
  induction depth as [|depth IH]; intros tok c Hr Hdepth; [lia|].
  simpl. destruct (services c !! tok) as [d|] eqn:Hd.
  - apply (createInstance_returns _ (resolve_ranked depth)); [|done].
    intros dep c0 Hdep Hr0. apply IH; [done|]. left.
    destruct Hr as [R1 _]. specialize (R1 tok d dep Hd Hdep). lia.
  - destruct Hdepth as [Hdepth|[[? [=]] _]].
    destruct tok as [s|n description|name]; try by eexists.
    destruct (injectable (classOf classes name)) as [lc|] eqn:Hinj;
      [|by eexists].
    apply IH; [by apply register_auto_ranked|]. right.
    split; [|lia]. simpl. rewrite lookup_insert_eq. by eexists.
Qed.

(** X25. A graph without a cycle resolves. When a rank goes down along
    every token that building resolves, be it a declared dependency, a
    reflected parameter, or a token that a factory resolves by calling back
    into the container, for the registered descriptors and for the
    injectable classes, then [resolve(token)] returns for every token, with
    an instance or with an error, within a recursion depth of twice the rank
    of the token plus two; and the graph is without a cycle afterwards
    too. *)
Theorem acyclic_resolve_returns (c : t) (tok : Token) (depth : nat) :
  ranked classes rank c -> (2 * rank tok + 2 <= depth)%nat ->
  exists c' r,
    resolve classes depth tok c = Some (c', r) /\ ranked classes rank c'.
Proof.
  intros Hr Hdepth.
  destruct (ranked_resolve_returns depth tok c Hr (or_introl Hdepth))
    as [[c' r] E].
  exists c', r. split; [done|]. by apply resolve_ranked in E.
Qed.

(** X26. A token without a descriptor. For a string, a symbol, or a class
    without the injectable metadata, [resolve] throws
    "Service not registered: " followed by [String(token)], the string
    itself, [Symbol(description)], or the source text of the class, and
    leaves the container as it is. A class that carries the injectable
    metadata is registered under the lifecycle of its metadata, with itself
    as the constructor, and resolved again; when that returns, the class is
    still registered so, and the descriptors that were registered before
    are all in place. *)
Theorem resolve_unregistered (c : t) (tok : Token) (depth : nat) :
  services c !! tok = None ->
  match tok with
  | TString s =>
      resolve classes (S depth) tok c
      = Some (c, Throw (JsError ("Service not registered: " +:+ s)))
  | TSymbol _ description =>
      resolve classes (S depth) tok c
      = Some (c, Throw (JsError ("Service not registered: Symbol("
                                 +:+ description +:+ ")")))
  | TClass name =>
      match injectable (classOf classes name) with
      | None =>
          resolve classes (S depth) tok c
          = Some (c, Throw (JsError ("Service not registered: "
                                     +:+ sourceText (classOf classes name))))
      | Some lc =>
          resolve classes (S depth) tok c
          = resolve classes depth tok
              (register tok (withLifecycle lc None (Some name)) c)
          /\ forall c' r,
               resolve classes (S depth) tok c = Some (c', r) ->
               services c' !! tok = Some (autoDescriptor name lc)
               /\ forall tok0 d,
                    services c !! tok0 = Some d -> services c' !! tok0 = Some d
      end
  end.
Proof.
  intros Hnone.
  destruct tok as [s|n description|name]; cbn [resolve]; rewrite Hnone; try done.
  destruct (injectable (classOf classes name)) as [lc|] eqn:Hinj; [|done].
  split; [done|]. intros c' r Hres.
  pose proof (resolve_grows classes _ _ _ _ _ Hres) as [G1 _]. split.
  - apply G1. simpl. by rewrite lookup_insert_eq.
  - intros tok0 d Hd. apply G1. simpl.
    rewrite lookup_insert_ne; [done|]. intros <-. congruence.
Qed.

(** X27. [registerInstance(token, instance)] followed by [resolve(token)].
    While the singletons map holds a value for the token, from an earlier
    resolve, that value is returned and not the instance. Otherwise a truthy
    instance is returned and becomes the singleton; a falsy one, [0] or
    [null], is passed over, and as the descriptor has no factory and
    inherits the constructor [Object], [resolve] returns a new object. *)
Theorem registerInstance_resolve (c : t) (tok : Token) (i : Instance)
    (depth : nat) :
  resolve classes (S depth) tok (registerInstance tok i c)
  = match singletons c !! tok with
    | Some old => Some (registerInstance tok i c, Return old)
    | None =>
        if truthy i
        then Some (set_singletons (<[tok := i]> (singletons c))
                     (registerInstance tok i c), Return i)
        else Some (set_singletons
                     (<[tok := Object (nextObject c)]> (singletons c))
                     (allocate (registerInstance tok i c)).1,
                   Return (Object (nextObject c)))
    end.
Proof.
  simpl. rewrite lookup_insert_eq.
  unfold createInstance, cachedInstance. simpl.
  destruct (singletons c !! tok) as [old|] eqn:Hs; [done|].
  unfold construct, registeredInstance. simpl.
  by destruct (truthy i).
Qed.

End DIContainerGraphs.

Lemma acyclic_resolve_returns_witness :
  exists c' r,
    DIContainer.resolve Scenario.plainClasses 4
      (DIContainer.TString "IReceiptRepository") Scenario.compositionRoot
    = Some (c', r)
    /\ DIContainer.ranked Scenario.plainClasses Scenario.rootRank c'.
Proof.
  apply (acyclic_resolve_returns Scenario.plainClasses Scenario.rootRank
           Scenario.compositionRoot
           (DIContainer.TString "IReceiptRepository") 4%nat).
  - split.
    2:{ intros name lc dep Hinj. unfold DIContainer.classOf in Hinj.
        destruct (String.eqb name "Object"); discriminate Hinj. }
    intros tok d dep. unfold Scenario.compositionRoot. simpl.
    rewrite !lookup_insert_Some, lookup_empty.
    intros [[<- <-]|[_ [[<- <-]|[_ [=]]]]] [Hdep|(f & deps & [= <-] & Hasks)].
    + by apply elem_of_nil in Hdep.
    + destruct Hasks as [<-|[result Hasks]]; [simpl; lia|].
      by destruct result.
    + by apply elem_of_nil in Hdep.
    + done.
  - simpl. lia.
Defined.

Lemma resolve_unregistered_witness :
  DIContainer.resolve Scenario.plainClasses 1 (DIContainer.TString "Clock")
    DIContainer.empty
  = Some (DIContainer.empty,
          Throw (JsError "Service not registered: Clock"))
  /\ DIContainer.services Scenario.afterMailer !! DIContainer.TClass "Mailer"
     = Some (DIContainer.autoDescriptor "Mailer" DIContainer.singleton).
Proof.
  split.
  - apply (resolve_unregistered Scenario.plainClasses DIContainer.empty
             (DIContainer.TString "Clock") 0%nat).
    reflexivity.
  - destruct (proj2 (resolve_unregistered Scenario.mailerClasses
                       DIContainer.empty (DIContainer.TClass "Mailer") 1%nat
                       eq_refl)
                Scenario.afterMailer (Return (DIContainer.Object 0))
                ltac:(vm_compute; reflexivity)) as [Hregistered _].
    exact Hregistered.
Defined.

Lemma registerInstance_resolve_witness :
  DIContainer.resolve Scenario.plainClasses 1 (DIContainer.TString "limit")
    (DIContainer.registerInstance (DIContainer.TString "limit")
       (DIContainer.Primitive 0) DIContainer.empty)
  = Some (DIContainer.set_singletons
            (<[DIContainer.TString "limit" := DIContainer.Object 0]> ∅)
            (DIContainer.allocate
               (DIContainer.registerInstance (DIContainer.TString "limit")
                  (DIContainer.Primitive 0) DIContainer.empty)).1,
          Return (DIContainer.Object 0)).
Proof.
  apply (registerInstance_resolve Scenario.plainClasses DIContainer.empty
           (DIContainer.TString "limit") (DIContainer.Primitive 0) 0%nat).
Defined.

(** ** EventBus: subscriptions, fan-out and the queue *)

Section EventBusMore.
Import EventBus.
Context {W : Type} (sleep : Z -> W -> W).

Lemma filter_all {A : Type} (f : A -> bool) (l : list A) :
  Forall (fun x => f x = true) l -> List.filter f l = l.
Proof.
  induction 1 as [|x l Hx _ IH]; [done|]. simpl. by rewrite Hx, IH.
Qed.

Lemma filter_incl {A : Type} (f : A -> bool) (l : list A) x :
  In x (List.filter f l) -> In x l.
Proof. intros H. by apply List.filter_In in H as [H _]. Qed.

Lemma NoDup_map_filter {A B : Type} (g : A -> B) (f : A -> bool) (l : list A) :
  NoDup (map g l) -> NoDup (map g (List.filter f l)).
Proof.
  induction l as [|x l IH]; [done|]. simpl. rewrite NoDup_cons.
  intros [Hx Hl]. destruct (f x); [|by apply IH].
  simpl. rewrite NoDup_cons. split; [|by apply IH].
  rewrite list_elem_of_In, in_map_iff in *.
  intros (y & Hy & Hin). apply Hx. exists y. split; [done|].
  by apply filter_incl in Hin.
Qed.

Lemma Forall_filter_keep {A : Type} (P : A -> Prop) (f : A -> bool) (l : list A) :
  Forall P l -> Forall P (List.filter f l).
Proof.
  induction 1 as [|x l Hx _ IH]; [done|]. simpl.
  destruct (f x); [by constructor|done].
Qed.

Lemma subscribe_wellFormed eventType h (b : EventBus.t (W := W)) :
  wellFormed b -> wellFormed (subscribe eventType h b).1.
Proof.
  intros Hwf ty subs. simpl. rewrite lookup_insert_Some.
  intros [[<- <-]|[Hne Hsubs]].
  - split; [by destruct (default [] _)|].
    destruct (subscriptions b !! eventType) as [old|] eqn:Hold; simpl.
    + destruct (Hwf _ _ Hold) as (_ & Hall & Hnd). split.
      * apply Forall_app. split.
        -- eapply Forall_impl; [exact Hall|]. simpl. intros s [? ?].
           split; [done|lia].
        -- constructor; [|done]. simpl. split; [done|lia].
      * rewrite map_app. simpl. apply NoDup_app. split; [done|].
        split; [|apply NoDup_singleton].
        intros n Hn Hn'. apply list_elem_of_singleton in Hn' as ->.
        apply list_elem_of_In, in_map_iff in Hn as (s & Hs & Hin).
        rewrite Forall_forall in Hall. apply list_elem_of_In, Hall in Hin. lia.
    + split; [|apply NoDup_singleton].
      constructor; [|done]. simpl. split; [done|lia].
  - destruct (Hwf _ _ Hsubs) as (Hnil & Hall & Hnd).
    split; [done|]. split; [|done].
    eapply Forall_impl; [exact Hall|]. simpl. intros s [? ?]. split; [done|lia].
Qed.

Lemma unsubscribe_wellFormed eventType n (b : EventBus.t (W := W)) :
  wellFormed b -> wellFormed (unsubscribe eventType n b).
Proof.
  intros Hwf. unfold unsubscribe.
  destruct (subscriptions b !! eventType) as [old|] eqn:Hold; [|done].
  destruct (Hwf _ _ Hold) as (_ & Hall & Hnd).
  destruct (List.filter _ old) as [|s rest] eqn:Hrem.
  - intros ty subs. simpl. rewrite lookup_delete_Some. intros [_ Hsubs].
    exact (Hwf _ _ Hsubs).
  - intros ty subs. simpl. rewrite lookup_insert_Some.
    intros [[<- <-]|[_ Hsubs]]; [|exact (Hwf _ _ Hsubs)].
    split; [done|]. rewrite <- Hrem.
    split; [by apply Forall_filter_keep|by apply NoDup_map_filter].
Qed.

(** X28. Subscriptions. In a bus whose subscriptions are well formed, as
    they are in a new bus and after [clear], [subscribe] and [unsubscribe]
    keep them so; the new subscription comes last among the subscribers of
    its event type; and unsubscribing it gives back the subscriptions as
    they were before, the event type being forgotten again when it had no
    subscriber. *)
Theorem subscribe_unsubscribe (eventType : string) (h : EventHandler)
    (b : EventBus.t (W := W)) :
  wellFormed b ->
  wellFormed (subscribe eventType h b).1
  /\ (forall ty n, wellFormed (unsubscribe ty n b))
  /\ wellFormed (clear b)
  /\ getSubscribers eventType (subscribe eventType h b).1
     = (getSubscribers eventType b ++ [(subscribe eventType h b).2])%list
  /\ subscriptions
       (unsubscribe eventType (sub_id (subscribe eventType h b).2)
          (subscribe eventType h b).1)
     = subscriptions b.
Proof.
  intros Hwf.
  split; [by apply subscribe_wellFormed|].
  split; [intros ty n; by apply unsubscribe_wellFormed|].
  split; [by intros ty subs; simpl; rewrite lookup_empty|].
  split.
  { unfold getSubscribers. simpl. by rewrite lookup_insert_eq. }
  unfold unsubscribe. simpl. rewrite lookup_insert_eq.
  assert (Hrem :
    List.filter (fun s => negb (Nat.eqb (sub_id s) (nextId b)))
      (default [] (subscriptions b !! eventType)
       ++ [{| sub_id := nextId b; sub_eventType := eventType; handler := h |}])
    = default [] (subscriptions b !! eventType)).
  { rewrite List.filter_app. simpl. rewrite Nat.eqb_refl. simpl.
    rewrite app_nil_r. apply filter_all.
    destruct (subscriptions b !! eventType) as [old|] eqn:Hold; [|done].
    destruct (Hwf _ _ Hold) as (_ & Hall & _). simpl.
    eapply Forall_impl; [exact Hall|]. simpl. intros s [_ Hlt].
    apply negb_true_iff, Nat.eqb_neq. lia. }
  rewrite Hrem.
  destruct (subscriptions b !! eventType) as [old|] eqn:Hold; simpl.
  - destruct (Hwf _ _ Hold) as (Hnil & _).
    destruct old as [|s rest]; [done|]. simpl.
    rewrite insert_insert_eq. by apply insert_id.
  - simpl. by apply delete_insert_id.
Qed.

Lemma executeAll_world (b : EventBus.t (W := W)) subs e w :
  (executeAll b subs e w).1
  = fold_left (fun w s => (executeHandler b (handler s) e w).1) subs w.
Proof.
  revert w. induction subs as [|s subs IH]; intros w; [done|].
  cbn [executeAll fold_left].
  destruct (executeHandler b (handler s) e w) as [w1 r]. simpl.
  rewrite <- IH. by destruct (executeAll b subs e w1).
Qed.

(** X29. Fan-out. [publishSync] calls the handler of every subscriber that
    [getSubscribers] lists for the type of the event, once each and in that
    order, a handler that throws not keeping the later ones from being
    called; and it does not throw itself. *)
Theorem publishSync_fans_out (e : DomainEvent) (b : EventBus.t (W := W)) (w : W) :
  publishSync e b w
  = (fold_left (fun w s => (executeHandler b (handler s) e w).1)
       (getSubscribers (type e) b) w,
     Return tt).
Proof.
  unfold publishSync, getSubscribers.
  destruct (subscriptions b !! type e) as [[|s subs]|]; try done.
  change (default [] (Some (s :: subs))) with (s :: subs).
  rewrite <- executeAll_world.
  by destruct (executeAll b (s :: subs) e w).
Qed.

(** X30. [publish] on a bus that is processing only puts the event at the
    end of the queue. On an idle bus it hands every queued event, the new
    one last, to [publishSync] once and in queue order, and comes back with
    the queue empty and the bus idle, whatever the handlers did. *)
Theorem publish_delivers (steps : nat) (e : DomainEvent)
    (b : EventBus.t (W := W)) (w : W) :
  (length (eventQueue b) + 2 <= steps)%nat ->
  publish sleep steps e b w
  = Some (if processing b then (enqueue e b, w)
          else (set_eventQueue [] b,
                deliveredOnce b
                  (eventQueue b ++ [{| event := e; retryCount := 0 |}]) w)).
Proof.
  intros Hsteps. unfold publish, processQueue.
  change (processing (enqueue e b)) with (processing b).
  destruct (processing b) eqn:Hp; [done|].
  pose proof (drain_delivers_once sleep
                (eventQueue b ++ [{| event := e; retryCount := 0 |}])
                (set_processing true (enqueue e b)) w
                (steps - length (eventQueue b) - 2) eq_refl) as H.
  rewrite length_app in H. cbn [length] in H.
  replace (S (length (eventQueue b) + 1 + (steps - length (eventQueue b) - 2)))
    with steps in H by lia.
  rewrite H. f_equal. f_equal.
  - destruct b; simpl in *; by subst.
  - by apply deliveredOnce_ext.
Qed.

End EventBusMore.

Lemma subscribe_unsubscribe_witness :
  EventBus.wellFormed
    (EventBus.subscribe "x" Scenario.flaky
       (EventBus.new (EventBus.defaultOptions Scenario.report))).1
  /\ EventBus.subscriptions
       (EventBus.unsubscribe "x" 0
          (EventBus.subscribe "x" Scenario.flaky
             (EventBus.new (EventBus.defaultOptions Scenario.report))).1)
     = ∅.
Proof.
  destruct (subscribe_unsubscribe "x" Scenario.flaky
              (EventBus.new (EventBus.defaultOptions Scenario.report)))
    as (Hwf & _ & _ & _ & Hback).
  - intros ty subs. simpl. by rewrite lookup_empty.
  - split; [exact Hwf|exact Hback].
Defined.

Lemma publish_delivers_witness :
  EventBus.publish Scenario.nap 2 Scenario.eventA Scenario.busXY Scenario.ledger0
  = Some (EventBus.set_eventQueue [] Scenario.busXY,
          EventBus.deliveredOnce Scenario.busXY
            [{| EventBus.event := Scenario.eventA; EventBus.retryCount := 0 |}]
            Scenario.ledger0).
Proof.
  apply (publish_delivers Scenario.nap 2 Scenario.eventA Scenario.busXY
           Scenario.ledger0).
  simpl. lia.
Defined.

(** ** The unconditional properties, at an input *)

Lemma getFailureRate_pruned_witness :
  (CircuitBreaker.getFailureRate 1000
     (CircuitBreaker.new Scenario.threeStrikes)).2 = 0%Q.
Proof.
  apply (proj2 (proj2 (proj2 (proj2
           (getFailureRate_pruned 1000
              (CircuitBreaker.new Scenario.threeStrikes)))))).
  reflexivity.
Defined.

Lemma get_attempts_bounded_witness :
  exists k,
    wire (BaseApiClient.get BaseApiClient.base Scenario.defaultRetry "/gold"
            Scenario.world404).1
    = (wire Scenario.world404 ++ replicate k "/gold")%list
    /\ 1 <= Z.of_nat k <= BaseApiClient.retries Scenario.defaultRetry + 1.
Proof.
  destruct (get_attempts_bounded BaseApiClient.base Scenario.defaultRetry
              "/gold" Scenario.world404) as (k & Hw & _ & _ & _ & Hk).
  exists k. split; [exact Hw|]. apply Hk. vm_compute. intros H. discriminate H.
Defined.

Lemma enforceRateLimit_spacing_witness :
  (MetalPriceApiClient.enforceRateLimit Scenario.metalClient
     Scenario.world404Later).2 = Scenario.world404Later.
Proof.
  apply (proj2 (proj2 (proj2 (proj2
           (enforceRateLimit_spacing Scenario.metalClient
              Scenario.world404Later))))).
  vm_compute. intros H. discriminate H.
Defined.

Lemma fetchExchangeRate_direct_only_witness :
  (ExchangeRateApiClient.fetchExchangeRate "USD" "EUR" Scenario.exchangeClient
     Scenario.worldRates).1
  = (BaseApiClient.get BaseApiClient.base
       (ExchangeRateApiClient.retryConfig Scenario.exchangeClient)
       ("/" +:+ "USD" +:+ "?symbols=" +:+ "EUR") Scenario.worldRates).1.
Proof.
  exact (proj1 (fetchExchangeRate_direct_only "USD" "EUR"
                  Scenario.exchangeClient Scenario.worldRates)).
Defined.

Lemma getMultipleRates_keys_witness :
  exists results,
    (ExchangeRateApiClient.getMultipleRates "USD" ["EUR"; "MXN"]
       Scenario.exchangeClient Scenario.worldRates).2 = Return results
    /\ dom (ExchangeRateApiClient.own results) = list_to_set ["EUR"; "MXN"].
Proof.
  destruct (getMultipleRates_keys "USD" ["EUR"; "MXN"] Scenario.exchangeClient
              Scenario.worldRates) as (results & Hret & _ & _ & Hkeys).
  exists results. split; [exact Hret|]. apply Hkeys.
  intros Hin. apply elem_of_cons in Hin as [Hin|Hin]; [discriminate Hin|].
  apply elem_of_cons in Hin as [Hin|Hin]; [discriminate Hin|].
  by apply elem_of_nil in Hin.
Defined.
